(** * holopy.propagation.propagate: transfer functions and their application

    A shallow embedding of [trans_func], [apply_trans_func], [propagate] and
    [impulse_response] from [src/holopy/propagation/propagate.py].

    Number model.  Every finite IEEE double is a rational, so Python floats
    and ints that the code computes with [+ - * / abs min int ceil] are
    values of [Q] and the arithmetic is exact (rounding is idealised away).
    The one place where the code relies on IEEE special values, the
    [try ... except OverflowError] around the support size, is modelled with
    an explicit extended number type [xnum].  [np.pi], [np.sqrt] and [np.exp]
    are real valued: kernel cells are complex numbers over [R].  The module
    starts with [from __future__ import division], so [/] is true division
    everywhere, also between two ints. *)

From Stdlib Require Import ZArith QArith Qround Qabs Qminmax Qreals.
From Stdlib Require Import Reals Lra Lia List Bool.
From stdpp Require Import gmap.
Import ListNotations.

Local Open Scope Z_scope.

(** ** Python exceptions and results *)

Inductive exn : Type :=
| OverflowError
| IndexError
| ValueError.

Inductive result (A : Type) : Type :=
| Ok (a : A)
| Raise (e : exn).
Arguments Ok {A} a.
Arguments Raise {A} e.

Definition rbind {A B : Type} (r : result A) (k : A -> result B) : result B :=
  match r with
  | Ok a => k a
  | Raise e => Raise e
  end.

(** ** Scalars *)

Module PyNum.

(** [int(x)] on a finite float truncates toward zero. *)
Definition py_int (q : Q) : Z :=
  if Qle_bool 0 q then Qfloor q else Qceiling q.

(** Floats with the IEEE special values the support computation can meet.
    Signed zeros are not distinguished: a zero divisor is [+0.0]. *)
Inductive xnum : Type :=
| Fin (q : Q)
| PInf
| NInf
| NaN.

Definition Qpos_bool (q : Q) : bool := negb (Qle_bool q 0).
Definition Qneg_bool (q : Q) : bool := negb (Qle_bool 0 q).

(** The finite floats. *)
Definition is_fin (x : xnum) : Prop :=
  match x with
  | Fin _ => True
  | _ => False
  end.

(** The non-negative floats, [inf] included. *)
Definition is_nonneg (x : xnum) : Prop :=
  match x with
  | Fin q => (0 <= q)%Q
  | PInf => True
  | _ => False
  end.

(** numpy true division of a float by a finite float: a zero divisor gives
    [inf], [-inf] or [nan] (with a warning, not an exception). *)
Definition xdiv (a : xnum) (b : Q) : xnum :=
  match a with
  | Fin q =>
      if Qeq_bool b 0 then
        if Qpos_bool q then PInf else if Qneg_bool q then NInf else NaN
      else Fin (q / b)
  | PInf => if Qneg_bool b then NInf else PInf
  | NInf => if Qneg_bool b then PInf else NInf
  | NaN => NaN
  end.

(** The larger of two floats as [np.max] sees them: [nan] propagates. *)
Definition xmax (a b : xnum) : xnum :=
  match a, b with
  | NaN, _ | _, NaN => NaN
  | PInf, _ | _, PInf => PInf
  | NInf, x | x, NInf => x
  | Fin p, Fin q => Fin (Qmax p q)
  end.

(** [np.max] of an array; an empty array raises [ValueError]. *)
Definition np_max (l : list xnum) : result xnum :=
  match l with
  | [] => Raise ValueError
  | x :: tl => Ok (fold_left xmax tl x)
  end.

(** [int(x)]: infinities raise [OverflowError], [nan] raises [ValueError]. *)
Definition py_int_x (x : xnum) : result Z :=
  match x with
  | Fin q => Ok (py_int q)
  | PInf | NInf => Raise OverflowError
  | NaN => Raise ValueError
  end.

End PyNum.
Import PyNum.

(** ** Complex numbers *)

Module Cplx.

Local Open Scope R_scope.

(** [complex128] cells, idealised over the reals. *)
Record C : Type := mkC { Re : R; Im : R }.

Definition C0 : C := mkC 0 0.
Definition C1 : C := mkC 1 0.
(** The literal [1j]. *)
Definition Ci : C := mkC 0 1.

Definition Cneg (z : C) : C := mkC (- Re z) (- Im z).
Definition Cadd (z w : C) : C := mkC (Re z + Re w) (Im z + Im w).
Definition Csub (z w : C) : C := mkC (Re z - Re w) (Im z - Im w).
Definition Cmul (z w : C) : C :=
  mkC (Re z * Re w - Im z * Im w) (Re z * Im w + Im z * Re w).
(** complex times real and complex over real, as numpy promotes them *)
Definition Cmul_r (z : C) (r : R) : C := mkC (Re z * r) (Im z * r).
Definition Cdiv_r (z : C) (r : R) : C := mkC (Re z / r) (Im z / r).
(** complex times a boolean mask entry *)
Definition Cmul_b (z : C) (b : bool) : C := if b then z else C0.

Definition Cmod (z : C) : R := sqrt (Re z * Re z + Im z * Im z).

(** [np.sqrt] on complex input: the principal square root. *)
Definition Csqrt (z : C) : C :=
  mkC (sqrt ((Cmod z + Re z) / 2))
      ((if Rlt_dec (Im z) 0 then -1 else 1) * sqrt ((Cmod z - Re z) / 2)).

(** [np.exp] on complex input. *)
Definition Cexp (z : C) : C :=
  mkC (exp (Re z) * cos (Im z)) (exp (Re z) * sin (Im z)).

(** [z ** n] for a non-negative integer [n]. *)
Fixpoint Cpow (z : C) (n : nat) : C :=
  match n with
  | O => C1
  | S k => Cmul z (Cpow z k)
  end.

(** Complex numbers with rational parts: the values of [root], which the
    code builds from floats with [+ - * /] only. *)
Record CQ : Type := mkCQ { qRe : Q; qIm : Q }.

Definition C_of_CQ (z : CQ) : C := mkC (Q2R (qRe z)) (Q2R (qIm z)).

(** complex minus a real float *)
Definition CQ_sub_r (z : CQ) (x : Q) : CQ := mkCQ (qRe z - x)%Q (qIm z).

(** [z >= 0] on complex numbers: numpy orders them lexicographically, real
    part first. *)
Definition CQ_ge0 (z : CQ) : bool :=
  Qpos_bool (qRe z) || (Qeq_bool (qRe z) 0 && Qle_bool 0 (qIm z)).

Definition CQ_mul_b (z : CQ) (b : bool) : CQ :=
  if b then z else mkCQ 0%Q 0%Q.

End Cplx.
Import Cplx.

(** ** Arrays

    A 3-d array is a list of rows, a row a list of columns, a column the
    list of its entries along the third axis.  The shape is read off the
    first row and its first column, so an array with no rows reports
    [(0, 0, 0)]. *)

Definition arr2 (A : Type) : Type := list (list A).
Definition arr3 (A : Type) : Type := list (list (list A)).

Definition shape0 {A : Type} (a : list A) : nat := length a.
Definition shape1 {A : Type} (a : list (list A)) : nat := length (hd [] a).
Definition shape2 {A : Type} (a : arr3 A) : nat := length (hd [] (hd [] a)).

(** [a[i][j][k]] *)
Definition cell {A : Type} (a : arr3 A) (i j k : nat) : option A :=
  match nth_error a i with
  | Some row =>
      match nth_error row j with
      | Some col => nth_error col k
      | None => None
      end
  | None => None
  end.

Definition map3 {A B : Type} (f : A -> B) (a : arr3 A) : arr3 B :=
  map (map (map f)) a.

(** Rectangular arrays of a given shape. *)
Definition rect2 {A : Type} (m n : nat) (a : arr2 A) : Prop :=
  length a = m /\ Forall (fun row => length row = n) a.
Definition rect3 {A : Type} (m n d : nat) (a : arr3 A) : Prop :=
  length a = m /\ Forall (rect2 n d) a.

(** Arrays of any rank up to three, for results of [np.squeeze]. *)
Inductive ndarray (A : Type) : Type :=
| Nd0 (x : A)
| Nd1 (v : list A)
| Nd2 (m : arr2 A)
| Nd3 (t : arr3 A).
Arguments Nd0 {A} x.
Arguments Nd1 {A} v.
Arguments Nd2 {A} m.
Arguments Nd3 {A} t.

Definition nd_map {A B : Type} (f : A -> B) (a : ndarray A) : ndarray B :=
  match a with
  | Nd0 x => Nd0 (f x)
  | Nd1 v => Nd1 (map f v)
  | Nd2 m => Nd2 (map (map f) m)
  | Nd3 t => Nd3 (map3 f t)
  end.

Definition ndim {A : Type} (a : ndarray A) : nat :=
  match a with
  | Nd0 _ => 0
  | Nd1 _ => 1
  | Nd2 _ => 2
  | Nd3 _ => 3
  end.

(** The only entry of a length-one axis. *)
Definition the {A : Type} (d : A) (l : list A) : A := hd d l.

(** [np.squeeze] on a 3-d array: every axis of length one is removed. *)
Definition np_squeeze {A : Type} (d : A) (a : arr3 A) : ndarray A :=
  let s0 := Nat.eqb (shape0 a) 1 in
  let s1 := Nat.eqb (shape1 a) 1 in
  let s2 := Nat.eqb (shape2 a) 1 in
  match s0, s1, s2 with
  | false, false, false => Nd3 a
  | false, false, true => Nd2 (map (map (the d)) a)
  | false, true, false => Nd2 (map (the []) a)
  | true, false, false => Nd2 (the [] a)
  | false, true, true => Nd1 (map (fun row => the d (the [] row)) a)
  | true, false, true => Nd1 (map (the d) (the [] a))
  | true, true, false => Nd1 (the [] (the [] a))
  | true, true, true => Nd0 (the d (the [] (the [] a)))
  end.

(** ** trans_func *)

Module TransFunc.

Local Open Scope Q_scope.

(** [int(np.max(dim**2*dx**2/np.abs(d)/wavelen/2))+1] *)
Definition support_size (dim : Z) (dx wavelen : Q) (d : list Q) : result Z :=
  rbind (np_max (map (fun dk =>
           xdiv (xdiv (xdiv (Fin (inject_Z (dim ^ 2) * dx ^ 2)) (Qabs dk))
                      wavelen) 2) d))
    (fun v => rbind (py_int_x v) (fun i => Ok (i + 1)%Z)).

(** The [try] block: [max_m] is computed first, then [max_n]; an
    [OverflowError] from either sets both to half the image size, any other
    exception leaves the function. *)
Definition half_widths (xdim ydim : Z) (dx dy wavelen : Q) (d : list Q)
  : result (Q * Q) :=
  match support_size xdim dx wavelen d with
  | Ok max_m =>
      match support_size ydim dy wavelen d with
      | Ok max_n => Ok (inject_Z max_m, inject_Z max_n)
      | Raise OverflowError => Ok (inject_Z xdim / 2, inject_Z ydim / 2)
      | Raise e => Raise e
      end
  | Raise OverflowError => Ok (inject_Z xdim / 2, inject_Z ydim / 2)
  | Raise e => Raise e
  end.

(** The half-width of an axis: an integer [M >= 1], or half the image. *)
Definition good_half (dim : Z) (a : Q) : Prop :=
  (exists M : Z, a = inject_Z M /\ (1 <= M)%Z) \/ a = inject_Z dim / 2.

(** [min(dim, max_m*2)/2] *)
Definition clamp (dim : Z) (max_m : Q) : Q :=
  Qmin (inject_Z dim) (max_m * 2) / 2.

(** One axis of [np.ogrid[start:stop]] with float bounds:
    [ceil((stop - start)/1.0)] points [start + i]. *)
Definition np_ogrid (start stop : Q) : list Q :=
  map (fun i => inject_Z (Z.of_nat i) + start)
      (seq 0 (Z.to_nat (Qceiling (stop - start)))).

(** Number of points of [np.ogrid[-mm:mm]]. *)
Definition axis_len (mm : Q) : nat := Z.to_nat (Qceiling (mm - - mm)).

(** [1.+0j-(wavelen*n/(xdim*dx))**2 - (wavelen*m/(ydim*dy))**2], for
    non-zero [xdim*dx] and [ydim*dy]: numpy's division by zero gives [inf]
    or [nan], which the rationals do not have. *)
Definition root_cell (xdim ydim : Z) (dx dy wavelen : Q) (m n : Q) : CQ :=
  CQ_sub_r
    (CQ_sub_r (mkCQ 1 0) ((wavelen * n / (inject_Z xdim * dx)) ^ 2))
    ((wavelen * m / (inject_Z ydim * dy)) ^ 2).

(** [root *= (root >= 0)] *)
Definition mask_root (root : CQ) : CQ := CQ_mul_b root (CQ_ge0 root).

(** [np.exp(-1j*2*np.pi*d/wavelen*np.sqrt(root))] *)
Definition phase (wavelen d : Q) (root : CQ) : C :=
  Cexp (Cmul
          (Cdiv_r (Cmul_r (Cmul_r (Cmul_r (Cneg Ci) 2) PI) (Q2R d))
                  (Q2R wavelen))
          (Csqrt (C_of_CQ root))).

(** The angle [2 pi d / wavelen * sqrt(root)] of the propagation phase. *)
Definition angle (wavelen d : Q) (root : CQ) : R :=
  (2 * PI * Q2R d / Q2R wavelen * sqrt (Q2R (qRe root)))%R.

(** The statements from [g = np.exp(...)] to [g = g**cfsp] at one cell;
    [root] is the array after [root *= (root >= 0)]. *)
Definition g_cell (wavelen : Q) (cfsp : Z) (gradient_filter : Q)
    (root : CQ) (d : Q) : C :=
  let g := phase wavelen d root in
  let g := if Qeq_bool gradient_filter 0 then g
           else Csub g (phase wavelen (d + gradient_filter) root) in
  let g := Cmul_b g (CQ_ge0 root) in
  if (0 <? cfsp)%Z then Cpow g (Z.to_nat cfsp) else g.

(** [if(cfsp > 0): cfsp = int(abs(cfsp)); d = d/cfsp] *)
Definition scale_d (cfsp : Z) (d : list Q) : list Q :=
  if (0 <? cfsp)%Z then map (fun dk => dk / inject_Z (Z.abs cfsp)) d else d.

(** The clamped half-widths [(max_m, max_n)] the grid is built from. *)
Definition support (shape : Z * Z) (spacing : Q * Q) (wavelen : Q)
    (d : list Q) (cfsp : Z) : result (Q * Q) :=
  let '(dx, dy) := spacing in
  let '(xdim, ydim) := shape in
  rbind (half_widths xdim ydim dx dy wavelen (scale_d cfsp d))
    (fun mn => Ok (clamp xdim (fst mn), clamp ydim (snd mn))).

(** The array [g] before the final [squeeze].  [d] is the list of requested
    distances ([np.array([d])] reshaped to [(1, 1, d.size)]); a false
    [gradient_filter] is [0]. *)
Definition kernel (shape : Z * Z) (spacing : Q * Q) (wavelen : Q)
    (d : list Q) (cfsp : Z) (gradient_filter : Q) : result (arr3 C) :=
  let '(dx, dy) := spacing in
  let '(xdim, ydim) := shape in
  rbind (support shape spacing wavelen d cfsp)
    (fun mn =>
       let max_m := fst mn in
       let max_n := snd mn in
       let m := np_ogrid (- max_m) max_m in
       let n := np_ogrid (- max_n) max_n in
       Ok (map (fun mi =>
             map (fun nj =>
               let root := mask_root (root_cell xdim ydim dx dy wavelen mi nj) in
               map (g_cell wavelen cfsp gradient_filter root) (scale_d cfsp d))
               n) m)).

Definition trans_func (shape : Z * Z) (spacing : Q * Q) (wavelen : Q)
    (d : list Q) (cfsp : Z) (squeeze : bool) (gradient_filter : Q)
  : result (ndarray C) :=
  rbind (kernel shape spacing wavelen d cfsp gradient_filter)
    (fun g => Ok (if squeeze then np_squeeze C0 g else Nd3 g)).

End TransFunc.
Import TransFunc.


(** ** Slices *)

Module Slice.

(** One bound of a slice on an axis of length [len].  A float bound is
    converted with [int()] (the numpy of this code accepts float indices);
    a negative bound counts from the end; the result is clipped to
    [0..len]. *)
Definition slice_bound (len : nat) (q : Q) : nat :=
  let z := py_int q in
  let z := if z <? 0 then z + Z.of_nat len else z in
  Z.to_nat (Z.min z (Z.of_nat len)).

(** [l[start:stop]] *)
Definition get_slice {X : Type} (start stop : nat) (l : list X) : list X :=
  firstn (stop - start) (skipn start l).

(** [l[start:stop] = new], for [new] as long as the slice *)
Definition set_slice {X : Type} (start stop : nat) (new l : list X) : list X :=
  firstn start l ++ new ++ skipn (start + (stop - start)) l.

Fixpoint zip_with_r {X Y : Type} (f : X -> Y -> result X)
    (xs : list X) (ys : list Y) : result (list X) :=
  match xs, ys with
  | x :: xs', y :: ys' =>
      rbind (f x y) (fun x' =>
      rbind (zip_with_r f xs' ys') (fun tl => Ok (x' :: tl)))
  | _, _ => Ok []
  end.

(** An in-place binary operation along one axis with numpy broadcasting:
    the right operand has the length of the left one, or length one;
    anything else is a shape mismatch ([ValueError]). *)
Definition bcast {X Y : Type} (f : X -> Y -> result X)
    (xs : list X) (ys : list Y) : result (list X) :=
  if Nat.eqb (length ys) (length xs) then zip_with_r f xs ys
  else match ys with
       | [y] => zip_with_r f xs (repeat y (length xs))
       | _ => Raise ValueError
       end.

End Slice.
Import Slice.

(** ** apply_trans_func *)

Section SpectrumFilter.

(** The dtype of the arrays: cells, their zero and their product. *)
Context {A : Type} (zero : A) (mul : A -> A -> A).

(** [lhs *= rhs] on two 3-d views *)
Definition imul_view (lhs rhs : arr3 A) : result (arr3 A) :=
  bcast (bcast (bcast (fun x y => Ok (mul x y)))) lhs rhs.

(** [ft[r0:r1, c0:c1] *= g[:ga, :gb]] *)
Definition imul_window (ft : arr3 A) (r0 r1 c0 c1 : Q)
    (g : arr3 A) (ga gb : Q) : result (arr3 A) :=
  let m := shape0 ft in
  let n := shape1 ft in
  let i0 := slice_bound m r0 in
  let i1 := slice_bound m r1 in
  let j0 := slice_bound n c0 in
  let j1 := slice_bound n c1 in
  let lhs := map (get_slice j0 j1) (get_slice i0 i1 ft) in
  let rhs := map (get_slice 0 (slice_bound (shape1 g) gb))
                 (get_slice 0 (slice_bound (shape0 g) ga) g) in
  rbind (imul_view lhs rhs) (fun new =>
    Ok (set_slice i0 i1
          (map (fun p => set_slice j0 j1 (fst p) (snd p))
               (combine new (get_slice i0 i1 ft)))
          ft)).

Definition zeros_like {X : Type} (l : list X) : list A := map (fun _ => zero) l.

(** [ft[r0:r1, ...] = 0] *)
Definition zero_rows (ft : arr3 A) (r0 r1 : Q) : arr3 A :=
  let i0 := slice_bound (shape0 ft) r0 in
  let i1 := slice_bound (shape0 ft) r1 in
  set_slice i0 i1 (map (map zeros_like) (get_slice i0 i1 ft)) ft.

(** [ft[:, c0:c1, ...] = 0] *)
Definition zero_cols (ft : arr3 A) (c0 c1 : Q) : arr3 A :=
  let j0 := slice_bound (shape1 ft) c0 in
  let j1 := slice_bound (shape1 ft) c1 in
  map (fun row => set_slice j0 j1 (map zeros_like (get_slice j0 j1 row)) row) ft.

(** *** The store

    [apply_trans_func] receives references to array objects and updates the
    spectrum in place.  A store maps references to array contents; a
    reference that was never allocated reads as the empty array. *)

Definition ref : Type := positive.
Local Abbreviation heap := (gmap positive (arr3 A)).

(** The array a reference denotes. *)
Definition content (h : heap) (r : ref) : arr3 A := h !!! r.

(** Computations that read and write the store and may raise. *)
Definition M (X : Type) : Type := heap -> result (X * heap).

Definition mret {X : Type} (x : X) : M X := fun h => Ok (x, h).
Definition mbind {X Y : Type} (c : M X) (k : X -> M Y) : M Y :=
  fun h => match c h with
           | Ok (x, h') => k x h'
           | Raise e => Raise e
           end.
Definition mlift {X : Type} (r : result X) : M X :=
  fun h => match r with
           | Ok x => Ok (x, h)
           | Raise e => Raise e
           end.
Definition deref (r : ref) : M (arr3 A) := fun h => Ok (content h r, h).
Definition assign (r : ref) (a : arr3 A) : M unit :=
  fun h => Ok (tt, <[r := a]> h).

Local Notation "'do' x <- c ; k" := (mbind c (fun x => k))
  (at level 10, x name, c at level 100, k at level 200).
Local Notation "'run' c ; k" := (mbind c (fun _ => k))
  (at level 10, c at level 100, k at level 200).

(** [a.shape[:2]] as Python ints *)
Definition shape_of (r : ref) : M (Q * Q) :=
  do a <- deref r;
  mret (inject_Z (Z.of_nat (shape0 a)), inject_Z (Z.of_nat (shape1 a))).

(** The statement [ft[r0:r1, c0:c1] *= G[:ga, :gb]] *)
Definition st_imul_window (ft : ref) (r0 r1 c0 c1 : Q) (G : ref) (ga gb : Q)
  : M unit :=
  do g <- deref G;
  do a <- deref ft;
  do a' <- mlift (imul_window a r0 r1 c0 c1 g ga gb);
  assign ft a'.

(** The statement [ft[r0:r1, ...] = 0] *)
Definition st_zero_rows (ft : ref) (r0 r1 : Q) : M unit :=
  do a <- deref ft; assign ft (zero_rows a r0 r1).

(** The statement [ft[:, c0:c1, ...] = 0] *)
Definition st_zero_cols (ft : ref) (c0 c1 : Q) : M unit :=
  do a <- deref ft; assign ft (zero_cols a c0 c1).

Local Open Scope Q_scope.

Definition apply_trans_func (ft G : ref) : M ref :=
  do gs <- shape_of G;
  let mm := fst gs / 2 in
  let nn := snd gs / 2 in
  do fs <- shape_of ft;
  let m := fst fs in
  let n := snd fs in
  run st_imul_window ft (m / 2 - mm) (m / 2 + mm) (n / 2 - nn) (n / 2 + nn)
                     G (mm * 2) (nn * 2);
  run st_zero_rows ft 0 (n / 2 - nn);
  run st_zero_rows ft (n / 2 + nn) n;
  run st_zero_cols ft 0 (m / 2 - mm);
  run st_zero_cols ft (m / 2 + mm) m;
  mret ft.

(** The contents of the spectrum after the call, as a function of the
    contents of the two arrays before it (for two distinct objects). *)
Definition filtered (ft g : arr3 A) : result (arr3 A) :=
  let mm := inject_Z (Z.of_nat (shape0 g)) / 2 in
  let nn := inject_Z (Z.of_nat (shape1 g)) / 2 in
  let m := inject_Z (Z.of_nat (shape0 ft)) in
  let n := inject_Z (Z.of_nat (shape1 ft)) in
  rbind (imul_window ft (m / 2 - mm) (m / 2 + mm) (n / 2 - nn) (n / 2 + nn)
                     g (mm * 2) (nn * 2))
    (fun a =>
       let a := zero_rows a 0 (n / 2 - nn) in
       let a := zero_rows a (n / 2 + nn) n in
       let a := zero_cols a 0 (m / 2 - mm) in
       Ok (zero_cols a (m / 2 + mm) m)).

(** The centered support window of a kernel of shape [(kx, ky)] in a
    spectrum of shape [(m, n)]: rows [m/2 - kx/2 .. m/2 + kx/2), columns
    [n/2 - ky/2 .. n/2 + ky/2). *)
Definition in_support (m n kx ky : nat) (i j : nat) : bool :=
  let q (x : nat) := inject_Z (Z.of_nat x) in
  (slice_bound m (q m / 2 - q kx / 2) <=? i)%nat
  && (i <? slice_bound m (q m / 2 + q kx / 2))%nat
  && (slice_bound n (q n / 2 - q ky / 2) <=? j)%nat
  && (j <? slice_bound n (q n / 2 + q ky / 2))%nat.

End SpectrumFilter.

(** ** propagate *)

Module Propagate.

Local Open Scope Q_scope.

(** What the code reads of [data.optics]. *)
Record Optics : Type := mkOptics {
  med_wavelen : Q;
  pixel : Q * Q;
  wavevec : R
}.

(** An [Image]: the 2-d sample array, [positions.spacing] and [optics]. *)
Record Image : Type := mkImage {
  samples : arr2 C;
  spacing : Q * Q;
  optics : Optics
}.

(** [Grid(spacing, shape)] and [UnevenGrid(spacing, shape)] *)
Inductive Positions : Type :=
| Grid (spacing : list Q) (shape : nat * nat * nat)
| UnevenGrid (spacing : Q * Q * list Q) (shape : nat * nat * nat).

(** What [propagate] returns: an [Image], a [Volume], or [None] when the
    function falls off its end. *)
Inductive Propagated : Type :=
| RImage (im : Image)
| RVolume (arr : arr3 C) (positions : Positions)
| RNone.

(** [np.diff] *)
Fixpoint np_diff (d : list Q) : list Q :=
  match d with
  | x :: ((y :: _) as tl) => (y - x) :: np_diff tl
  | _ => []
  end.

(** [np.allclose(a, b)] for a scalar [a] and an array [b], with the default
    [rtol=1e-05] and [atol=1e-08]: [|a - x| <= atol + rtol * |x|] at every
    entry. *)
Definition np_allclose (a : Q) (b : list Q) : bool :=
  forallb (fun x =>
    Qle_bool (Qabs (a - x)) ((1 # 100000000) + (1 # 100000) * Qabs x)) b.

(** [np.repeat(ft[:, :, np.newaxis, ...], reps, axis=2)] *)
Definition np_repeat_axis2 {A : Type} (ft : arr2 A) (reps : nat) : arr3 A :=
  map (map (fun x => repeat x reps)) ft.

Definition shape3 {A : Type} (a : arr3 A) : nat * nat * nat :=
  (shape0 a, shape1 a, shape2 a).

Section WithFFT.

(** The transforms of [holopy.core.math]: [fft] on the 2-d image, [ifft]
    along the first two axes of the stack of spectra. *)
Variable fft : arr2 C -> arr2 C.
Variable ifft : arr3 C -> arr3 C.

(** The two arrays [propagate] creates, as objects of a store of its own. *)
Definition ref_ft : ref := 1%positive.
Definition ref_G : ref := 2%positive.
Definition fresh_store (ft G : arr3 C) : gmap positive (arr3 C) :=
  <[ref_G := G]> (<[ref_ft := ft]> ∅).

Definition propagate (data : Image) (d : list Q) (gradient_filter : Q)
  : result Propagated :=
  rbind (kernel (Z.of_nat (shape0 (samples data)),
                 Z.of_nat (shape1 (samples data)))
                (spacing data) (med_wavelen (optics data)) d 0
                gradient_filter)
    (fun G =>
  let ft := fft (samples data) in
  let ft := np_repeat_axis2 ft (shape2 G) in
  rbind (apply_trans_func C0 Cmul ref_ft ref_G (fresh_store ft G)) (fun rh =>
  let ft := content (snd rh) (fst rh) in
  let arr := np_squeeze C0 (ifft ft) in
  match arr with
  | Nd2 a => Ok (RImage (mkImage a (spacing data) (optics data)))
  | Nd3 a =>
      let dd := np_diff d in
      match dd with
      | [] => Raise IndexError
      | dd0 :: _ =>
          if np_allclose dd0 dd then
            Ok (RVolume a (Grid [fst (spacing data); snd (spacing data); dd0]
                                (shape3 a)))
          else
            Ok (RVolume a (UnevenGrid (fst (spacing data),
                                       snd (spacing data), d)
                                      (shape3 a)))
      end
  | _ => Ok RNone
  end)).

End WithFFT.

End Propagate.
Import Propagate.

(** ** impulse_response *)

Module Impulse.

Local Open Scope Q_scope.

(** [np.sqrt(d**2 + (m*dx)**2 + (n*dy)**2)] *)
Definition ir_root (dx dy : Q) (m n d : Q) : R :=
  sqrt (Q2R (d ^ 2 + (m * dx) ^ 2 + (n * dy) ^ 2)).

(** [1.0j/wavelen * np.exp(-1.0j*optics.wavevec*root)/root] *)
Definition ir_cell (wavelen : Q) (wavevec : R) (root : R) : C :=
  Cdiv_r (Cmul (Cdiv_r Ci (Q2R wavelen))
               (Cexp (Cmul_r (Cmul_r (Cneg Ci) wavevec) root)))
         root.

(** The array [impulse_response] returns for a non-zero [med_wavelen]; with
    a zero one [1.0j/wavelen] raises [ZeroDivisionError]. *)
Definition impulse_response (shape : Z * Z) (optics : Optics) (d : list Q)
  : arr3 C :=
  let '(dx, dy) := pixel optics in
  let wavelen := med_wavelen optics in
  let '(xdim, ydim) := shape in
  let max_m := inject_Z xdim / 2 in
  let max_n := inject_Z ydim / 2 in
  let m := np_ogrid (- max_m) max_m in
  let n := np_ogrid (- max_n) max_n in
  map (fun mi =>
    map (fun nj =>
      map (fun dk =>
        ir_cell wavelen (wavevec optics) (ir_root dx dy mi nj dk)) d) n) m.

End Impulse.
Import Impulse.

(** * Statements about the code, as predicates on its inputs *)

Module Statements.

Local Open Scope Q_scope.

(** Both spatial dimensions of the kernel are even and at most the image
    dimensions. *)
Definition kernel_dims_even_bounded (shape : Z * Z) (spacing : Q * Q)
    (wavelen : Q) (d : list Q) (cfsp : Z) (gf : Q) : Prop :=
  forall g, kernel shape spacing wavelen d cfsp gf = Ok g ->
    Nat.even (shape0 g) = true /\ Nat.even (shape1 g) = true /\
    (Z.of_nat (shape0 g) <= fst shape)%Z /\
    (Z.of_nat (shape1 g) <= snd shape)%Z.

(** A non-positive wavelength, spacing component or dimension. *)
Definition invalid_parameter (shape : Z * Z) (spacing : Q * Q) (wavelen : Q)
  : Prop :=
  wavelen <= 0 \/ fst spacing <= 0 \/ snd spacing <= 0 \/
  (fst shape <= 0)%Z \/ (snd shape <= 0)%Z.

(** Invalid parameters make the call fail. *)
Definition rejects_invalid (shape : Z * Z) (spacing : Q * Q) (wavelen : Q)
    (d : list Q) (cfsp : Z) (squeeze : bool) (gf : Q) : Prop :=
  invalid_parameter shape spacing wavelen ->
  exists e, trans_func shape spacing wavelen d cfsp squeeze gf = Raise e.

(** [a ** n] on every cell of a result. *)
Definition result_pow (n : Z) (r : result (ndarray C)) : result (ndarray C) :=
  rbind r (fun a => Ok (nd_map (fun z => Cpow z (Z.to_nat n)) a)).

(** The cascaded kernel is the kernel at [d] without cascade, raised to the
    power [cfsp]. *)
Definition cascade_is_power_at_d (shape : Z * Z) (spacing : Q * Q)
    (wavelen : Q) (d : Q) (cfsp : Z) (squeeze : bool) : Prop :=
  trans_func shape spacing wavelen [d] cfsp squeeze 0
  = result_pow cfsp (trans_func shape spacing wavelen [d] 0 squeeze 0).

(** Elementwise difference of two arrays of one shape; arrays of different
    shapes have no elementwise difference. *)
Fixpoint sub1 (a b : list C) : option (list C) :=
  match a, b with
  | [], [] => Some []
  | x :: a', y :: b' => option_map (cons (Csub x y)) (sub1 a' b')
  | _, _ => None
  end.
Fixpoint sub2 (a b : arr2 C) : option (arr2 C) :=
  match a, b with
  | [], [] => Some []
  | x :: a', y :: b' =>
      match sub1 x y, sub2 a' b' with
      | Some r, Some tl => Some (r :: tl)
      | _, _ => None
      end
  | _, _ => None
  end.
Fixpoint sub3 (a b : arr3 C) : option (arr3 C) :=
  match a, b with
  | [], [] => Some []
  | x :: a', y :: b' =>
      match sub2 x y, sub3 a' b' with
      | Some r, Some tl => Some (r :: tl)
      | _, _ => None
      end
  | _, _ => None
  end.

(** The gradient-filtered kernel is the difference of the kernels at [d]
    and at [d + g]. *)
Definition gradient_is_difference (shape : Z * Z) (spacing : Q * Q)
    (wavelen : Q) (d : list Q) (gf : Q) : Prop :=
  exists k kd kg,
    kernel shape spacing wavelen d 0 gf = Ok k /\
    kernel shape spacing wavelen d 0 0 = Ok kd /\
    kernel shape spacing wavelen (map (fun dk => dk + gf) d) 0 0 = Ok kg /\
    sub3 kd kg = Some k.

(** The spherical wave [(i / wavelen) * exp(-i * k * root) / root] at pixel
    offset [(m, n)] and distance [d], with
    [root = sqrt(d^2 + (m dx)^2 + (n dy)^2)]. *)
Definition spherical_wave (wavelen k dx dy d m n : R) : C :=
  let root := sqrt (d * d + (m * dx) * (m * dx) + (n * dy) * (n * dy))%R in
  Cdiv_r (Cmul (Cdiv_r Ci wavelen) (Cexp (Cmul_r (Cneg Ci) (k * root)%R))) root.

(** An array of shape [(m, n, d)] filled with ones, of an integer dtype. *)
Definition ones (m n d : nat) : arr3 Z := repeat (repeat (repeat 1%Z d) n) m.

(** A store holding a spectrum at reference 1 and a kernel at reference 2. *)
Definition two_arrays {A : Type} (ft G : arr3 A) : gmap positive (arr3 A) :=
  <[2%positive := G]> (<[1%positive := ft]> ∅).

End Statements.
Import Statements.

(** * Further definitions *)

Module CplxMore.

Local Open Scope R_scope.

(** The complex conjugate. *)
Definition Cconj (z : C) : C := mkC (Re z) (- Im z).

(** The squared modulus. *)
Definition Cnorm2 (z : C) : R := Re z * Re z + Im z * Im z.

End CplxMore.
Import CplxMore.

(** A cell after [... = 0]: still there, holding zero. *)
Definition zeroed {A : Type} (zero : A) (x : option A) : option A :=
  option_map (fun _ => zero) x.

(** The product of two cells that both exist. *)
Definition cell_mul {A : Type} (mul : A -> A -> A) (x y : option A)
  : option A :=
  match x, y with
  | Some a, Some b => Some (mul a b)
  | _, _ => None
  end.

(** The half-width [trans_func] computes for a single distance [d] before
    clamping: [int(dim**2*dx**2/abs(d)/wavelen/2)+1], or half the image
    after the overflow at [d = 0]. *)
Definition single_half_width (dim : Z) (dx wavelen d : Q) : Q :=
  if Qeq_bool d 0 then inject_Z dim / 2
  else inject_Z (py_int (inject_Z (dim ^ 2) * dx ^ 2 / Qabs d / wavelen / 2)
                 + 1).

(** The cells the four assignments [ft[0:n/2-nn,...] = 0],
    [ft[n/2+nn:n,...] = 0], [ft[:,0:m/2-mm,...] = 0] and
    [ft[:,m/2+mm:m,...] = 0] write, for a spectrum of shape [(m, n)] and a
    kernel of shape [(kx, ky)]: the first two slice the row axis (of length
    [m]), the last two the column axis (of length [n]), with the bounds as
    the source writes them. *)
Definition cleared (m n kx ky : nat) (i j : nat) : bool :=
  let qm := inject_Z (Z.of_nat m) in
  let qn := inject_Z (Z.of_nat n) in
  let mm := (inject_Z (Z.of_nat kx) / 2)%Q in
  let nn := (inject_Z (Z.of_nat ky) / 2)%Q in
  ((slice_bound m 0 <=? i) && (i <? slice_bound m (qn / 2 - nn)%Q))%nat
  || ((slice_bound m (qn / 2 + nn)%Q <=? i) && (i <? slice_bound m qn))%nat
  || ((slice_bound n 0 <=? j) && (j <? slice_bound n (qm / 2 - mm)%Q))%nat
  || ((slice_bound n (qm / 2 + mm)%Q <=? j) && (j <? slice_bound n qm))%nat.

(** * Properties *)

(** ** Complex arithmetic *)

Section ComplexFacts.

Local Open Scope R_scope.

Lemma C_eq (a b c d : R) : a = c -> b = d -> mkC a b = mkC c d.
Proof. intros -> ->; reflexivity. Qed.

Lemma C1_neq_C0 : C1 <> C0.
Proof. unfold C1, C0; intros H; injection H; lra. Qed.

Lemma Q2R_zero : Q2R 0 = 0.
Proof. unfold Q2R; simpl; lra. Qed.

Lemma Csqrt_C0 : Csqrt C0 = C0.
Proof.
  unfold Csqrt, Cmod, C0; simpl.
  replace (0 * 0 + 0 * 0) with 0 by lra.
  rewrite sqrt_0.
  replace ((0 + 0) / 2) with 0 by lra.
  replace ((0 - 0) / 2) with 0 by lra.
  rewrite sqrt_0.
  destruct (Rlt_dec 0 0); apply C_eq; lra.
Qed.

Lemma Cmul_C0_r (z : C) : Cmul z C0 = C0.
Proof. unfold Cmul, C0; simpl; apply C_eq; lra. Qed.

Lemma Cmul_C1_r (z : C) : Cmul z C1 = z.
Proof. destruct z as [a b]; unfold Cmul, C1; simpl; apply C_eq; lra. Qed.

Lemma Cmul_C1_l (z : C) : Cmul C1 z = z.
Proof. destruct z as [a b]; unfold Cmul, C1; simpl; apply C_eq; lra. Qed.

Lemma Cexp_C0 : Cexp C0 = C1.
Proof.
  unfold Cexp, C0, C1; simpl.
  rewrite exp_0, cos_0, sin_0; apply C_eq; lra.
Qed.

Lemma Cpow_C1 (n : nat) : Cpow C1 n = C1.
Proof. induction n as [|n IH]; simpl; [reflexivity|]. rewrite IH; apply Cmul_C1_l. Qed.

Lemma Cpow_C0 (n : nat) : (0 < n)%nat -> Cpow C0 n = C0.
Proof.
  destruct n as [|n]; [lia|]; intros _; simpl.
  unfold Cmul, C0; simpl; apply C_eq; lra.
Qed.

Lemma Csub_diag (z : C) : Csub z z = C0.
Proof. unfold Csub, C0; apply C_eq; lra. Qed.

End ComplexFacts.

(** ** The two masks of [trans_func] *)

Section Masks.

Lemma CQ_ge0_zero : CQ_ge0 (mkCQ 0 0) = true.
Proof. reflexivity. Qed.

(** After [root *= (root >= 0)] no entry of [root] is negative any more, so
    the second mask [(root >= 0)] is true at every cell. *)
Lemma mask_root_ge0 (r : CQ) : CQ_ge0 (mask_root r) = true.
Proof.
  unfold mask_root, CQ_mul_b.
  destruct (CQ_ge0 r) eqn:E; [exact E | reflexivity].
Qed.

Lemma mask_root_evanescent (r : CQ) :
  CQ_ge0 r = false -> mask_root r = mkCQ 0 0.
Proof. unfold mask_root, CQ_mul_b; intros ->; reflexivity. Qed.

Lemma C_of_CQ_zero : C_of_CQ (mkCQ 0 0) = C0.
Proof. unfold C_of_CQ, C0; simpl; rewrite Q2R_zero; reflexivity. Qed.

(** At a masked cell the phase factor is [exp(0) = 1], whatever the
    distance. *)
Lemma phase_zero_root (wavelen d : Q) : phase wavelen d (mkCQ 0 0) = C1.
Proof.
  unfold phase.
  rewrite C_of_CQ_zero, Csqrt_C0, Cmul_C0_r.
  apply Cexp_C0.
Qed.

(** An evanescent cell of a kernel built without gradient filter holds 1. *)
Lemma g_cell_evanescent (wavelen : Q) (cfsp : Z) (gf : Q) (r : CQ) (d : Q) :
  CQ_ge0 r = false -> Qeq_bool gf 0 = true ->
  g_cell wavelen cfsp gf (mask_root r) d = C1.
Proof.
  intros Hr Hg. unfold g_cell.
  rewrite Hg, mask_root_ge0, (mask_root_evanescent r Hr), phase_zero_root.
  simpl. destruct (0 <? cfsp)%Z; [apply Cpow_C1 | reflexivity].
Qed.

(** With a gradient filter the two phase factors cancel there. *)
Lemma g_cell_evanescent_gradient (wavelen : Q) (cfsp : Z) (gf : Q) (r : CQ)
    (d : Q) :
  CQ_ge0 r = false -> Qeq_bool gf 0 = false -> (cfsp <> 0)%Z ->
  g_cell wavelen cfsp gf (mask_root r) d = C0.
Proof.
  intros Hr Hg Hc. unfold g_cell.
  rewrite Hg, mask_root_ge0, (mask_root_evanescent r Hr), !phase_zero_root.
  rewrite Csub_diag. simpl.
  destruct (0 <? cfsp)%Z eqn:E; [|reflexivity].
  apply Cpow_C0. apply Z.ltb_lt in E. lia.
Qed.

End Masks.

(** ** Cells of the kernel *)

Section KernelCells.

Lemma cell_map3 {X Y Z' W : Type} (f : X -> Y -> Z' -> W)
    (xs : list X) (ys : list Y) (zs : list Z') (i j k : nat) x y z :
  nth_error xs i = Some x -> nth_error ys j = Some y ->
  nth_error zs k = Some z ->
  cell (map (fun x => map (fun y => map (f x y) zs) ys) xs) i j k
  = Some (f x y z).
Proof.
  intros Hx Hy Hz. unfold cell.
  rewrite nth_error_map, Hx. simpl.
  rewrite nth_error_map, Hy. simpl.
  rewrite nth_error_map, Hz. reflexivity.
Qed.

(** The cell of the kernel at grid point [(m_i, n_j)] and distance [d_k]. *)
Lemma kernel_cell (xdim ydim : Z) (dx dy wavelen : Q) (d : list Q)
    (cfsp : Z) (gf : Q) (mm nn : Q) (i j k : nat) (mi nj dk : Q) :
  support (xdim, ydim) (dx, dy) wavelen d cfsp = Ok (mm, nn) ->
  nth_error (np_ogrid (- mm) mm) i = Some mi ->
  nth_error (np_ogrid (- nn) nn) j = Some nj ->
  nth_error (scale_d cfsp d) k = Some dk ->
  exists g, kernel (xdim, ydim) (dx, dy) wavelen d cfsp gf = Ok g /\
    cell g i j k =
    Some (g_cell wavelen cfsp gf
            (mask_root (root_cell xdim ydim dx dy wavelen mi nj)) dk).
Proof.
  intros Hs Hi Hj Hk. unfold kernel. rewrite Hs. simpl.
  eexists; split; [reflexivity|].
  apply (cell_map3 (fun mi nj =>
           g_cell wavelen cfsp gf
             (mask_root (root_cell xdim ydim dx dy wavelen mi nj)))); assumption.
Qed.

End KernelCells.

(** C1 (evanescent masking), evaluated on the code: for a 4x4 image with
    unit spacing, wavelength 4 and distance 1 (no cascade, no gradient
    filter), the grid point [m = 0, n = -2] has [root = -3 < 0], it is cell
    [(2, 0, 0)] of the returned kernel, and the kernel holds 1 there, not 0:
    the second mask is computed from the already masked [root]. *)
Theorem trans_func_evanescent_cell_is_one :
  let m := (0 # 2)%Q in
  let n := (-4 # 2)%Q in
  support (4, 4) (1, 1)%Q 4 [1%Q] 0 = Ok ((4 # 2)%Q, (4 # 2)%Q) /\
  nth_error (np_ogrid (- (4 # 2)) (4 # 2)) 2 = Some m /\
  nth_error (np_ogrid (- (4 # 2)) (4 # 2)) 0 = Some n /\
  (m == 0 /\ n == -2 /\ qRe (root_cell 4 4 1 1 4 m n) == -3)%Q /\
  exists g, trans_func (4, 4) (1, 1)%Q 4 [1%Q] 0 false 0 = Ok (Nd3 g) /\
    cell g 2 0 0 = Some C1 /\ cell g 2 0 0 <> Some C0.
Proof.
  intros m n.
  split; [reflexivity|]. split; [reflexivity|]. split; [reflexivity|].
  split; [repeat split; reflexivity|].
  destruct (kernel_cell 4 4 1 1 4 [1%Q] 0 0 (4 # 2) (4 # 2) 2 0 0 m n 1)
    as [g [Hg Hc]]; try reflexivity.
  exists g. unfold trans_func. rewrite Hg. simpl.
  split; [reflexivity|].
  rewrite g_cell_evanescent in Hc by reflexivity.
  split; [exact Hc|].
  rewrite Hc. intros H; injection H. intros; lra.
Qed.

(** ** The shape of the kernel *)

Section KernelShape.

Local Open Scope Q_scope.

Lemma length_np_ogrid (a b : Q) :
  length (np_ogrid a b) = Z.to_nat (Qceiling (b - a)).
Proof. unfold np_ogrid. rewrite length_map, length_seq. reflexivity. Qed.

Lemma kernel_shape (xdim ydim : Z) (dx dy wavelen : Q) (d : list Q)
    (cfsp : Z) (gf : Q) (mm nn : Q) :
  support (xdim, ydim) (dx, dy) wavelen d cfsp = Ok (mm, nn) ->
  exists g, kernel (xdim, ydim) (dx, dy) wavelen d cfsp gf = Ok g /\
    shape0 g = axis_len mm /\
    shape1 g = (if Nat.eqb (axis_len mm) 0 then 0 else axis_len nn)%nat.
Proof.
  intros Hs. unfold kernel. rewrite Hs. simpl.
  eexists; split; [reflexivity|]. split.
  - unfold shape0. rewrite length_map. apply length_np_ogrid.
  - unfold shape1, axis_len. rewrite <- !length_np_ogrid.
    destruct (np_ogrid (- mm) mm) as [|m0 ms]; simpl; [reflexivity|].
    rewrite length_map. reflexivity.
Qed.

Lemma kernel_support (shape : Z * Z) (spacing : Q * Q) (wavelen : Q)
    (d : list Q) (cfsp : Z) (gf : Q) (g : arr3 C) :
  kernel shape spacing wavelen d cfsp gf = Ok g ->
  exists mm nn, support shape spacing wavelen d cfsp = Ok (mm, nn).
Proof.
  unfold kernel. destruct spacing as [dx dy], shape as [xdim ydim].
  destruct (support (xdim, ydim) (dx, dy) wavelen d cfsp) as [[mm nn]|e];
    simpl; [|discriminate].
  intros _. exists mm, nn. reflexivity.
Qed.

(** The half-widths before clamping are two integers, or, after an
    [OverflowError], half the image dimensions. *)
Lemma half_widths_cases (xdim ydim : Z) (dx dy wavelen : Q) (d : list Q)
    (a b : Q) :
  half_widths xdim ydim dx dy wavelen d = Ok (a, b) ->
  (exists M N : Z, a = inject_Z M /\ b = inject_Z N) \/
  (a = inject_Z xdim / 2 /\ b = inject_Z ydim / 2).
Proof.
  unfold half_widths.
  destruct (support_size xdim dx wavelen d) as [M|[]];
    [destruct (support_size ydim dy wavelen d) as [N|[]]| | |];
    intros H; inversion H; subst; eauto.
Qed.

Lemma clamp_width_int (dim M : Z) :
  Qceiling (clamp dim (inject_Z M) - - clamp dim (inject_Z M))
  = Z.min dim (M * 2).
Proof.
  assert (E : clamp dim (inject_Z M) - - clamp dim (inject_Z M)
              == inject_Z (Z.min dim (M * 2))).
  { unfold clamp.
    assert (Hm : Qmin (inject_Z dim) (inject_Z M * 2)
                 == inject_Z (Z.min dim (M * 2))).
    { replace (inject_Z M * 2) with (inject_Z M * inject_Z 2) by reflexivity.
      rewrite <- inject_Z_mult.
      destruct (Z.le_ge_cases dim (M * 2)) as [Hle|Hge].
      - rewrite Z.min_l by exact Hle.
        apply Q.min_l. rewrite <- Zle_Qle. exact Hle.
      - rewrite Z.min_r by lia.
        apply Q.min_r. rewrite <- Zle_Qle. lia. }
    rewrite Hm. field. }
  rewrite E. apply Qceiling_Z.
Qed.

Lemma clamp_width_half (dim : Z) :
  Qceiling (clamp dim (inject_Z dim / 2) - - clamp dim (inject_Z dim / 2))
  = dim.
Proof.
  assert (E : clamp dim (inject_Z dim / 2) - - clamp dim (inject_Z dim / 2)
              == inject_Z dim).
  { unfold clamp.
    assert (Hm : Qmin (inject_Z dim) (inject_Z dim / 2 * 2) == inject_Z dim).
    { apply Q.min_l. apply Qle_lteq. right. field. }
    rewrite Hm. field. }
  rewrite E. apply Qceiling_Z.
Qed.

Lemma even_to_nat (z : Z) : Z.even z = true -> Nat.even (Z.to_nat z) = true.
Proof.
  intros H. destruct z as [|p|p]; try reflexivity.
  rewrite <- (Z2Nat.id (Z.pos p)) in H by lia.
  apply Nat.even_spec. apply Z.even_spec in H.
  destruct H as [k Hk]. exists (Z.to_nat k). lia.
Qed.

Lemma even_min_double (dim M : Z) :
  Z.even dim = true -> Z.even (Z.min dim (M * 2)) = true.
Proof.
  intros H. destruct (Z.min_spec dim (M * 2)) as [[_ ->]|[_ ->]];
    [exact H|]. rewrite Z.even_mul. apply orb_true_r.
Qed.

(** Along one axis: the number of grid points is at most the image
    dimension, and it is even when the image dimension is. *)
Lemma axis_len_bound (dim : Z) (hw : Q) :
  (0 <= dim)%Z ->
  (exists M : Z, hw = inject_Z M) \/ hw = inject_Z dim / 2 ->
  (Z.of_nat (axis_len (clamp dim hw)) <= dim)%Z /\
  (Z.even dim = true -> Nat.even (axis_len (clamp dim hw)) = true).
Proof.
  intros Hdim [[M ->]| ->]; unfold axis_len.
  - rewrite clamp_width_int. split.
    + lia.
    + intros He. apply even_to_nat, even_min_double, He.
  - rewrite clamp_width_half. split.
    + lia.
    + intros He. apply even_to_nat, He.
Qed.

End KernelShape.

(** C6, as the code has it: the kernel is never larger than the image, and
    each of its spatial dimensions is even whenever the matching image
    dimension is even. *)
Theorem kernel_dims_bounded_even_for_even_image (xdim ydim : Z)
    (dx dy wavelen : Q) (d : list Q) (cfsp : Z) (gf : Q) (g : arr3 C) :
  (0 <= xdim)%Z -> (0 <= ydim)%Z ->
  kernel (xdim, ydim) (dx, dy) wavelen d cfsp gf = Ok g ->
  (Z.of_nat (shape0 g) <= xdim)%Z /\ (Z.of_nat (shape1 g) <= ydim)%Z /\
  (Z.even xdim = true -> Nat.even (shape0 g) = true) /\
  (Z.even ydim = true -> Nat.even (shape1 g) = true).
Proof.
  intros Hx Hy Hk.
  destruct (kernel_support _ _ _ _ _ _ _ Hk) as [mm [nn Hs]].
  destruct (kernel_shape xdim ydim dx dy wavelen d cfsp gf mm nn Hs)
    as [g' [Hk' [H0 H1]]].
  rewrite Hk in Hk'. injection Hk' as <-.
  unfold support in Hs.
  destruct (half_widths xdim ydim dx dy wavelen (scale_d cfsp d))
    as [[a b]|e] eqn:Hh; simpl in Hs; [|discriminate].
  injection Hs as <- <-.
  assert (Ha : (exists M : Z, a = inject_Z M) \/ a = (inject_Z xdim / 2)%Q).
  { destruct (half_widths_cases _ _ _ _ _ _ _ _ Hh) as [[M [N [-> _]]]|[-> _]];
      eauto. }
  assert (Hb : (exists N : Z, b = inject_Z N) \/ b = (inject_Z ydim / 2)%Q).
  { destruct (half_widths_cases _ _ _ _ _ _ _ _ Hh) as [[M [N [_ ->]]]|[_ ->]];
      eauto. }
  destruct (axis_len_bound xdim a Hx Ha) as [Bx Ex].
  destruct (axis_len_bound ydim b Hy Hb) as [By Ey].
  rewrite H0, H1.
  destruct (Nat.eqb (axis_len (clamp xdim a)) 0); repeat split;
    try assumption; try lia; intros; reflexivity.
Qed.

Lemma kernel_dims_bounded_even_for_even_image_witness :
  exists g, kernel (4, 4) (1, 1)%Q 1 [1%Q] 0 0 = Ok g /\
    (Z.of_nat (shape0 g) <= 4)%Z /\ (Z.of_nat (shape1 g) <= 4)%Z /\
    (Z.even 4 = true -> Nat.even (shape0 g) = true) /\
    (Z.even 4 = true -> Nat.even (shape1 g) = true).
Proof.
  destruct (kernel_shape 4 4 1 1 1 [1%Q] 0 0 (4 # 2) (4 # 2) eq_refl)
    as [g [Hg _]].
  exists g. split; [exact Hg|].
  apply (kernel_dims_bounded_even_for_even_image 4 4 1 1 1 [1%Q] 0 0 g);
    [lia | lia | exact Hg].
Defined.

(** C6 as stated fails on an odd image: a 5x5 image (unit spacing, unit
    wavelength, distance 1) gets a 5x5 kernel. *)
Lemma kernel_dims_odd_image :
  ~ kernel_dims_even_bounded (5, 5) (1, 1)%Q 1 [1%Q] 0 0.
Proof.
  intros H.
  destruct (kernel_shape 5 5 1 1 1 [1%Q] 0 0 (5 # 2) (5 # 2) eq_refl)
    as [g [Hg [H0 _]]].
  destruct (H g Hg) as [He _].
  rewrite H0 in He. vm_compute in He. discriminate.
Qed.

(** ** No validation of parameters *)

Section NoValidation.

Local Open Scope Q_scope.

Lemma xdiv_fin (q b : Q) : ~ b == 0 -> xdiv (Fin q) b = Fin (q / b).
Proof.
  intros Hb. unfold xdiv.
  destruct (Qeq_bool b 0) eqn:E; [|reflexivity].
  apply Qeq_bool_iff in E. contradiction.
Qed.

Lemma fold_xmax_fin (l : list xnum) (x : xnum) :
  Forall is_fin l -> is_fin x -> is_fin (fold_left xmax l x).
Proof.
  revert x. induction l as [|y l IH]; intros x Hl Hx; simpl; [exact Hx|].
  inversion Hl as [|? ? Hy Hl']; subst.
  apply IH; [exact Hl'|].
  destruct x, y; simpl in *; tauto.
Qed.

Lemma Qabs_nonzero (q : Q) : ~ q == 0 -> ~ Qabs q == 0.
Proof.
  destruct q as [n p]. unfold Qabs, Qeq. simpl. lia.
Qed.

Lemma support_size_ok (dim : Z) (dx wavelen : Q) (d : list Q) :
  d <> [] -> Forall (fun dk => ~ dk == 0) d -> ~ wavelen == 0 ->
  exists z, support_size dim dx wavelen d = Ok z.
Proof.
  intros Hne Hd Hw. unfold support_size.
  set (f := fun dk : Q =>
         xdiv (xdiv (xdiv (Fin (inject_Z (dim ^ 2) * dx ^ 2)) (Qabs dk))
                    wavelen) 2).
  assert (Hall : Forall is_fin (map f d)).
  { apply Forall_map. eapply Forall_impl; [exact Hd|].
    intros dk Hdk. unfold f.
    rewrite (xdiv_fin _ (Qabs dk)) by (apply Qabs_nonzero; exact Hdk).
    rewrite (xdiv_fin _ wavelen) by exact Hw.
    rewrite xdiv_fin by discriminate. exact I. }
  destruct d as [|d0 d']; [contradiction|].
  simpl map in *. simpl np_max.
  inversion Hall as [|? ? H0 Htl]; subst.
  pose proof (fold_xmax_fin _ _ Htl H0) as Hf.
  destruct (fold_left xmax (map f d') (f d0)); try contradiction.
  simpl. eauto.
Qed.

Lemma scale_d_nonzero (cfsp : Z) (d : list Q) :
  Forall (fun dk => ~ dk == 0) d ->
  Forall (fun dk => ~ dk == 0) (scale_d cfsp d).
Proof.
  intros Hd. unfold scale_d.
  destruct (0 <? cfsp)%Z eqn:E; [|exact Hd].
  apply Z.ltb_lt in E. apply Forall_map.
  eapply Forall_impl; [exact Hd|]. intros dk Hdk H. apply Hdk.
  assert (Hc : ~ inject_Z (Z.abs cfsp) == 0).
  { unfold Qeq; simpl. lia. }
  rewrite <- (Qmult_div_r dk (inject_Z (Z.abs cfsp))) by exact Hc.
  rewrite H. ring.
Qed.

Lemma scale_d_nonempty (cfsp : Z) (d : list Q) :
  d <> [] -> scale_d cfsp d <> [].
Proof.
  unfold scale_d. destruct (0 <? cfsp)%Z; [|tauto].
  destruct d; [tauto|discriminate].
Qed.

Lemma kernel_ok (shape : Z * Z) (spacing : Q * Q) (wavelen : Q)
    (d : list Q) (cfsp : Z) (gf : Q) :
  d <> [] -> Forall (fun dk => ~ dk == 0) d -> ~ wavelen == 0 ->
  exists g, kernel shape spacing wavelen d cfsp gf = Ok g.
Proof.
  intros Hne Hd Hw.
  destruct shape as [xdim ydim], spacing as [dx dy].
  pose proof (scale_d_nonempty cfsp d Hne) as Hne'.
  pose proof (scale_d_nonzero cfsp d Hd) as Hd'.
  destruct (support_size_ok xdim dx wavelen _ Hne' Hd' Hw) as [zm Hm].
  destruct (support_size_ok ydim dy wavelen _ Hne' Hd' Hw) as [zn Hn].
  unfold kernel, support, half_widths. rewrite Hm, Hn. simpl. eauto.
Qed.

End NoValidation.

(** C7, as the code has it: [trans_func] validates nothing.  Whatever the
    shape and the spacing, zero or negative included, and for every
    wavelength other than zero, positive or negative, it returns a kernel
    as soon as the list of distances is non-empty and free of zeros. *)
Theorem trans_func_validates_nothing (shape : Z * Z) (spacing : Q * Q)
    (wavelen : Q) (d : list Q) (cfsp : Z) (squeeze : bool) (gf : Q) :
  d <> [] -> Forall (fun dk => ~ (dk == 0)%Q) d -> ~ (wavelen == 0)%Q ->
  exists a, trans_func shape spacing wavelen d cfsp squeeze gf = Ok a.
Proof.
  intros Hne Hd Hw.
  destruct (kernel_ok shape spacing wavelen d cfsp gf Hne Hd Hw) as [g Hg].
  unfold trans_func. rewrite Hg. simpl. eauto.
Qed.

Lemma trans_func_validates_nothing_witness :
  invalid_parameter (0, -3) (-1, 0)%Q (-1) /\
  exists a, trans_func (0, -3) (-1, 0)%Q (-1) [1%Q] 0 false 0 = Ok a.
Proof.
  split.
  - left. discriminate.
  - apply (trans_func_validates_nothing (0, -3) (-1, 0)%Q (-1) [1%Q] 0 false 0).
    + discriminate.
    + constructor; [discriminate | constructor].
    + discriminate.
Defined.

(** C7 as stated fails: a negative wavelength is not rejected, the call
    returns an (empty) array. *)
Lemma negative_wavelength_not_rejected :
  ~ rejects_invalid (4, 4) (1, 1)%Q (-1) [1%Q] 0 false 0.
Proof.
  intros H. destruct H as [e He].
  - left. discriminate.
  - destruct (kernel_shape 4 4 1 1 (-1) [1%Q] 0 0 (-14 # 2) (-14 # 2) eq_refl)
      as [g [Hg _]].
    unfold trans_func in He. rewrite Hg in He. discriminate.
Qed.

(** ** Squeezing commutes with cellwise maps *)

Section SqueezeMap.

Context {X Y : Type} (f : X -> Y) (dx : X) (dy : Y) (Hd : f dx = dy).

Lemma the_map (l : list X) : the dy (map f l) = f (the dx l).
Proof. destruct l; simpl; [symmetry; exact Hd | reflexivity]. Qed.

Lemma the_map_nil {U V : Type} (h : U -> V) (l : list (list U)) :
  the [] (map (map h) l) = map h (the [] l).
Proof. destruct l; reflexivity. Qed.

Lemma shape0_map3 (a : arr3 X) : shape0 (map3 f a) = shape0 a.
Proof. apply length_map. Qed.

Lemma shape1_map3 (a : arr3 X) : shape1 (map3 f a) = shape1 a.
Proof. destruct a; simpl; [reflexivity | apply length_map]. Qed.

Lemma shape2_map3 (a : arr3 X) : shape2 (map3 f a) = shape2 a.
Proof.
  destruct a as [|[|c r] a]; simpl; try reflexivity. apply length_map.
Qed.

Lemma np_squeeze_map3 (a : arr3 X) :
  np_squeeze dy (map3 f a) = nd_map f (np_squeeze dx a).
Proof.
  unfold np_squeeze.
  rewrite shape0_map3, shape1_map3, shape2_map3.
  destruct (Nat.eqb (shape0 a) 1), (Nat.eqb (shape1 a) 1),
    (Nat.eqb (shape2 a) 1); unfold map3; simpl; f_equal.
  - rewrite !the_map_nil, the_map. reflexivity.
  - rewrite !the_map_nil. reflexivity.
  - rewrite the_map_nil, !map_map. apply map_ext. intros c. apply the_map.
  - apply the_map_nil.
  - rewrite !map_map. apply map_ext. intros r.
    rewrite the_map_nil, the_map. reflexivity.
  - rewrite !map_map. apply map_ext. intros r. apply the_map_nil.
  - rewrite !map_map. apply map_ext. intros r.
    rewrite !map_map. apply map_ext. intros c. apply the_map.
Qed.

Lemma cell_map3_f (a : arr3 X) (i j k : nat) :
  cell (map3 f a) i j k = option_map f (cell a i j k).
Proof.
  unfold cell, map3.
  rewrite nth_error_map. destruct (nth_error a i) as [r|]; simpl; [|reflexivity].
  rewrite nth_error_map. destruct (nth_error r j) as [c|]; simpl; [|reflexivity].
  apply nth_error_map.
Qed.

End SqueezeMap.

(** ** Cascaded propagation *)

Section Cascade.

Lemma g_cell_cascade (wavelen : Q) (cfsp : Z) (gf : Q) (root : CQ) (d : Q) :
  (0 < cfsp)%Z ->
  g_cell wavelen cfsp gf root d
  = Cpow (g_cell wavelen 0 gf root d) (Z.to_nat cfsp).
Proof.
  intros H. unfold g_cell.
  apply Z.ltb_lt in H. rewrite H. reflexivity.
Qed.

Lemma kernel_cascade (shape : Z * Z) (spacing : Q * Q) (wavelen : Q)
    (d : list Q) (cfsp : Z) (gf : Q) :
  (0 < cfsp)%Z ->
  kernel shape spacing wavelen d cfsp gf
  = rbind (kernel shape spacing wavelen
             (map (fun dk => dk / inject_Z cfsp)%Q d) 0 gf)
          (fun g => Ok (map3 (fun z => Cpow z (Z.to_nat cfsp)) g)).
Proof.
  intros H. destruct shape as [xdim ydim], spacing as [dx dy].
  unfold kernel, support.
  assert (Es : scale_d cfsp d = map (fun dk => dk / inject_Z cfsp)%Q d).
  { unfold scale_d. apply Z.ltb_lt in H. rewrite H.
    apply Z.ltb_lt in H. rewrite Z.abs_eq by lia. reflexivity. }
  rewrite Es. unfold scale_d. rewrite Z.ltb_irrefl.
  set (d' := map (fun dk => dk / inject_Z cfsp)%Q d).
  destruct (half_widths xdim ydim dx dy wavelen d') as [[a b]|e];
    simpl; [|reflexivity].
  f_equal. unfold map3. rewrite map_map. apply map_ext. intros mi.
  rewrite map_map. apply map_ext. intros nj.
  rewrite map_map. apply map_ext. intros dk.
  apply g_cell_cascade, H.
Qed.

End Cascade.

(** C3, as the code has it: for a cascade factor [C > 0] the returned array
    is the kernel computed (without cascade) at the distances [d / C],
    raised cell by cell to the power [C]. *)
Theorem cascade_is_power_of_kernel_at_d_over_C (shape : Z * Z)
    (spacing : Q * Q) (wavelen : Q) (d : list Q) (cfsp : Z)
    (squeeze : bool) (gf : Q) :
  (0 < cfsp)%Z ->
  trans_func shape spacing wavelen d cfsp squeeze gf
  = result_pow cfsp
      (trans_func shape spacing wavelen
         (map (fun dk => dk / inject_Z cfsp)%Q d) 0 squeeze gf).
Proof.
  intros H. unfold trans_func, result_pow.
  rewrite (kernel_cascade shape spacing wavelen d cfsp gf H).
  destruct (kernel shape spacing wavelen
              (map (fun dk => (dk / inject_Z cfsp)%Q) d) 0 gf) as [g|e];
    simpl; [|reflexivity].
  f_equal. destruct squeeze; [|reflexivity].
  apply np_squeeze_map3.
  apply Cpow_C0. lia.
Qed.

Lemma cascade_is_power_of_kernel_at_d_over_C_witness :
  trans_func (2, 2) (1, 1)%Q 2 [1%Q] 2 false 0
  = result_pow 2
      (trans_func (2, 2) (1, 1)%Q 2
         (map (fun dk => dk / inject_Z 2)%Q [1%Q]) 0 false 0).
Proof.
  apply (cascade_is_power_of_kernel_at_d_over_C
           (2, 2) (1, 1)%Q 2 [1%Q] 2 false 0).
  lia.
Defined.

(** ** Values of the phase factor *)

Section PhaseValues.

Local Open Scope R_scope.

Lemma Csqrt_real (rho : R) : 0 <= rho -> Csqrt (mkC rho 0) = mkC (sqrt rho) 0.
Proof.
  intros H. unfold Csqrt, Cmod. simpl.
  replace (rho * rho + 0 * 0) with (rho * rho) by lra.
  rewrite sqrt_square by exact H.
  replace ((rho + rho) / 2) with rho by lra.
  replace ((rho - rho) / 2) with 0 by lra.
  rewrite sqrt_0. destruct (Rlt_dec 0 0); apply C_eq; lra.
Qed.

Lemma Cexp_imag (y : R) : Cexp (mkC 0 (- y)) = mkC (cos y) (- sin y).
Proof.
  unfold Cexp. simpl. rewrite exp_0, cos_neg, sin_neg. apply C_eq; lra.
Qed.

(** On a real, non-negative [root] the phase factor is
    [cos angle - i sin angle]. *)
Lemma phase_real_root (wavelen d : Q) (root : CQ) :
  Q2R (qIm root) = 0 -> 0 <= Q2R (qRe root) ->
  phase wavelen d root
  = mkC (cos (angle wavelen d root)) (- sin (angle wavelen d root)).
Proof.
  intros Him Hre. unfold phase, C_of_CQ. rewrite Him, Csqrt_real by exact Hre.
  rewrite <- Cexp_imag. f_equal.
  unfold angle, Cmul, Cdiv_r, Cmul_r, Cneg, Ci. simpl.
  apply C_eq; unfold Rdiv; ring.
Qed.

Lemma g_cell_plain (wavelen : Q) (cfsp : Z) (gf : Q) (root : CQ) (d : Q) :
  Qeq_bool gf 0 = true -> CQ_ge0 root = true ->
  g_cell wavelen cfsp gf root d
  = if (0 <? cfsp)%Z then Cpow (phase wavelen d root) (Z.to_nat cfsp)
    else phase wavelen d root.
Proof. intros Hg Hr. unfold g_cell. rewrite Hg, Hr. reflexivity. Qed.

Lemma Q2R_one : Q2R 1 = 1.
Proof. unfold Q2R; simpl; lra. Qed.

End PhaseValues.

(** C3 as stated fails: on a 2x2 image with unit spacing, wavelength 2 and
    distance 1, the kernel with cascade factor 2 holds
    [exp(-i pi/2)^2 = -1] at the zero frequency, while the kernel without
    cascade holds [exp(-i pi) = -1] there, whose square is 1. *)
Lemma cascade_is_not_power_at_d :
  ~ cascade_is_power_at_d (2, 2) (1, 1)%Q 2 1 2 false.
Proof.
  unfold cascade_is_power_at_d, trans_func, result_pow.
  set (r := mask_root (root_cell 2 2 1 1 2 (0 # 2) (0 # 2))).
  destruct (kernel_cell 2 2 1 1 2 [1%Q] 2 0 (2 # 2) (2 # 2) 1 1 0
              (0 # 2) (0 # 2) (1 # 2)) as [gl [Hl Cl]]; try reflexivity.
  destruct (kernel_cell 2 2 1 1 2 [1%Q] 0 0 (2 # 2) (2 # 2) 1 1 0
              (0 # 2) (0 # 2) 1) as [gr [Hr Cr]]; try reflexivity.
  fold r in Cl, Cr.
  rewrite Hl, Hr. simpl. intros H. injection H as H.
  assert (Him : Q2R (qIm r) = 0%R) by (apply Q2R_zero).
  assert (Hre : Q2R (qRe r) = 1%R).
  { rewrite <- Q2R_one. apply Qeq_eqR. reflexivity. }
  assert (Hge : CQ_ge0 r = true) by reflexivity.
  rewrite g_cell_plain in Cl, Cr by (reflexivity || exact Hge).
  simpl in Cl, Cr.
  rewrite phase_real_root in Cl, Cr by (rewrite ?Him, ?Hre; lra).
  unfold angle in Cl, Cr. rewrite Hre, sqrt_1 in Cl, Cr.
  replace (2 * PI * Q2R (1 # 2) / Q2R 2 * 1)%R with (PI / 2)%R in Cl
    by (unfold Q2R; simpl; field).
  replace (2 * PI * Q2R 1 / Q2R 2 * 1)%R with PI in Cr
    by (unfold Q2R; simpl; field).
  rewrite cos_PI2, sin_PI2 in Cl. rewrite cos_PI, sin_PI in Cr.
  rewrite H, cell_map3_f, Cr in Cl. simpl in Cl.
  injection Cl as Hx _. lra.
Qed.

(** ** The gradient filter *)

Section Gradient.

Lemma sub1_map {X : Type} (F G : X -> C) (l : list X) :
  sub1 (map F l) (map G l) = Some (map (fun x => Csub (F x) (G x)) l).
Proof.
  induction l as [|x l IH]; simpl; [reflexivity|]. rewrite IH. reflexivity.
Qed.

Lemma sub2_map {X : Type} (F G H : X -> list C) (l : list X) :
  (forall x, sub1 (F x) (G x) = Some (H x)) ->
  sub2 (map F l) (map G l) = Some (map H l).
Proof.
  intros E. induction l as [|x l IH]; simpl; [reflexivity|].
  rewrite E, IH. reflexivity.
Qed.

Lemma sub3_map {X : Type} (F G H : X -> arr2 C) (l : list X) :
  (forall x, sub2 (F x) (G x) = Some (H x)) ->
  sub3 (map F l) (map G l) = Some (map H l).
Proof.
  intros E. induction l as [|x l IH]; simpl; [reflexivity|].
  rewrite E, IH. reflexivity.
Qed.

Lemma sub1_length (a b c : list C) : sub1 a b = Some c -> length a = length b.
Proof.
  revert b c. induction a as [|x a IH]; intros [|y b] c; simpl;
    try discriminate; [reflexivity|].
  destruct (sub1 a b) as [t|] eqn:E; [|discriminate].
  intros _. f_equal. eapply IH, E.
Qed.

Lemma sub3_length (a b c : arr3 C) : sub3 a b = Some c -> length a = length b.
Proof.
  revert b c. induction a as [|x a IH]; intros [|y b] c; simpl;
    try discriminate; [reflexivity|].
  destruct (sub2 x y); [|discriminate].
  destruct (sub3 a b) as [t|] eqn:E; [|discriminate].
  intros _. f_equal. eapply IH, E.
Qed.

Lemma scale_d_0 (d : list Q) : scale_d 0 d = d.
Proof. unfold scale_d. rewrite Z.ltb_irrefl. reflexivity. Qed.

(** Without cascade, on the masked [root]: the cell of the gradient kernel
    is the difference of the two phase factors. *)
Lemma g_cell_gradient (wavelen gf : Q) (r : CQ) (d : Q) :
  Qeq_bool gf 0 = false ->
  g_cell wavelen 0 gf (mask_root r) d
  = Csub (g_cell wavelen 0 0 (mask_root r) d)
         (g_cell wavelen 0 0 (mask_root r) (d + gf)).
Proof.
  intros Hg. unfold g_cell.
  rewrite Hg, mask_root_ge0, Z.ltb_irrefl. reflexivity.
Qed.

End Gradient.

(** C4, as the code has it: when the kernel at [d + g] has the support of
    the kernel at [d] (the same clamped half-widths), the array built with
    gradient filter [g <> 0] is, cell by cell, the kernel at [d] minus the
    kernel at [d + g]. *)
Theorem gradient_is_difference_on_common_support (xdim ydim : Z)
    (dx dy wavelen : Q) (d : list Q) (gf : Q) (mm nn : Q) :
  Qeq_bool gf 0 = false ->
  support (xdim, ydim) (dx, dy) wavelen d 0 = Ok (mm, nn) ->
  support (xdim, ydim) (dx, dy) wavelen (map (fun dk => dk + gf)%Q d) 0
  = Ok (mm, nn) ->
  gradient_is_difference (xdim, ydim) (dx, dy) wavelen d gf.
Proof.
  intros Hg Hs Hs'. unfold gradient_is_difference, kernel.
  rewrite Hs, Hs'. simpl. rewrite !scale_d_0.
  do 3 eexists. repeat split.
  apply sub3_map. intros mi. apply sub2_map. intros nj.
  rewrite map_map.
  rewrite (sub1_map
    (g_cell wavelen 0 0 (mask_root (root_cell xdim ydim dx dy wavelen mi nj)))
    (fun dk => g_cell wavelen 0 0
       (mask_root (root_cell xdim ydim dx dy wavelen mi nj)) (dk + gf)%Q)).
  f_equal. apply map_ext. intros dk. symmetry.
  apply g_cell_gradient, Hg.
Qed.

Lemma gradient_is_difference_on_common_support_witness :
  gradient_is_difference (4, 4) (1, 1)%Q 1 [1%Q] 1.
Proof.
  apply (gradient_is_difference_on_common_support
           4 4 1 1 1 [1%Q] 1 (4 # 2) (4 # 2)); reflexivity.
Defined.

(** C4 as stated fails: for a 4x4 image with unit spacing and wavelength,
    distance 1 and gradient offset 99, the gradient kernel is 4x4 but the
    kernel at distance 100 is 2x2, so the two arrays have no elementwise
    difference. *)
Lemma gradient_is_not_difference :
  ~ gradient_is_difference (4, 4) (1, 1)%Q 1 [1%Q] 99.
Proof.
  intros [k [kd [kg [_ [Hd [Hg Hsub]]]]]].
  destruct (kernel_shape 4 4 1 1 1 [1%Q] 0 0 (4 # 2) (4 # 2) eq_refl)
    as [kd' [Hd' [Sd _]]].
  destruct (kernel_shape 4 4 1 1 1 (map (fun dk => dk + 99)%Q [1%Q]) 0 0
              (2 # 2) (2 # 2) eq_refl) as [kg' [Hg' [Sg _]]].
  rewrite Hd in Hd'. injection Hd' as <-.
  rewrite Hg in Hg'. injection Hg' as <-.
  apply sub3_length in Hsub. unfold shape0 in Sd, Sg.
  rewrite Sd, Sg in Hsub. vm_compute in Hsub. discriminate.
Qed.

(** ** apply_trans_func *)

Section InPlace.

Context {A : Type} (zero : A) (mul : A -> A -> A).

Lemma content_insert (h : gmap positive (arr3 A)) (r : ref) (a : arr3 A) :
  content (<[r := a]> h) r = a.
Proof. unfold content. apply lookup_total_insert_eq. Qed.

End InPlace.

(** What a call does to the store: it fails before anything is written, or
    it rebinds the first reference to the filtered spectrum. *)
Lemma apply_trans_func_run {A : Type} (zero : A) (mul : A -> A -> A)
    (ft G : ref) (h : gmap positive (arr3 A)) :
  apply_trans_func zero mul ft G h
  = match filtered zero mul (content h ft) (content h G) with
    | Ok a => Ok (ft, <[ft := a]> h)
    | Raise e => Raise e
    end.
Proof.
  unfold apply_trans_func, filtered, shape_of, st_imul_window, st_zero_rows,
    st_zero_cols, mbind, mret, mlift, deref, assign.
  simpl.
  destruct (imul_window mul (content h ft) _ _ _ _ (content h G) _ _)
    as [a|e]; simpl; [|reflexivity].
  rewrite !content_insert, !insert_insert_eq. reflexivity.
Qed.

(** C2, evaluated on the code: a 4x8 spectrum of ones and a 2x4 kernel of
    ones, one distance.  The support window is rows 1..2, columns 2..5;
    cell [(3, 7)] lies outside it and still holds 1 after the call, because
    the rows are zeroed with the column bounds and the columns with the row
    bounds. *)
Theorem apply_trans_func_outside_support_not_zeroed :
  in_support 4 8 2 4 3 7 = false /\
  exists h',
    apply_trans_func 0%Z Z.mul 1%positive 2%positive
      (two_arrays (ones 4 8 1) (ones 2 4 1)) = Ok (1%positive, h') /\
    shape3 (content h' 1%positive) = (4, 8, 1)%nat /\
    cell (content h' 1%positive) 3 7 0 = Some 1%Z.
Proof.
  split; [reflexivity|].
  eexists. split; [vm_compute; reflexivity|].
  split; reflexivity.
Qed.

(** ** A kernel of ones that covers the spectrum *)

Section FullKernel.

Local Open Scope Q_scope.

Lemma py_int_Z (q : Q) (z : Z) : q == inject_Z z -> py_int q = z.
Proof.
  intros E. unfold py_int.
  rewrite (Qfloor_comp _ _ E), (Qceiling_comp _ _ E), Qfloor_Z, Qceiling_Z.
  destruct (Qle_bool 0 q); reflexivity.
Qed.

Lemma slice_bound_nat (len : nat) (q : Q) (k : nat) :
  q == inject_Z (Z.of_nat k) -> slice_bound len q = Nat.min k len.
Proof.
  intros E. unfold slice_bound. rewrite (py_int_Z q _ E).
  destruct (Z.of_nat k <? 0)%Z eqn:L; [apply Z.ltb_lt in L; lia|]. lia.
Qed.

Lemma get_slice_empty {X : Type} (i : nat) (l : list X) : get_slice i i l = [].
Proof. unfold get_slice. rewrite Nat.sub_diag. reflexivity. Qed.

Lemma set_slice_empty {X : Type} (i : nat) (l : list X) :
  set_slice i i [] l = l.
Proof.
  unfold set_slice. rewrite Nat.sub_diag, Nat.add_0_r. simpl.
  apply firstn_skipn.
Qed.

Lemma get_slice_all {X : Type} (l : list X) : get_slice 0 (length l) l = l.
Proof. unfold get_slice. rewrite Nat.sub_0_r. simpl. apply firstn_all. Qed.

Lemma set_slice_all {X : Type} (new l : list X) :
  set_slice 0 (length l) new l = new.
Proof.
  unfold set_slice. rewrite Nat.sub_0_r. simpl.
  rewrite skipn_all. apply app_nil_r.
Qed.

End FullKernel.

Section FilterIdentity.

Context {A : Type} (zero one : A) (mul : A -> A -> A).
Hypothesis mul_one : forall x, mul x one = x.

Local Open Scope Q_scope.

Lemma zip_with_r_id {X Y : Type} (f : X -> Y -> result X)
    (xs : list X) (ys : list Y) :
  Forall2 (fun x y => f x y = Ok x) xs ys -> zip_with_r f xs ys = Ok xs.
Proof.
  induction 1 as [|x y xs ys Hxy _ IH]; simpl; [reflexivity|].
  rewrite Hxy. simpl. rewrite IH. reflexivity.
Qed.

Lemma bcast_id {X Y : Type} (f : X -> Y -> result X)
    (xs : list X) (ys : list Y) :
  Forall2 (fun x y => f x y = Ok x) xs ys -> bcast f xs ys = Ok xs.
Proof.
  intros H. unfold bcast.
  assert (L : length ys = length xs).
  { clear -H. induction H; simpl; congruence. }
  rewrite L, Nat.eqb_refl. apply zip_with_r_id, H.
Qed.

Lemma Forall2_from {X Y : Type} (R : X -> Y -> Prop) (P : X -> Prop)
    (Q : Y -> Prop) (xs : list X) (ys : list Y) :
  length xs = length ys -> Forall P xs -> Forall Q ys ->
  (forall x y, P x -> Q y -> R x y) -> Forall2 R xs ys.
Proof.
  intros Hl HP HQ HR. revert ys Hl HQ.
  induction HP as [|x xs Hx _ IH]; intros [|y ys] Hl HQ;
    simpl in Hl; try discriminate; constructor.
  - inversion HQ; subst. apply HR; assumption.
  - inversion HQ; subst. apply IH; [lia | assumption].
Qed.

Lemma Forall_conj {X : Type} (P Q : X -> Prop) (l : list X) :
  Forall P l -> Forall Q l -> Forall (fun x => P x /\ Q x) l.
Proof.
  induction 1 as [|x l Hx _ IH]; intros HQ; constructor;
    inversion HQ; subst; auto.
Qed.

Lemma map_id_Forall {X : Type} (f : X -> X) (l : list X) :
  Forall (fun x => f x = x) l -> map f l = l.
Proof. induction 1 as [|x l Hx _ IH]; simpl; [reflexivity|]. rewrite Hx, IH. reflexivity. Qed.

Lemma map_combine_diag {X Y : Type} (h : X -> X -> Y) (l : list X) :
  map (fun p => h (fst p) (snd p)) (combine l l) = map (fun x => h x x) l.
Proof. induction l as [|x l IH]; simpl; [reflexivity|]. rewrite IH. reflexivity. Qed.

Lemma get_slice_len {X : Type} (k : nat) (l : list X) :
  length l = k -> get_slice 0 k l = l.
Proof. intros <-. apply get_slice_all. Qed.

Lemma set_slice_len {X : Type} (k : nat) (new l : list X) :
  length l = k -> set_slice 0 k new l = new.
Proof. intros <-. apply set_slice_all. Qed.

(** Multiplying by an array of ones of the same shape changes nothing. *)
Lemma imul_view_ones (ft G : arr3 A) (m n d : nat) :
  rect3 m n d ft -> rect3 m n d G ->
  Forall (Forall (Forall (eq one))) G ->
  imul_view mul ft G = Ok ft.
Proof.
  intros [Lf Rf] [Lg Rg] Hg. unfold imul_view.
  apply bcast_id.
  apply (Forall2_from _ (rect2 n d)
           (fun gr => rect2 n d gr /\ Forall (Forall (eq one)) gr));
    [exact (eq_trans Lf (eq_sym Lg)) | exact Rf | apply Forall_conj; assumption |].
  intros r gr [Lr Rr] [[Lgr Rgr] Hgr].
  apply bcast_id.
  apply (Forall2_from _ (fun c => length c = d)
           (fun gc => length gc = d /\ Forall (eq one) gc));
    [exact (eq_trans Lr (eq_sym Lgr)) | exact Rr | apply Forall_conj; assumption |].
  intros c gc Lc [Lgc Hgc].
  apply bcast_id.
  apply (Forall2_from _ (fun _ => True) (eq one));
    [exact (eq_trans Lc (eq_sym Lgc)) | apply Forall_forall; trivial | exact Hgc |].
  intros x y _ <-. rewrite mul_one. reflexivity.
Qed.

Lemma rect3_shape1 (a : arr3 A) (m n d : nat) :
  (1 <= m)%nat -> rect3 m n d a -> shape1 a = n.
Proof.
  intros Hm [L R]. destruct a as [|r a]; simpl in *; [lia|].
  inversion R as [|? ? Hr _]; subst. apply Hr.
Qed.

Lemma zero_rows_same (a : arr3 A) (q1 q2 : Q) (k : nat) :
  q1 == inject_Z (Z.of_nat k) -> q2 == inject_Z (Z.of_nat k) ->
  zero_rows zero a q1 q2 = a.
Proof.
  intros E1 E2. unfold zero_rows.
  rewrite (slice_bound_nat _ q1 k E1), (slice_bound_nat _ q2 k E2).
  rewrite get_slice_empty. simpl. apply set_slice_empty.
Qed.

Lemma zero_cols_same (a : arr3 A) (q1 q2 : Q) (k : nat) :
  q1 == inject_Z (Z.of_nat k) -> q2 == inject_Z (Z.of_nat k) ->
  zero_cols zero a q1 q2 = a.
Proof.
  intros E1 E2. unfold zero_cols.
  rewrite (slice_bound_nat _ q1 k E1), (slice_bound_nat _ q2 k E2).
  apply map_id_Forall, Forall_forall. intros row _.
  rewrite get_slice_empty. simpl. apply set_slice_empty.
Qed.

(** A kernel of ones with the shape of the spectrum leaves the spectrum as
    it is: the window is the whole array and the four border slices are
    empty. *)
Lemma filtered_ones (ft G : arr3 A) (m n d : nat) :
  (1 <= m)%nat -> rect3 m n d ft -> rect3 m n d G ->
  Forall (Forall (Forall (eq one))) G ->
  filtered zero mul ft G = Ok ft.
Proof.
  intros Hm Hf Hg Hone. unfold filtered.
  pose proof (rect3_shape1 ft m n d Hm Hf) as Sf1.
  pose proof (rect3_shape1 G m n d Hm Hg) as Sg1.
  assert (Sf0 : shape0 ft = m) by apply Hf.
  assert (Sg0 : shape0 G = m) by apply Hg.
  rewrite Sf0, Sf1, Sg0, Sg1.
  set (qm := inject_Z (Z.of_nat m)). set (qn := inject_Z (Z.of_nat n)).
  assert (Em0 : qm / 2 - qm / 2 == inject_Z (Z.of_nat 0)) by (simpl; field).
  assert (Em1 : qm / 2 + qm / 2 == inject_Z (Z.of_nat m)) by (fold qm; field).
  assert (Em2 : qm / 2 * 2 == inject_Z (Z.of_nat m)) by (fold qm; field).
  assert (En0 : qn / 2 - qn / 2 == inject_Z (Z.of_nat 0)) by (simpl; field).
  assert (En1 : qn / 2 + qn / 2 == inject_Z (Z.of_nat n)) by (fold qn; field).
  assert (En2 : qn / 2 * 2 == inject_Z (Z.of_nat n)) by (fold qn; field).
  assert (Hw : imul_window mul ft (qm / 2 - qm / 2) (qm / 2 + qm / 2)
                 (qn / 2 - qn / 2) (qn / 2 + qn / 2) G (qm / 2 * 2)
                 (qn / 2 * 2) = Ok ft).
  { unfold imul_window. rewrite Sf0, Sf1, Sg0, Sg1.
    rewrite (slice_bound_nat m _ 0 Em0), (slice_bound_nat m _ m Em1),
      (slice_bound_nat n _ 0 En0), (slice_bound_nat n _ n En1),
      (slice_bound_nat m _ m Em2), (slice_bound_nat n _ n En2).
    rewrite !Nat.min_id. simpl Nat.min.
    rewrite (get_slice_len m ft Sf0), (get_slice_len m G Sg0).
    assert (Rf : map (get_slice 0 n) ft = ft).
    { apply map_id_Forall. destruct Hf as [_ Hf].
      eapply Forall_impl; [exact Hf|]. intros r [Lr _].
      apply get_slice_len, Lr. }
    assert (Rg : map (get_slice 0 n) G = G).
    { apply map_id_Forall. destruct Hg as [_ Hg].
      eapply Forall_impl; [exact Hg|]. intros r [Lr _].
      apply get_slice_len, Lr. }
    rewrite Rf, Rg, (imul_view_ones ft G m n d Hf Hg Hone). simpl.
    f_equal. rewrite (set_slice_len m _ ft Sf0).
    rewrite (map_combine_diag (set_slice 0 n)).
    apply map_id_Forall. destruct Hf as [_ Hf].
    eapply Forall_impl; [exact Hf|]. intros r [Lr _].
    apply set_slice_len, Lr. }
  rewrite Hw. simpl. f_equal.
  rewrite (zero_rows_same ft 0 _ 0) by (reflexivity || exact En0).
  rewrite (zero_rows_same ft _ _ n) by (exact En1 || reflexivity).
  rewrite (zero_cols_same ft 0 _ 0) by (reflexivity || exact Em0).
  apply (zero_cols_same ft _ _ m); [exact Em1 | reflexivity].
Qed.

End FilterIdentity.

(** ** Propagation over distance zero *)

Section ZeroDistance.

Local Open Scope Q_scope.

Lemma Cmul_C0_l (z : C) : Cmul C0 z = C0.
Proof. unfold Cmul, C0; simpl; apply C_eq; lra. Qed.

(** At distance zero the phase factor is [exp(0) = 1] at every cell. *)
Lemma phase_d0 (wavelen : Q) (root : CQ) : phase wavelen 0 root = C1.
Proof.
  unfold phase.
  replace (Cdiv_r (Cmul_r (Cmul_r (Cmul_r (Cneg Ci) 2) PI) (Q2R 0))
                  (Q2R wavelen)) with C0.
  - rewrite Cmul_C0_l. apply Cexp_C0.
  - unfold Cdiv_r, Cmul_r, Cneg, Ci, C0. simpl. rewrite Q2R_zero.
    apply C_eq; unfold Rdiv; ring.
Qed.

Lemma g_cell_d0 (wavelen : Q) (r : CQ) :
  g_cell wavelen 0 0 (mask_root r) 0 = C1.
Proof.
  unfold g_cell. rewrite mask_root_ge0, Z.ltb_irrefl. simpl.
  apply phase_d0.
Qed.

Lemma Qpos_bool_true (q : Q) : 0 < q -> Qpos_bool q = true.
Proof.
  intros H. unfold Qpos_bool. destruct (Qle_bool q 0) eqn:E; [|reflexivity].
  apply Qle_bool_iff in E. exfalso. exact (Qlt_not_le _ _ H E).
Qed.

(** Distance zero: the division by [|d| = 0] gives an infinity and [int]
    raises [OverflowError]. *)
Lemma support_size_overflow (dim : Z) (dx wavelen : Q) :
  (0 < dim)%Z -> 0 < dx ->
  support_size dim dx wavelen [0] = Raise OverflowError.
Proof.
  intros Hd Hx. unfold support_size. simpl map.
  assert (Hn : 0 < inject_Z (dim ^ 2) * dx ^ 2).
  { apply Qmult_lt_0_compat.
    - replace 0 with (inject_Z 0) by reflexivity. rewrite <- Zlt_Qlt. nia.
    - simpl. apply Qmult_lt_0_compat; exact Hx. }
  change (dx ^ 2) with (dx * dx) in Hn.
  rewrite (Qpos_bool_true _ Hn).
  destruct (Qneg_bool wavelen) eqn:E; simpl; rewrite ?E; reflexivity.
Qed.

Lemma kernel_zero_distance (m n : nat) (dx dy wavelen : Q) :
  (1 <= m)%nat -> (1 <= n)%nat -> 0 < dx ->
  exists G, kernel (Z.of_nat m, Z.of_nat n) (dx, dy) wavelen [0] 0 0 = Ok G /\
    rect3 m n 1 G /\ Forall (Forall (Forall (eq C1))) G.
Proof.
  intros Hm Hn Hx. unfold kernel, support, half_widths.
  rewrite scale_d_0, support_size_overflow by (lia || exact Hx). simpl.
  eexists. split; [reflexivity|].
  assert (Lm : forall k : nat,
             length (np_ogrid (- clamp (Z.of_nat k) (inject_Z (Z.of_nat k) / 2))
                       (clamp (Z.of_nat k) (inject_Z (Z.of_nat k) / 2))) = k).
  { intros k. rewrite length_np_ogrid, clamp_width_half. apply Nat2Z.id. }
  split; [split|].
  - rewrite length_map. apply Lm.
  - apply Forall_map, Forall_forall. intros mi _. split.
    + rewrite length_map. apply Lm.
    + apply Forall_map, Forall_forall. intros nj _. reflexivity.
  - apply Forall_map, Forall_forall. intros mi _.
    apply Forall_map, Forall_forall. intros nj _.
    constructor; [|constructor]. symmetry. apply g_cell_d0.
Qed.

Lemma rect3_shape2 {A : Type} (a : arr3 A) (m n d : nat) :
  (1 <= m)%nat -> (1 <= n)%nat -> rect3 m n d a -> shape2 a = d.
Proof.
  intros Hm Hn [L R]. destruct a as [|r a]; simpl in *; [lia|].
  inversion R as [|? ? Hr _]; subst. destruct Hr as [Lr Rr].
  destruct r as [|c r]; simpl in *; [lia|].
  inversion Rr; subst. reflexivity.
Qed.

Lemma rect3_repeat {A : Type} (a : arr2 A) (m n d : nat) :
  rect2 m n a -> rect3 m n d (np_repeat_axis2 a d).
Proof.
  intros [L R]. unfold np_repeat_axis2. split.
  - rewrite length_map. exact L.
  - apply Forall_map. eapply Forall_impl; [exact R|]. intros r Lr. split.
    + rewrite length_map. exact Lr.
    + apply Forall_map, Forall_forall. intros x _. apply repeat_length.
Qed.

Lemma squeeze_single_slice (a : arr2 C) (m n : nat) :
  rect2 m n a -> (2 <= m)%nat -> (2 <= n)%nat ->
  np_squeeze C0 (np_repeat_axis2 a 1) = Nd2 a.
Proof.
  intros Ha Hm Hn.
  pose proof (rect3_repeat a m n 1 Ha) as H3.
  unfold np_squeeze.
  assert (S0 : shape0 (np_repeat_axis2 a 1) = m) by apply H3.
  rewrite S0, (rect3_shape1 _ m n 1) by (lia || exact H3).
  rewrite (rect3_shape2 _ m n 1) by (lia || exact H3).
  destruct (Nat.eqb_spec m 1); [lia|]. destruct (Nat.eqb_spec n 1); [lia|].
  simpl. f_equal. unfold np_repeat_axis2.
  rewrite map_map. apply map_id_Forall, Forall_forall. intros r _.
  rewrite map_map. apply map_id_Forall, Forall_forall. intros x _.
  reflexivity.
Qed.

Lemma content_fresh_store (ft G : arr3 C) :
  content (fresh_store ft G) ref_ft = ft /\
  content (fresh_store ft G) ref_G = G.
Proof.
  unfold content, fresh_store. split.
  - rewrite lookup_total_insert_ne by discriminate.
    apply lookup_total_insert_eq.
  - apply lookup_total_insert_eq.
Qed.

(** The transforms: [fft] keeps the shape of the image, and [ifft] inverts
    [fft] on a stack of one spectrum. *)
Variable fft : arr2 C -> arr2 C.
Variable ifft : arr3 C -> arr3 C.
Hypothesis fft_shape : forall m n a, rect2 m n a -> rect2 m n (fft a).
Hypothesis ifft_fft :
  forall a, ifft (np_repeat_axis2 (fft a) 1) = np_repeat_axis2 a 1.

(** C5: propagating a field by distance zero returns the field.  The
    support computation overflows, the fallback makes the kernel as large
    as the image, the kernel holds 1 everywhere, and the inverse transform
    undoes the forward one.  This holds for every field with at least two
    samples along each axis, so for every even non-zero shape. *)
Theorem propagate_zero_distance (data : Image) (m n : nat) :
  rect2 m n (samples data) -> (2 <= m)%nat -> (2 <= n)%nat ->
  0 < fst (spacing data) -> 0 < snd (spacing data) ->
  0 < med_wavelen (optics data) ->
  propagate fft ifft data [0] 0 = Ok (RImage data).
Proof.
  intros Hrect Hm Hn Hdx Hdy Hw.
  destruct data as [a [dx dy] op]. simpl in *.
  assert (S0 : shape0 a = m) by apply Hrect.
  assert (S1 : shape1 a = n).
  { destruct Hrect as [L R]. destruct a as [|r a]; simpl in *; [lia|].
    inversion R; subst. reflexivity. }
  destruct (kernel_zero_distance m n dx dy (med_wavelen op))
    as [G [HG [RG OG]]]; [lia | lia | exact Hdx |].
  unfold propagate. cbn [samples spacing optics].
  rewrite S0, S1, HG. cbn [rbind].
  rewrite (rect3_shape2 G m n 1) by (lia || exact RG).
  rewrite apply_trans_func_run.
  destruct (content_fresh_store (np_repeat_axis2 (fft a) 1) G) as [-> ->].
  rewrite (filtered_ones C0 C1 Cmul Cmul_C1_r _ G m n 1);
    [| lia | apply rect3_repeat, fft_shape, Hrect | exact RG | exact OG].
  cbn [rbind fst snd]. rewrite content_insert, ifft_fft.
  rewrite (squeeze_single_slice a m n Hrect Hm Hn). reflexivity.
Qed.

End ZeroDistance.

Lemma propagate_zero_distance_witness :
  let img := mkImage [[C1; C0]; [C0; C1]] (1, 1)%Q
                     (mkOptics 1 (1, 1)%Q (2 * PI)%R) in
  propagate (fun a => a) (fun a => a) img [0%Q] 0 = Ok (RImage img).
Proof.
  intros img.
  apply (propagate_zero_distance (fun a => a) (fun a => a)
           (fun m n a H => H) (fun a => eq_refl) img 2 2).
  - split; [reflexivity | repeat constructor].
  - lia.
  - lia.
  - reflexivity.
  - reflexivity.
  - reflexivity.
Defined.

(** ** Shapes through apply_trans_func *)

Section FilterShape.

Context {A : Type} (zero : A) (mul : A -> A -> A).

Lemma zip_with_r_pres {X Y : Type} (f : X -> Y -> result X)
    (P : X -> Prop) (Q : Y -> Prop) (xs : list X) (ys : list Y) :
  length xs = length ys -> Forall P xs -> Forall Q ys ->
  (forall x y, P x -> Q y -> exists x', f x y = Ok x' /\ P x') ->
  exists r, zip_with_r f xs ys = Ok r /\ length r = length xs /\ Forall P r.
Proof.
  intros Hl HP HQ Hf. revert ys Hl HQ.
  induction HP as [|x xs Hx _ IH]; intros [|y ys] Hl HQ; simpl in Hl;
    try discriminate.
  - exists []. simpl. auto.
  - inversion HQ as [|? ? Hy HQ']; subst.
    destruct (Hf x y Hx Hy) as [x' [E Px']].
    destruct (IH ys) as [r [Er [Lr Pr]]]; [lia | exact HQ' |].
    exists (x' :: r). simpl. rewrite E. simpl. rewrite Er. simpl.
    repeat split; [lia | constructor; assumption].
Qed.

Lemma bcast_pres {X Y : Type} (f : X -> Y -> result X)
    (P : X -> Prop) (Q : Y -> Prop) (xs : list X) (ys : list Y) :
  length xs = length ys -> Forall P xs -> Forall Q ys ->
  (forall x y, P x -> Q y -> exists x', f x y = Ok x' /\ P x') ->
  exists r, bcast f xs ys = Ok r /\ length r = length xs /\ Forall P r.
Proof.
  intros Hl HP HQ Hf. unfold bcast.
  rewrite <- Hl, Nat.eqb_refl. apply (zip_with_r_pres f P Q); assumption.
Qed.

(** The in-place product of two views of one shape succeeds and keeps the
    shape. *)
Lemma imul_view_pres (lhs rhs : arr3 A) (a b c : nat) :
  rect3 a b c lhs -> rect3 a b c rhs ->
  exists r, imul_view mul lhs rhs = Ok r /\ rect3 a b c r.
Proof.
  intros [Ll Rl] [Lr Rr]. unfold imul_view.
  destruct (bcast_pres (bcast (bcast (fun x y => Ok (mul x y))))
              (rect2 b c) (rect2 b c) lhs rhs) as [r [E [L R]]];
    [exact (eq_trans Ll (eq_sym Lr)) | exact Rl | exact Rr | |].
  - intros x y [Lx Rx] [Ly Ry].
    destruct (bcast_pres (bcast (fun x y => Ok (mul x y)))
                (fun col : list A => length col = c)
                (fun col : list A => length col = c) x y)
      as [r [E [L R]]];
      [exact (eq_trans Lx (eq_sym Ly)) | exact Rx | exact Ry | |].
    + intros u v Lu Lv.
      destruct (bcast_pres (fun x y : A => Ok (mul x y))
                  (fun _ => True) (fun _ => True) u v)
        as [r [E [L _]]];
        [exact (eq_trans Lu (eq_sym Lv)) | apply Forall_forall; trivial
        | apply Forall_forall; trivial | |].
      * intros p q _ _. eexists. split; [reflexivity | exact I].
      * exists r. split; [exact E | exact (eq_trans L Lu)].
    + exists r. split; [exact E|]. split; [exact (eq_trans L Lx) | exact R].
  - exists r. split; [exact E|]. split; [exact (eq_trans L Ll) | exact R].
Qed.

Lemma length_get_slice {X : Type} (i j : nat) (l : list X) :
  (j <= length l)%nat -> length (get_slice i j l) = (j - i)%nat.
Proof.
  intros Hj. unfold get_slice.
  rewrite length_firstn, length_skipn. lia.
Qed.

Lemma Forall_get_slice {X : Type} (P : X -> Prop) (i j : nat) (l : list X) :
  Forall P l -> Forall P (get_slice i j l).
Proof. intros H. unfold get_slice. apply Forall_take, Forall_drop, H. Qed.

Lemma length_set_slice {X : Type} (i j : nat) (new l : list X) :
  (i <= length l)%nat -> (j <= length l)%nat ->
  length new = (j - i)%nat -> length (set_slice i j new l) = length l.
Proof.
  intros Hi Hj Hn. unfold set_slice.
  rewrite !length_app, length_firstn, length_skipn, Hn. lia.
Qed.

Lemma Forall_set_slice {X : Type} (P : X -> Prop) (i j : nat)
    (new l : list X) :
  Forall P new -> Forall P l -> Forall P (set_slice i j new l).
Proof.
  intros Hn Hl. unfold set_slice.
  apply Forall_app. split; [apply Forall_take, Hl|].
  apply Forall_app. split; [exact Hn | apply Forall_drop, Hl].
Qed.

Lemma slice_bound_le (len : nat) (q : Q) : (slice_bound len q <= len)%nat.
Proof. unfold slice_bound. lia. Qed.

Lemma zero_rows_pres (a : arr3 A) (m n d : nat) (q1 q2 : Q) :
  rect3 m n d a -> rect3 m n d (zero_rows zero a q1 q2).
Proof.
  intros [L R]. unfold zero_rows, shape0.
  set (i0 := slice_bound (length a) q1). set (i1 := slice_bound (length a) q2).
  assert (H0 : (i0 <= length a)%nat) by apply slice_bound_le.
  assert (H1 : (i1 <= length a)%nat) by apply slice_bound_le.
  split.
  - rewrite length_set_slice; [exact L | exact H0 | exact H1 |].
    rewrite length_map. apply length_get_slice, H1.
  - apply Forall_set_slice; [|exact R].
    apply Forall_map. eapply Forall_impl;
      [apply Forall_get_slice, R|].
    intros r [Lr Rr]. split.
    + rewrite length_map. exact Lr.
    + apply Forall_map. eapply Forall_impl; [exact Rr|].
      intros c Lc. unfold zeros_like. rewrite length_map. exact Lc.
Qed.

Lemma zero_cols_pres (a : arr3 A) (m n d : nat) (q1 q2 : Q) :
  rect3 m n d a -> rect3 m n d (zero_cols zero a q1 q2).
Proof.
  intros [L R]. unfold zero_cols.
  set (j0 := slice_bound (shape1 a) q1). set (j1 := slice_bound (shape1 a) q2).
  assert (Hs : a = [] \/ shape1 a = n).
  { destruct a as [|r a]; [left; reflexivity|right].
    inversion R as [|? ? Hr _]; subst. apply Hr. }
  split; [rewrite length_map; exact L|].
  destruct Hs as [-> | Hs]; [constructor|].
  assert (H0 : (j0 <= n)%nat) by (rewrite <- Hs; apply slice_bound_le).
  assert (H1 : (j1 <= n)%nat) by (rewrite <- Hs; apply slice_bound_le).
  apply Forall_map. eapply Forall_impl; [exact R|].
  intros r [Lr Rr]. split.
  - rewrite length_set_slice; [exact Lr | lia | lia |].
    rewrite length_map. apply length_get_slice. lia.
  - apply Forall_set_slice; [|exact Rr].
    apply Forall_map. eapply Forall_impl; [apply Forall_get_slice, Rr|].
    intros c Lc. unfold zeros_like. rewrite length_map. exact Lc.
Qed.

Local Open Scope Q_scope.

Lemma py_int_half (q : Q) (a : Z) :
  (0 <= a)%Z -> q == inject_Z a / 2 -> py_int q = (a / 2)%Z.
Proof.
  intros Ha E. unfold py_int.
  assert (H0 : Qle_bool 0 q = true).
  { apply Qle_bool_iff. rewrite E. unfold Qle. simpl. lia. }
  rewrite H0, (Qfloor_comp _ _ E).
  symmetry. apply (Zdiv_Qdiv a 2).
Qed.

(** The centered window [m/2 - K/2 .. m/2 + K/2) of a kernel axis of
    length [K] in a spectrum axis of length [m >= K] has [K] entries and
    lies inside the axis. *)
Lemma window_bounds (m K : nat) :
  (K <= m)%nat ->
  let qm := inject_Z (Z.of_nat m) in
  let qk := inject_Z (Z.of_nat K) in
  (slice_bound m (qm / 2 + qk / 2) <= m)%nat /\
  (slice_bound m (qm / 2 + qk / 2) - slice_bound m (qm / 2 - qk / 2) = K)%nat.
Proof.
  intros HK qm qk.
  assert (Elo : qm / 2 - qk / 2 == inject_Z (Z.of_nat m - Z.of_nat K) / 2).
  { unfold qm, qk. unfold Zminus. rewrite inject_Z_plus, inject_Z_opp. field. }
  assert (Ehi : qm / 2 + qk / 2 == inject_Z (Z.of_nat m + Z.of_nat K) / 2).
  { unfold qm, qk. rewrite inject_Z_plus. field. }
  unfold slice_bound.
  assert (Plo : (0 <= Z.of_nat m - Z.of_nat K)%Z) by lia.
  assert (Phi : (0 <= Z.of_nat m + Z.of_nat K)%Z) by lia.
  rewrite (py_int_half _ _ Plo Elo), (py_int_half _ _ Phi Ehi).
  set (a := ((Z.of_nat m - Z.of_nat K) / 2)%Z).
  assert (Ha : (0 <= a)%Z) by (apply Z.div_pos; lia).
  assert (Ha2 : (2 * a <= Z.of_nat m - Z.of_nat K)%Z)
    by (apply Z.mul_div_le; lia).
  assert (Hhi : ((Z.of_nat m + Z.of_nat K) / 2 = a + Z.of_nat K)%Z).
  { unfold a. rewrite <- Z.div_add by lia. f_equal. lia. }
  rewrite Hhi.
  destruct (a <? 0)%Z eqn:E1; [apply Z.ltb_lt in E1; lia|].
  destruct (a + Z.of_nat K <? 0)%Z eqn:E2; [apply Z.ltb_lt in E2; lia|].
  lia.
Qed.

End FilterShape.

Section FilterTotal.

Context {A : Type} (zero : A) (mul : A -> A -> A).

Local Open Scope Q_scope.

Lemma imul_window_pres (ft G : arr3 A) (m n d kx ky : nat) :
  rect3 m n d ft -> rect3 kx ky d G ->
  (1 <= kx)%nat -> (kx <= m)%nat -> (ky <= n)%nat ->
  let qm := inject_Z (Z.of_nat m) in
  let qn := inject_Z (Z.of_nat n) in
  let mm := inject_Z (Z.of_nat kx) / 2 in
  let nn := inject_Z (Z.of_nat ky) / 2 in
  exists r,
    imul_window mul ft (qm / 2 - mm) (qm / 2 + mm) (qn / 2 - nn) (qn / 2 + nn)
                G (mm * 2) (nn * 2) = Ok r /\ rect3 m n d r.
Proof.
  intros Hf Hg Hk1 Hkm Hkn qm qn mm nn.
  pose proof (rect3_shape1 ft m n d ltac:(lia) Hf) as Sf1.
  pose proof (rect3_shape1 G kx ky d Hk1 Hg) as Sg1.
  destruct Hf as [Lf Rf]. destruct Hg as [Lg Rg].
  assert (Sf0 : shape0 ft = m) by exact Lf.
  assert (Sg0 : shape0 G = kx) by exact Lg.
  unfold imul_window. rewrite Sf0, Sf1, Sg0, Sg1.
  destruct (window_bounds m kx Hkm) as [Bi Di].
  destruct (window_bounds n ky Hkn) as [Bj Dj].
  fold qm in Bi, Di. fold qn in Bj, Dj. fold mm in Bi, Di. fold nn in Bj, Dj.
  set (i0 := slice_bound m (qm / 2 - mm)) in *.
  set (i1 := slice_bound m (qm / 2 + mm)) in *.
  set (j0 := slice_bound n (qn / 2 - nn)) in *.
  set (j1 := slice_bound n (qn / 2 + nn)) in *.
  assert (Ea : slice_bound kx (mm * 2) = kx).
  { rewrite (slice_bound_nat kx _ kx); [apply Nat.min_id | unfold mm; field]. }
  assert (Eb : slice_bound ky (nn * 2) = ky).
  { rewrite (slice_bound_nat ky _ ky); [apply Nat.min_id | unfold nn; field]. }
  rewrite Ea, Eb.
  assert (EG : map (get_slice 0 ky) (get_slice 0 kx G) = G).
  { rewrite (get_slice_len kx G Lg). apply map_id_Forall.
    eapply Forall_impl; [exact Rg|]. intros r [Lr _].
    apply get_slice_len, Lr. }
  rewrite EG.
  assert (Hl : rect3 kx ky d (map (get_slice j0 j1) (get_slice i0 i1 ft))).
  { split.
    - rewrite length_map, length_get_slice by (rewrite Lf; exact Bi).
      exact Di.
    - apply Forall_map. eapply Forall_impl;
        [apply Forall_get_slice, Rf|].
      intros r [Lr Rr]. split.
      + rewrite length_get_slice by (rewrite Lr; exact Bj). exact Dj.
      + apply Forall_get_slice, Rr. }
  destruct (imul_view_pres mul _ G kx ky d Hl (conj Lg Rg))
    as [new [En [Ln Rn]]].
  rewrite En. simpl. eexists. split; [reflexivity|]. split.
  - rewrite length_set_slice; [exact Lf | lia | lia |].
    rewrite length_map, length_combine, Ln,
      length_get_slice by (rewrite Lf; exact Bi).
    lia.
  - apply Forall_set_slice; [|exact Rf].
    apply List.Forall_forall. intros row Hrow.
    apply in_map_iff in Hrow. destruct Hrow as [[u v] [<- Hin]]. simpl.
    pose proof (in_combine_l _ _ _ _ Hin) as Hu.
    pose proof (in_combine_r _ _ _ _ Hin) as Hv.
    assert (Pu : rect2 ky d u) by (eapply (proj1 (List.Forall_forall _ _)); eassumption).
    assert (Pv : rect2 n d v).
    { eapply (proj1 (List.Forall_forall _ _)); [|exact Hv].
      apply Forall_get_slice, Rf. }
    destruct Pu as [Lu Ru]. destruct Pv as [Lv Rv]. split.
    + assert (Bj0 : (j0 <= n)%nat) by apply slice_bound_le.
      rewrite length_set_slice; rewrite ?Lv, ?Lu; [reflexivity | lia | lia | lia].
    + apply Forall_set_slice; assumption.
Qed.

(** For a kernel that fits in the spectrum and has its distance count, the
    call succeeds and the spectrum keeps its shape. *)
Lemma filtered_pres (ft G : arr3 A) (m n d kx ky : nat) :
  rect3 m n d ft -> rect3 kx ky d G ->
  (1 <= kx)%nat -> (kx <= m)%nat -> (ky <= n)%nat ->
  exists r, filtered zero mul ft G = Ok r /\ rect3 m n d r.
Proof.
  intros Hf Hg Hk1 Hkm Hkn. unfold filtered.
  rewrite (rect3_shape1 ft m n d ltac:(lia) Hf),
    (rect3_shape1 G kx ky d Hk1 Hg).
  replace (shape0 ft) with m by (symmetry; apply Hf).
  replace (shape0 G) with kx by (symmetry; apply Hg).
  destruct (imul_window_pres ft G m n d kx ky Hf Hg Hk1 Hkm Hkn)
    as [r [E Hr]].
  rewrite E. simpl. eexists. split; [reflexivity|].
  apply zero_cols_pres, zero_cols_pres, zero_rows_pres, zero_rows_pres, Hr.
Qed.

End FilterTotal.

(** ** The kernel of a valid image *)

Section ValidKernel.

Local Open Scope Q_scope.

Lemma Qdiv_nonneg (a b : Q) : 0 <= a -> 0 < b -> 0 <= a / b.
Proof.
  intros Ha Hb. apply Qle_shift_div_l; [exact Hb|].
  rewrite Qmult_0_l. exact Ha.
Qed.

Lemma fold_xmax_nonneg (l : list xnum) (x : xnum) :
  Forall is_nonneg l -> is_nonneg x -> is_nonneg (fold_left xmax l x).
Proof.
  revert x. induction l as [|y l IH]; intros x Hl Hx; simpl; [exact Hx|].
  inversion Hl as [|? ? Hy Hl']; subst.
  apply IH; [exact Hl'|].
  destruct x, y; simpl in *; try tauto.
  apply Q.max_le_iff. left. exact Hx.
Qed.

Lemma py_int_nonneg (q : Q) : 0 <= q -> (0 <= py_int q)%Z.
Proof.
  intros H. unfold py_int.
  assert (E : Qle_bool 0 q = true) by (apply Qle_bool_iff, H).
  rewrite E. change 0%Z with (Qfloor 0). apply Qfloor_resp_le, H.
Qed.

Lemma Qneg_bool_false (q : Q) : 0 < q -> Qneg_bool q = false.
Proof.
  intros H. unfold Qneg_bool.
  assert (E : Qle_bool 0 q = true) by (apply Qle_bool_iff, Qlt_le_weak, H).
  rewrite E. reflexivity.
Qed.

(** With positive dimension, spacing and wavelength, every entry of the
    array handed to [np.max] is a non-negative float or [inf]. *)
Lemma support_entry_nonneg (dim : Z) (dx wavelen dk : Q) :
  (0 < dim)%Z -> 0 < dx -> 0 < wavelen ->
  is_nonneg (xdiv (xdiv (xdiv (Fin (inject_Z (dim ^ 2) * dx ^ 2)) (Qabs dk))
                        wavelen) 2).
Proof.
  intros Hd Hx Hw.
  assert (Hn : 0 < inject_Z (dim ^ 2) * dx ^ 2).
  { apply Qmult_lt_0_compat.
    - replace 0 with (inject_Z 0) by reflexivity. rewrite <- Zlt_Qlt. nia.
    - simpl. apply Qmult_lt_0_compat; exact Hx. }
  set (num := inject_Z (dim ^ 2) * dx ^ 2) in *.
  destruct (Qeq_dec dk 0) as [E|E].
  - assert (Ez : Qeq_bool (Qabs dk) 0 = true).
    { apply Qeq_bool_iff. rewrite E. reflexivity. }
    unfold xdiv at 3. rewrite Ez, (Qpos_bool_true _ Hn).
    simpl. rewrite (Qneg_bool_false _ Hw). exact I.
  - rewrite (xdiv_fin _ (Qabs dk)) by (apply Qabs_nonzero, E).
    rewrite (xdiv_fin _ wavelen) by (intros Z0; rewrite Z0 in Hw; discriminate).
    rewrite xdiv_fin by discriminate.
    simpl. apply Qdiv_nonneg; [|reflexivity].
    apply Qdiv_nonneg; [|exact Hw].
    apply Qdiv_nonneg; [apply Qlt_le_weak, Hn|].
    destruct (proj1 (Qle_lteq _ _) (Qabs_nonneg dk)) as [H|H];
      [exact H | exfalso; apply (Qabs_nonzero dk E); symmetry; exact H].
Qed.

Lemma support_size_valid (dim : Z) (dx wavelen : Q) (d : list Q) :
  (0 < dim)%Z -> 0 < dx -> 0 < wavelen -> d <> [] ->
  (exists M, support_size dim dx wavelen d = Ok M /\ (1 <= M)%Z) \/
  support_size dim dx wavelen d = Raise OverflowError.
Proof.
  intros Hd Hx Hw Hne. unfold support_size.
  set (f := fun dk : Q =>
         xdiv (xdiv (xdiv (Fin (inject_Z (dim ^ 2) * dx ^ 2)) (Qabs dk))
                    wavelen) 2).
  assert (Hall : Forall is_nonneg (map f d)).
  { apply Forall_map, Forall_forall. intros dk _.
    apply support_entry_nonneg; assumption. }
  destruct d as [|d0 d']; [contradiction|].
  simpl map in *. simpl np_max.
  inversion Hall as [|? ? H0 Htl]; subst.
  pose proof (fold_xmax_nonneg _ _ Htl H0) as Hf.
  destruct (fold_left xmax (map f d') (f d0)) as [q| | |];
    simpl in *; try contradiction.
  - left. eexists. split; [reflexivity|].
    pose proof (py_int_nonneg q Hf). lia.
  - right. reflexivity.
Qed.

Lemma half_widths_valid (xdim ydim : Z) (dx dy wavelen : Q) (d : list Q) :
  (0 < xdim)%Z -> (0 < ydim)%Z -> 0 < dx -> 0 < dy -> 0 < wavelen ->
  d <> [] ->
  exists a b, half_widths xdim ydim dx dy wavelen d = Ok (a, b) /\
    good_half xdim a /\ good_half ydim b.
Proof.
  intros Hx Hy Hdx Hdy Hw Hne. unfold half_widths, good_half.
  destruct (support_size_valid xdim dx wavelen d Hx Hdx Hw Hne)
    as [[M [-> HM]] | ->];
    [destruct (support_size_valid ydim dy wavelen d Hy Hdy Hw Hne)
       as [[N [-> HN]] | ->] |].
  - exists (inject_Z M), (inject_Z N). split; [reflexivity|].
    split; left; eexists; split; (reflexivity || assumption).
  - do 2 eexists. split; [reflexivity|]. split; right; reflexivity.
  - do 2 eexists. split; [reflexivity|]. split; right; reflexivity.
Qed.

Lemma axis_len_valid (dim : nat) (a : Q) :
  (1 <= dim)%nat -> good_half (Z.of_nat dim) a ->
  (1 <= axis_len (clamp (Z.of_nat dim) a) <= dim)%nat.
Proof.
  intros Hd [[M [-> HM]] | ->]; unfold axis_len.
  - rewrite clamp_width_int. lia.
  - rewrite clamp_width_half. lia.
Qed.

(** For an image with positive shape, spacing and wavelength and a
    non-empty list of distances, [trans_func] (no cascade) returns a
    rectangular kernel with one slice per distance that fits in the
    image. *)
Lemma kernel_valid (m n : nat) (dx dy wavelen : Q) (d : list Q) (gf : Q) :
  (1 <= m)%nat -> (1 <= n)%nat -> 0 < dx -> 0 < dy -> 0 < wavelen ->
  d <> [] ->
  exists G kx ky,
    kernel (Z.of_nat m, Z.of_nat n) (dx, dy) wavelen d 0 gf = Ok G /\
    rect3 kx ky (length d) G /\
    (1 <= kx <= m)%nat /\ (1 <= ky <= n)%nat.
Proof.
  intros Hm Hn Hdx Hdy Hw Hne.
  destruct (half_widths_valid (Z.of_nat m) (Z.of_nat n) dx dy wavelen d)
    as [a [b [Hh [Ga Gb]]]]; try assumption; try lia.
  unfold kernel, support. rewrite scale_d_0, Hh. simpl.
  exists (map (fun mi =>
            map (fun nj =>
              map (g_cell wavelen 0 gf
                     (mask_root (root_cell (Z.of_nat m) (Z.of_nat n)
                                   dx dy wavelen mi nj))) d)
              (np_ogrid (- clamp (Z.of_nat n) b) (clamp (Z.of_nat n) b)))
            (np_ogrid (- clamp (Z.of_nat m) a) (clamp (Z.of_nat m) a))),
    (axis_len (clamp (Z.of_nat m) a)), (axis_len (clamp (Z.of_nat n) b)).
  split; [reflexivity|]. split; [split|].
  - rewrite length_map. apply length_np_ogrid.
  - apply Forall_map, Forall_forall. intros mi _. split.
    + rewrite length_map. apply length_np_ogrid.
    + apply Forall_map, Forall_forall. intros nj _. apply length_map.
  - split; apply axis_len_valid; assumption.
Qed.

End ValidKernel.

(** ** Packaging of a stack of reconstructions *)

Section Packaging.

Local Open Scope Q_scope.

Lemma squeeze_3d {A : Type} (d0 : A) (a : arr3 A) (m n k : nat) :
  rect3 m n k a -> (2 <= m)%nat -> (2 <= n)%nat -> (2 <= k)%nat ->
  np_squeeze d0 a = Nd3 a.
Proof.
  intros Ha Hm Hn Hk. unfold np_squeeze.
  assert (S0 : shape0 a = m) by apply Ha.
  rewrite S0, (rect3_shape1 a m n k) by (lia || exact Ha).
  rewrite (rect3_shape2 a m n k) by (lia || exact Ha).
  destruct (Nat.eqb_spec m 1); [lia|]. destruct (Nat.eqb_spec n 1); [lia|].
  destruct (Nat.eqb_spec k 1); [lia|]. reflexivity.
Qed.

Lemma shape3_rect {A : Type} (a : arr3 A) (m n k : nat) :
  rect3 m n k a -> (1 <= m)%nat -> (1 <= n)%nat -> shape3 a = (m, n, k).
Proof.
  intros Ha Hm Hn. unfold shape3.
  assert (S0 : shape0 a = m) by apply Ha.
  rewrite S0, (rect3_shape1 a m n k Hm Ha), (rect3_shape2 a m n k Hm Hn Ha).
  reflexivity.
Qed.

Lemma np_diff_two (d : list Q) :
  (2 <= length d)%nat -> exists dd0 rest, np_diff d = dd0 :: rest.
Proof.
  destruct d as [|x [|y d]]; simpl; try lia. intros _. eauto.
Qed.

(** The transforms keep the shape of their argument. *)
Variable fft : arr2 C -> arr2 C.
Variable ifft : arr3 C -> arr3 C.
Hypothesis fft_shape : forall m n a, rect2 m n a -> rect2 m n (fft a).
Hypothesis ifft_shape : forall m n k a, rect3 m n k a -> rect3 m n k (ifft a).

(** C8: for two or more distances (on a field with at least two samples
    per axis, positive spacing and wavelength) [propagate] returns a
    [Volume]; its positions are a [Grid] with third spacing [dd[0]], the
    first consecutive difference, when [np.allclose(dd[0], dd)] holds, and
    otherwise an [UnevenGrid] that records the distances as given. *)
Theorem propagate_packaging (data : Image) (d : list Q) (gf : Q)
    (m n : nat) :
  rect2 m n (samples data) -> (2 <= m)%nat -> (2 <= n)%nat ->
  0 < fst (spacing data) -> 0 < snd (spacing data) ->
  0 < med_wavelen (optics data) -> (2 <= length d)%nat ->
  exists arr dd0 rest,
    np_diff d = dd0 :: rest /\ rect3 m n (length d) arr /\
    propagate fft ifft data d gf
    = Ok (RVolume arr
            (if np_allclose dd0 (np_diff d)
             then Grid [fst (spacing data); snd (spacing data); dd0]
                       (m, n, length d)
             else UnevenGrid (fst (spacing data), snd (spacing data), d)
                             (m, n, length d))).
Proof.
  intros Hrect Hm Hn Hdx Hdy Hw Hd.
  destruct data as [a [dx dy] op]. simpl in *.
  assert (S0 : shape0 a = m) by apply Hrect.
  assert (S1 : shape1 a = n).
  { destruct Hrect as [L R]. destruct a as [|r a]; simpl in *; [lia|].
    inversion R; subst. reflexivity. }
  assert (Hne : d <> []) by (destruct d; simpl in Hd; [lia | discriminate]).
  destruct (kernel_valid m n dx dy (med_wavelen op) d gf)
    as [G [kx [ky [HG [RG [Bx By]]]]]]; try assumption; try lia.
  destruct (filtered_pres C0 Cmul (np_repeat_axis2 (fft a) (length d)) G
              m n (length d) kx ky)
    as [r [Er Rr]];
    [apply rect3_repeat, fft_shape, Hrect | exact RG | lia | lia | lia |].
  destruct (np_diff_two d Hd) as [dd0 [rest Edd]].
  exists (ifft r), dd0, rest.
  split; [exact Edd|]. split; [apply ifft_shape, Rr|].
  unfold propagate. cbn [samples spacing optics].
  rewrite S0, S1, HG. cbn [rbind].
  rewrite (rect3_shape2 G kx ky (length d)) by (lia || exact RG).
  rewrite apply_trans_func_run.
  destruct (content_fresh_store (np_repeat_axis2 (fft a) (length d)) G)
    as [-> ->].
  rewrite Er. cbn [rbind fst snd]. rewrite content_insert.
  rewrite (squeeze_3d C0 (ifft r) m n (length d))
    by (lia || apply ifft_shape, Rr).
  rewrite (shape3_rect (ifft r) m n (length d))
    by (lia || apply ifft_shape, Rr).
  rewrite Edd. rewrite <- Edd at 1 2.
  destruct (np_allclose dd0 (np_diff d)); reflexivity.
Qed.

End Packaging.

Lemma propagate_packaging_witness :
  let img := mkImage [[C1; C0]; [C0; C1]] (1, 1)%Q
                     (mkOptics 1 (1, 1)%Q (2 * PI)%R) in
  (exists arr,
     propagate (fun a => a) (fun a => a) img [1; 2; 3]%Q 0
     = Ok (RVolume arr (Grid [1; 1; 1]%Q (2, 2, 3)%nat))) /\
  (exists arr,
     propagate (fun a => a) (fun a => a) img [1; 2; 5]%Q 0
     = Ok (RVolume arr (UnevenGrid (1, 1, [1; 2; 5])%Q (2, 2, 3)%nat))).
Proof.
  intros img. split.
  - destruct (propagate_packaging (fun a => a) (fun a => a)
                (fun m n a H => H) (fun m n k a H => H)
                img [1; 2; 3]%Q 0 2 2)
      as [arr [dd0 [rest [Edd [_ E]]]]].
    + split; [reflexivity | repeat constructor].
    + lia.
    + lia.
    + reflexivity.
    + reflexivity.
    + reflexivity.
    + simpl. lia.
    + exists arr. injection Edd as <- _. exact E.
  - destruct (propagate_packaging (fun a => a) (fun a => a)
                (fun m n a H => H) (fun m n k a H => H)
                img [1; 2; 5]%Q 0 2 2)
      as [arr [dd0 [rest [Edd [_ E]]]]].
    + split; [reflexivity | repeat constructor].
    + lia.
    + lia.
    + reflexivity.
    + reflexivity.
    + reflexivity.
    + simpl. lia.
    + exists arr. injection Edd as <- _. exact E.
Defined.

(** ** impulse_response *)

Section ImpulseResponse.

Local Open Scope Q_scope.

Lemma nth_error_seq_lt (s len i : nat) :
  (i < len)%nat -> nth_error (seq s len) i = Some (s + i)%nat.
Proof.
  revert s i. induction len as [|len IH]; intros s i H; [lia|].
  destruct i as [|i]; simpl.
  - f_equal. lia.
  - rewrite IH by lia. f_equal. lia.
Qed.

Lemma nth_error_np_ogrid (a b : Q) (i : nat) :
  (i < Z.to_nat (Qceiling (b - a)))%nat ->
  nth_error (np_ogrid a b) i = Some (inject_Z (Z.of_nat i) + a).
Proof.
  intros H. unfold np_ogrid.
  rewrite nth_error_map, nth_error_seq_lt by exact H. reflexivity.
Qed.

Lemma centered_width (dim : Z) :
  Qceiling (inject_Z dim / 2 - - (inject_Z dim / 2)) = dim.
Proof.
  assert (E : inject_Z dim / 2 - - (inject_Z dim / 2) == inject_Z dim)
    by field.
  rewrite E. apply Qceiling_Z.
Qed.

(** On an even axis the grid point of index [i] is the integer offset
    [i - dim/2] from the center. *)
Lemma centered_offset (dim : Z) (i : nat) :
  Z.even dim = true ->
  inject_Z (Z.of_nat i) + - (inject_Z dim / 2)
  == inject_Z (Z.of_nat i - dim / 2).
Proof.
  intros He. apply Z.even_spec in He. destruct He as [h ->].
  replace (2 * h / 2)%Z with h by (rewrite Z.mul_comm, Z.div_mul; lia).
  unfold Zminus. rewrite inject_Z_plus, inject_Z_opp, inject_Z_mult.
  field.
Qed.

Lemma Q2R_inject_Z (z : Z) : Q2R (inject_Z z) = IZR z.
Proof. unfold Q2R. simpl. field. Qed.

Lemma ir_root_offsets (dx dy mi nj dk : Q) (m n : Z) :
  mi == inject_Z m -> nj == inject_Z n ->
  ir_root dx dy mi nj dk
  = sqrt (Q2R dk * Q2R dk + (IZR m * Q2R dx) * (IZR m * Q2R dx)
          + (IZR n * Q2R dy) * (IZR n * Q2R dy))%R.
Proof.
  intros Em En. unfold ir_root. f_equal.
  assert (E : dk ^ 2 + (mi * dx) ^ 2 + (nj * dy) ^ 2
              == dk * dk + (inject_Z m * dx) * (inject_Z m * dx)
                 + (inject_Z n * dy) * (inject_Z n * dy)).
  { rewrite Em, En. simpl. reflexivity. }
  rewrite (Qeq_eqR _ _ E).
  rewrite !Q2R_plus, !Q2R_mult, !Q2R_inject_Z. reflexivity.
Qed.

Lemma ir_cell_spherical (wavelen : Q) (k root : R) :
  ir_cell wavelen k root
  = Cdiv_r (Cmul (Cdiv_r Ci (Q2R wavelen))
                 (Cexp (Cmul_r (Cneg Ci) (k * root)%R))) root.
Proof.
  unfold ir_cell. do 3 f_equal.
  unfold Cmul_r, Cneg, Ci. simpl. apply C_eq; ring.
Qed.

End ImpulseResponse.

(** C9: for an even shape, positive wavelength and spacing and a non-zero
    distance [d_k], the cell of [impulse_response] at the integer pixel
    offset [(m, n)] from the center, [-Nx/2 <= m < Nx/2] and
    [-Ny/2 <= n < Ny/2], holds
    [(i / wavelen) * exp(-i * wavevec * root) / root] with
    [root = sqrt(d_k^2 + (m dx)^2 + (n dy)^2)]. *)
Theorem impulse_response_cell (xdim ydim : Z) (optics : Optics)
    (d : list Q) (m n : Z) (k : nat) (dk : Q) :
  Z.even xdim = true -> Z.even ydim = true ->
  (0 < med_wavelen optics)%Q ->
  (0 < fst (pixel optics))%Q -> (0 < snd (pixel optics))%Q ->
  nth_error d k = Some dk -> ~ (dk == 0)%Q ->
  (- (xdim / 2) <= m < xdim / 2)%Z -> (- (ydim / 2) <= n < ydim / 2)%Z ->
  cell (impulse_response (xdim, ydim) optics d)
       (Z.to_nat (m + xdim / 2)) (Z.to_nat (n + ydim / 2)) k
  = Some (spherical_wave (Q2R (med_wavelen optics)) (wavevec optics)
            (Q2R (fst (pixel optics))) (Q2R (snd (pixel optics)))
            (Q2R dk) (IZR m) (IZR n)).
Proof.
  intros Ex Ey Hw Hdx Hdy Hk Hd Hm Hn.
  destruct optics as [wavelen [dx dy] wv]. simpl in *.
  unfold impulse_response. cbn [pixel med_wavelen wavevec].
  assert (Xd : (xdim = 2 * (xdim / 2))%Z).
  { apply Z.even_spec in Ex. destruct Ex as [h ->].
    rewrite (Z.mul_comm 2 h), Z.div_mul by lia. lia. }
  assert (Yd : (ydim = 2 * (ydim / 2))%Z).
  { apply Z.even_spec in Ey. destruct Ey as [h ->].
    rewrite (Z.mul_comm 2 h), Z.div_mul by lia. lia. }
  rewrite (cell_map3
    (fun mi nj dk => ir_cell wavelen wv (ir_root dx dy mi nj dk))
    _ _ _ _ _ _
    (inject_Z (Z.of_nat (Z.to_nat (m + xdim / 2))) + - (inject_Z xdim / 2))%Q
    (inject_Z (Z.of_nat (Z.to_nat (n + ydim / 2))) + - (inject_Z ydim / 2))%Q
    dk).
  - f_equal. rewrite ir_cell_spherical. unfold spherical_wave.
    rewrite (ir_root_offsets dx dy _ _ dk m n).
    + reflexivity.
    + rewrite (centered_offset xdim _ Ex). rewrite Z2Nat.id by lia.
      replace (m + xdim / 2 - xdim / 2)%Z with m by lia. reflexivity.
    + rewrite (centered_offset ydim _ Ey). rewrite Z2Nat.id by lia.
      replace (n + ydim / 2 - ydim / 2)%Z with n by lia. reflexivity.
  - apply nth_error_np_ogrid. rewrite centered_width. lia.
  - apply nth_error_np_ogrid. rewrite centered_width. lia.
  - exact Hk.
Qed.

Lemma impulse_response_cell_witness :
  let optics := mkOptics 1 (1, 1)%Q (2 * PI)%R in
  cell (impulse_response (4, 4) optics [3%Q])
       (Z.to_nat (-2 + 4 / 2)) (Z.to_nat (1 + 4 / 2)) 0
  = Some (spherical_wave (Q2R 1) (2 * PI)%R (Q2R 1) (Q2R 1) (Q2R 3)
            (IZR (-2)) (IZR 1)).
Proof.
  intros optics.
  apply (impulse_response_cell 4 4 optics [3%Q] (-2) 1 0 3%Q).
  - reflexivity.
  - reflexivity.
  - reflexivity.
  - reflexivity.
  - reflexivity.
  - reflexivity.
  - discriminate.
  - split; [apply Z.leb_le | apply Z.ltb_lt]; reflexivity.
  - split; [apply Z.leb_le | apply Z.ltb_lt]; reflexivity.
Defined.

(** * Further properties of the code *)

(** ** trans_func: when it returns, and what its cells hold *)

Section KernelFacts.

Local Open Scope Q_scope.

Lemma support_size_empty (dim : Z) (dx wavelen : Q) :
  support_size dim dx wavelen [] = Raise ValueError.
Proof. reflexivity. Qed.

Lemma kernel_empty (shape : Z * Z) (spacing : Q * Q) (wavelen : Q)
    (cfsp : Z) (gf : Q) :
  kernel shape spacing wavelen [] cfsp gf = Raise ValueError.
Proof.
  destruct shape as [xdim ydim], spacing as [dx dy].
  unfold kernel, support, half_widths.
  assert (E : scale_d cfsp [] = []) by (unfold scale_d; destruct (0 <? cfsp)%Z; reflexivity).
  rewrite E, support_size_empty. reflexivity.
Qed.

(** Kernels with any cascade factor, on a valid image. *)
Lemma kernel_valid_cascade (m n : nat) (dx dy wavelen : Q) (d : list Q)
    (cfsp : Z) (gf : Q) :
  (1 <= m)%nat -> (1 <= n)%nat -> 0 < dx -> 0 < dy -> 0 < wavelen ->
  d <> [] ->
  exists G kx ky,
    kernel (Z.of_nat m, Z.of_nat n) (dx, dy) wavelen d cfsp gf = Ok G /\
    rect3 kx ky (length d) G /\
    (Nat.min m 2 <= kx <= m)%nat /\ (Nat.min n 2 <= ky <= n)%nat.
Proof.
  intros Hm Hn Hdx Hdy Hw Hne.
  destruct (half_widths_valid (Z.of_nat m) (Z.of_nat n) dx dy wavelen
              (scale_d cfsp d))
    as [a [b [Hh [Ga Gb]]]]; try assumption; try lia.
  { apply scale_d_nonempty, Hne. }
  unfold kernel, support. rewrite Hh. simpl.
  eexists. exists (axis_len (clamp (Z.of_nat m) a)),
    (axis_len (clamp (Z.of_nat n) b)).
  split; [reflexivity|].
  assert (Ld : length (scale_d cfsp d) = length d).
  { unfold scale_d. destruct (0 <? cfsp)%Z; [apply length_map | reflexivity]. }
  assert (Bound : forall (k : nat) (c : Q), (1 <= k)%nat ->
            good_half (Z.of_nat k) c ->
            (Nat.min k 2 <= axis_len (clamp (Z.of_nat k) c) <= k)%nat).
  { intros k c Hk [[M [-> HM]] | ->]; unfold axis_len.
    - rewrite clamp_width_int. lia.
    - rewrite clamp_width_half. lia. }
  split; [split|].
  - rewrite length_map. apply length_np_ogrid.
  - apply Forall_map, Forall_forall. intros mi _. split.
    + rewrite length_map. apply length_np_ogrid.
    + apply Forall_map, Forall_forall. intros nj _.
      rewrite length_map. exact Ld.
  - split; apply Bound; assumption.
Qed.

(** Every cell of a kernel comes from a grid point and a distance. *)
Lemma kernel_cell_inv (xdim ydim : Z) (dx dy wavelen : Q) (d : list Q)
    (cfsp : Z) (gf : Q) (g : arr3 C) (i j k : nat) (z : C) :
  kernel (xdim, ydim) (dx, dy) wavelen d cfsp gf = Ok g ->
  cell g i j k = Some z ->
  exists mm nn mi nj dk,
    support (xdim, ydim) (dx, dy) wavelen d cfsp = Ok (mm, nn) /\
    nth_error (np_ogrid (- mm) mm) i = Some mi /\
    nth_error (np_ogrid (- nn) nn) j = Some nj /\
    nth_error (scale_d cfsp d) k = Some dk /\
    z = g_cell wavelen cfsp gf
          (mask_root (root_cell xdim ydim dx dy wavelen mi nj)) dk.
Proof.
  unfold kernel.
  destruct (support (xdim, ydim) (dx, dy) wavelen d cfsp) as [[mm nn]|e];
    simpl; [|discriminate].
  intros H. injection H as <-. unfold cell.
  rewrite nth_error_map.
  destruct (nth_error (np_ogrid (- mm) mm) i) as [mi|] eqn:Ei; simpl;
    [|discriminate].
  rewrite nth_error_map.
  destruct (nth_error (np_ogrid (- nn) nn) j) as [nj|] eqn:Ej; simpl;
    [|discriminate].
  rewrite nth_error_map.
  destruct (nth_error (scale_d cfsp d) k) as [dk|] eqn:Ek; simpl;
    [|discriminate].
  intros H. injection H as <-.
  exists mm, nn, mi, nj, dk. repeat split; reflexivity || assumption.
Qed.

(** The masked [root] is a non-negative real. *)
Lemma mask_root_real (xdim ydim : Z) (dx dy wavelen m n : Q) :
  let r := mask_root (root_cell xdim ydim dx dy wavelen m n) in
  Q2R (qIm r) = 0%R /\ (0 <= Q2R (qRe r))%R.
Proof.
  intros r. unfold r, mask_root, CQ_mul_b.
  destruct (CQ_ge0 (root_cell xdim ydim dx dy wavelen m n)) eqn:E.
  - split; [apply Q2R_zero|].
    unfold CQ_ge0 in E. rewrite <- Q2R_zero. apply Qle_Rle.
    apply orb_true_iff in E. destruct E as [E|E].
    + unfold Qpos_bool in E. apply negb_true_iff in E.
      destruct (Qlt_le_dec 0
                  (qRe (root_cell xdim ydim dx dy wavelen m n))) as [L|L].
      * apply Qlt_le_weak, L.
      * apply Qle_bool_iff in L. congruence.
    + apply andb_true_iff in E. destruct E as [E _].
      apply Qeq_bool_iff in E. rewrite E. apply Qle_refl.
  - simpl. rewrite Q2R_zero. split; [reflexivity | apply Rle_refl].
Qed.

Lemma Cnorm2_mul (z w : C) : Cnorm2 (Cmul z w) = (Cnorm2 z * Cnorm2 w)%R.
Proof. unfold Cnorm2, Cmul. simpl. ring. Qed.

Lemma Cnorm2_pow (z : C) (n : nat) : Cnorm2 z = 1%R -> Cnorm2 (Cpow z n) = 1%R.
Proof.
  intros H. induction n as [|n IH]; simpl.
  - unfold Cnorm2, C1. simpl. ring.
  - rewrite Cnorm2_mul, H, IH. ring.
Qed.

Lemma Cnorm2_phase (xdim ydim : Z) (dx dy wavelen m n d : Q) :
  Cnorm2 (phase wavelen d (mask_root (root_cell xdim ydim dx dy wavelen m n)))
  = 1%R.
Proof.
  destruct (mask_root_real xdim ydim dx dy wavelen m n) as [Hi Hr].
  rewrite phase_real_root by assumption.
  unfold Cnorm2. simpl.
  set (t := angle wavelen d _).
  pose proof (sin2_cos2 t) as H. unfold Rsqr in H. lra.
Qed.

End KernelFacts.

(** X1: on an image with positive shape, spacing and wavelength,
    [trans_func] raises [ValueError] when the list of distances is empty,
    and otherwise returns a kernel, whatever the distances (zero and
    negative ones included), the cascade factor and the gradient offset. *)
Theorem trans_func_returns_iff_distances (m n : nat) (dx dy wavelen : Q)
    (d : list Q) (cfsp : Z) (squeeze : bool) (gf : Q) :
  (1 <= m)%nat -> (1 <= n)%nat ->
  (0 < dx)%Q -> (0 < dy)%Q -> (0 < wavelen)%Q ->
  (d = [] ->
   trans_func (Z.of_nat m, Z.of_nat n) (dx, dy) wavelen d cfsp squeeze gf
   = Raise ValueError) /\
  (d <> [] ->
   exists a,
     trans_func (Z.of_nat m, Z.of_nat n) (dx, dy) wavelen d cfsp squeeze gf
     = Ok a).
Proof.
  intros Hm Hn Hdx Hdy Hw. split.
  - intros ->. unfold trans_func. rewrite kernel_empty. reflexivity.
  - intros Hne.
    destruct (kernel_valid_cascade m n dx dy wavelen d cfsp gf)
      as [G [kx [ky [HG _]]]]; try assumption.
    unfold trans_func. rewrite HG. simpl. eauto.
Qed.

Lemma trans_func_returns_iff_distances_witness :
  ([1; 0; -2]%Q = [] ->
   trans_func (Z.of_nat 4, Z.of_nat 6) (1, 2)%Q 3 [1; 0; -2]%Q 2 true 5
   = Raise ValueError) /\
  ([1; 0; -2]%Q <> [] ->
   exists a,
     trans_func (Z.of_nat 4, Z.of_nat 6) (1, 2)%Q 3 [1; 0; -2]%Q 2 true 5
     = Ok a).
Proof.
  apply (trans_func_returns_iff_distances 4 6 1 2 3 [1; 0; -2]%Q 2 true 5);
    (lia || reflexivity).
Defined.

(** X2: without gradient filter the kernel is a pure phase: on an image
    with positive shape, spacing and wavelength, every cell of the array
    [trans_func] builds has modulus 1, for every distance and every cascade
    factor. *)
Theorem kernel_cells_have_unit_modulus (xdim ydim : Z) (dx dy wavelen : Q)
    (d : list Q) (cfsp : Z) (gf : Q) (g : arr3 C) (i j k : nat) (z : C) :
  (0 < xdim)%Z -> (0 < ydim)%Z ->
  (0 < dx)%Q -> (0 < dy)%Q -> (0 < wavelen)%Q ->
  Qeq_bool gf 0 = true ->
  kernel (xdim, ydim) (dx, dy) wavelen d cfsp gf = Ok g ->
  cell g i j k = Some z ->
  Cnorm2 z = 1%R.
Proof.
  intros _ _ _ _ _ Hg Hk Hc.
  destruct (kernel_cell_inv _ _ _ _ _ _ _ _ _ _ _ _ _ Hk Hc)
    as [mm [nn [mi [nj [dk [_ [_ [_ [_ ->]]]]]]]]].
  rewrite g_cell_plain by (exact Hg || apply mask_root_ge0).
  destruct (0 <? cfsp)%Z.
  - apply Cnorm2_pow, Cnorm2_phase.
  - apply Cnorm2_phase.
Qed.

Lemma kernel_cells_have_unit_modulus_witness :
  exists g z,
    kernel (4, 4) (1, 1)%Q 4 [1%Q] 3 0 = Ok g /\
    cell g 2 0 0 = Some z /\ Cnorm2 z = 1%R.
Proof.
  destruct (kernel_cell 4 4 1 1 4 [1%Q] 3 0 (4 # 2) (4 # 2) 2 0 0
              (0 # 2) (-4 # 2) (1 # 3)) as [g [Hg Hc]]; try reflexivity.
  exists g. eexists. split; [exact Hg|]. split; [exact Hc|].
  apply (kernel_cells_have_unit_modulus 4 4 1 1 4 [1%Q] 3 0 g 2 0 0);
    try reflexivity; assumption.
Defined.

(** X3: what the kernel holds where the wave is evanescent, on an image
    with positive shape, spacing and wavelength (so that nothing is divided
    by zero).  At every grid point with [root < 0] the returned cell is
    exactly 1 when no gradient filter is requested and exactly 0 when one
    is, for every distance and every cascade factor: the two phase factors
    are both [exp(0)] there, and the mask applied to [g] never removes
    anything. *)
Theorem evanescent_cells (xdim ydim : Z) (dx dy wavelen : Q) (d : list Q)
    (cfsp : Z) (gf : Q) (g : arr3 C) (mm nn : Q) (i j k : nat)
    (mi nj dk : Q) :
  (0 < xdim)%Z -> (0 < ydim)%Z ->
  (0 < dx)%Q -> (0 < dy)%Q -> (0 < wavelen)%Q ->
  kernel (xdim, ydim) (dx, dy) wavelen d cfsp gf = Ok g ->
  support (xdim, ydim) (dx, dy) wavelen d cfsp = Ok (mm, nn) ->
  nth_error (np_ogrid (- mm) mm) i = Some mi ->
  nth_error (np_ogrid (- nn) nn) j = Some nj ->
  nth_error (scale_d cfsp d) k = Some dk ->
  CQ_ge0 (root_cell xdim ydim dx dy wavelen mi nj) = false ->
  cell g i j k = Some (if Qeq_bool gf 0 then C1 else C0).
Proof.
  intros _ _ _ _ _ Hk Hs Hi Hj Hd Hr.
  destruct (kernel_cell xdim ydim dx dy wavelen d cfsp gf mm nn i j k
              mi nj dk Hs Hi Hj Hd) as [g' [Hg' Hc]].
  rewrite Hk in Hg'. injection Hg' as <-. rewrite Hc. f_equal.
  destruct (Qeq_bool gf 0) eqn:Eg.
  - apply g_cell_evanescent; assumption.
  - unfold g_cell.
    rewrite Eg, mask_root_ge0, (mask_root_evanescent _ Hr), !phase_zero_root.
    rewrite Csub_diag. simpl.
    destruct (0 <? cfsp)%Z eqn:E; [|reflexivity].
    apply Cpow_C0. apply Z.ltb_lt in E. lia.
Qed.

Lemma evanescent_cells_witness :
  exists g,
    kernel (4, 4) (1, 1)%Q 4 [1%Q] 0 7 = Ok g /\
    cell g 2 0 0 = Some (if Qeq_bool 7 0 then C1 else C0).
Proof.
  destruct (kernel_shape 4 4 1 1 4 [1%Q] 0 7 (4 # 2) (4 # 2) eq_refl)
    as [g [Hg _]].
  exists g. split; [exact Hg|].
  apply (evanescent_cells 4 4 1 1 4 [1%Q] 0 7 g (4 # 2) (4 # 2) 2 0 0
           (0 # 2) (-4 # 2) 1); try reflexivity. exact Hg.
Defined.

(** ** Cascaded propagation, mathematically *)

Section DeMoivre.

Local Open Scope R_scope.

(** De Moivre: [(cos t - i sin t)^n = cos (n t) - i sin (n t)]. *)
Lemma Cpow_cis (t : R) (n : nat) :
  Cpow (mkC (cos t) (- sin t)) n = mkC (cos (INR n * t)) (- sin (INR n * t)).
Proof.
  induction n as [|n IH].
  - simpl. rewrite Rmult_0_l, cos_0, sin_0. apply C_eq; lra.
  - change (Cpow (mkC (cos t) (- sin t)) (S n))
      with (Cmul (mkC (cos t) (- sin t)) (Cpow (mkC (cos t) (- sin t)) n)).
    rewrite IH, S_INR.
    replace ((INR n + 1) * t) with (t + INR n * t) by ring.
    rewrite cos_plus, sin_plus. unfold Cmul. simpl. apply C_eq; ring.
Qed.

Lemma angle_cascade (wavelen d : Q) (root : CQ) (c : Z) :
  (0 < c)%Z ->
  INR (Z.to_nat c) * angle wavelen (d / inject_Z c)%Q root
  = angle wavelen d root.
Proof.
  intros Hc. unfold angle.
  assert (Hn : ~ (inject_Z c == 0)%Q) by (unfold Qeq; simpl; lia).
  rewrite Q2R_div by exact Hn. rewrite Q2R_inject_Z.
  rewrite INR_IZR_INZ, Z2Nat.id by lia.
  assert (H : IZR c <> 0) by (apply not_0_IZR; lia).
  assert (E : Q2R d = IZR c * (Q2R d / IZR c)) by (field; exact H).
  rewrite E at 2. unfold Rdiv. ring.
Qed.

End DeMoivre.

(** X4: cascading changes the grid, not the values.  With a cascade factor
    [C > 0] and no gradient filter, the cell of the returned kernel for the
    distance [d_k] holds the phase factor of the full distance [d_k], the
    value an uncascaded kernel holds at the same grid point: computing at
    [d_k / C] and raising to the power [C] cancel. *)
Theorem cascaded_cell_is_uncascaded_phase (xdim ydim : Z)
    (dx dy wavelen : Q) (d : list Q) (cfsp : Z) (g : arr3 C) (mm nn : Q)
    (i j k : nat) (mi nj dk : Q) :
  (0 < cfsp)%Z ->
  kernel (xdim, ydim) (dx, dy) wavelen d cfsp 0 = Ok g ->
  support (xdim, ydim) (dx, dy) wavelen d cfsp = Ok (mm, nn) ->
  nth_error (np_ogrid (- mm) mm) i = Some mi ->
  nth_error (np_ogrid (- nn) nn) j = Some nj ->
  nth_error d k = Some dk ->
  cell g i j k
  = Some (g_cell wavelen 0 0
            (mask_root (root_cell xdim ydim dx dy wavelen mi nj)) dk).
Proof.
  intros Hc Hk Hs Hi Hj Hd.
  assert (Hd' : nth_error (scale_d cfsp d) k
                = Some (dk / inject_Z cfsp)%Q).
  { unfold scale_d. pose proof Hc as Hc'. apply Z.ltb_lt in Hc'.
    rewrite Hc', nth_error_map, Hd, Z.abs_eq by lia. reflexivity. }
  destruct (kernel_cell xdim ydim dx dy wavelen d cfsp 0 mm nn i j k
              mi nj _ Hs Hi Hj Hd') as [g' [Hg' Hcell]].
  rewrite Hk in Hg'. injection Hg' as <-. rewrite Hcell. f_equal.
  set (r := mask_root (root_cell xdim ydim dx dy wavelen mi nj)).
  destruct (mask_root_real xdim ydim dx dy wavelen mi nj) as [Him Hre].
  fold r in Him, Hre.
  rewrite !g_cell_plain by (reflexivity || apply mask_root_ge0).
  pose proof Hc as Hc'. apply Z.ltb_lt in Hc'. rewrite Hc'.
  rewrite Z.ltb_irrefl.
  rewrite !phase_real_root by assumption.
  rewrite Cpow_cis, angle_cascade by exact Hc. reflexivity.
Qed.

Lemma cascaded_cell_is_uncascaded_phase_witness :
  exists g,
    kernel (2, 2) (1, 1)%Q 2 [1%Q] 2 0 = Ok g /\
    cell g 1 1 0
    = Some (g_cell 2 0 0
              (mask_root (root_cell 2 2 1 1 2 (0 # 2) (0 # 2))) 1).
Proof.
  destruct (kernel_shape 2 2 1 1 2 [1%Q] 2 0 (2 # 2) (2 # 2) eq_refl)
    as [g [Hg _]].
  exists g. split; [exact Hg|].
  apply (cascaded_cell_is_uncascaded_phase 2 2 1 1 2 [1%Q] 2 g
           (2 # 2) (2 # 2) 1 1 0 (0 # 2) (0 # 2) 1);
    try reflexivity. exact Hg.
Defined.

(** ** Backward propagation *)

Section Conjugate.

Local Open Scope Q_scope.

Lemma Qabs_opp_eq (q : Q) : Qabs (- q) = Qabs q.
Proof. destruct q as [a b]. unfold Qabs, Qopp. simpl. rewrite Z.abs_opp. reflexivity. Qed.

Lemma support_size_opp (dim : Z) (dx wavelen : Q) (d : list Q) :
  support_size dim dx wavelen (map Qopp d) = support_size dim dx wavelen d.
Proof.
  unfold support_size. rewrite map_map.
  f_equal. f_equal. apply map_ext. intros dk. rewrite Qabs_opp_eq. reflexivity.
Qed.

Lemma phase_opp (xdim ydim : Z) (dx dy wavelen m n d : Q) :
  let r := mask_root (root_cell xdim ydim dx dy wavelen m n) in
  phase wavelen (- d) r = Cconj (phase wavelen d r).
Proof.
  intros r. destruct (mask_root_real xdim ydim dx dy wavelen m n) as [Hi Hr].
  fold r in Hi, Hr.
  rewrite !phase_real_root by assumption.
  unfold angle. rewrite Q2R_opp.
  set (t := (2 * PI * Q2R d / Q2R wavelen * sqrt (Q2R (qRe r)))%R).
  replace (2 * PI * - Q2R d / Q2R wavelen * sqrt (Q2R (qRe r)))%R
    with (- t)%R by (unfold t, Rdiv; ring).
  rewrite cos_neg, sin_neg. unfold Cconj. simpl. apply C_eq; ring.
Qed.

End Conjugate.

(** X5: propagating backward is conjugating.  Without cascade and gradient
    filter, the kernel for the distances [-d] has the support of the kernel
    for [d] (the support is sized from [|d|]) and holds, cell by cell, its
    complex conjugate; both calls fail alike. *)
Theorem kernel_of_opposite_distances_is_conjugate (shape : Z * Z)
    (spacing : Q * Q) (wavelen : Q) (d : list Q) :
  kernel shape spacing wavelen (map Qopp d) 0 0
  = rbind (kernel shape spacing wavelen d 0 0)
          (fun g => Ok (map3 Cconj g)).
Proof.
  destruct shape as [xdim ydim], spacing as [dx dy].
  unfold kernel, support, half_widths.
  rewrite !scale_d_0, !support_size_opp.
  destruct (support_size xdim dx wavelen d) as [M|[]]; simpl;
    try reflexivity;
    [destruct (support_size ydim dy wavelen d) as [N|[]]; simpl;
       try reflexivity|];
    f_equal; unfold map3; rewrite map_map; apply map_ext; intros mi;
    rewrite map_map; apply map_ext; intros nj;
    rewrite !map_map; apply map_ext; intros dk;
    rewrite !g_cell_plain by (reflexivity || apply mask_root_ge0);
    rewrite Z.ltb_irrefl; apply phase_opp.
Qed.

(** ** The support shrinks with the distance *)

Section SupportMonotone.

Local Open Scope Q_scope.

Lemma numerator_pos (dim : Z) (dx : Q) :
  (0 < dim)%Z -> 0 < dx -> 0 < inject_Z (dim ^ 2) * dx ^ 2.
Proof.
  intros Hd Hx. apply Qmult_lt_0_compat.
  - replace 0 with (inject_Z 0) by reflexivity. rewrite <- Zlt_Qlt. nia.
  - simpl. apply Qmult_lt_0_compat; exact Hx.
Qed.

Lemma Qabs_pos (q : Q) : ~ q == 0 -> 0 < Qabs q.
Proof.
  intros E. destruct (proj1 (Qle_lteq _ _) (Qabs_nonneg q)) as [H|H];
    [exact H | exfalso; apply (Qabs_nonzero q E); symmetry; exact H].
Qed.

Lemma support_size_single (dim : Z) (dx wavelen d : Q) :
  (0 < dim)%Z -> 0 < dx -> 0 < wavelen ->
  support_size dim dx wavelen [d]
  = if Qeq_bool d 0 then Raise OverflowError
    else Ok (py_int (inject_Z (dim ^ 2) * dx ^ 2 / Qabs d / wavelen / 2)
             + 1)%Z.
Proof.
  intros Hd Hx Hw. unfold support_size. cbn [map].
  pose proof (numerator_pos dim dx Hd Hx) as Hn.
  set (num := inject_Z (dim ^ 2) * dx ^ 2) in *.
  destruct (Qeq_bool d 0) eqn:E.
  - apply Qeq_bool_iff in E.
    assert (Ez : Qeq_bool (Qabs d) 0 = true).
    { apply Qeq_bool_iff. rewrite E. reflexivity. }
    assert (Hz : xdiv (Fin num) (Qabs d) = PInf).
    { unfold xdiv. rewrite Ez, (Qpos_bool_true _ Hn). reflexivity. }
    rewrite Hz. simpl. rewrite (Qneg_bool_false _ Hw). reflexivity.
  - assert (Ed : ~ d == 0).
    { intros H. apply Qeq_bool_iff in H. congruence. }
    rewrite (xdiv_fin _ (Qabs d)) by (apply Qabs_nonzero, Ed).
    rewrite (xdiv_fin _ wavelen) by (intros Z0; rewrite Z0 in Hw; discriminate).
    rewrite xdiv_fin by discriminate. reflexivity.
Qed.

Lemma support_single (xdim ydim : Z) (dx dy wavelen d : Q) :
  (0 < xdim)%Z -> (0 < ydim)%Z -> 0 < dx -> 0 < dy -> 0 < wavelen ->
  support (xdim, ydim) (dx, dy) wavelen [d] 0
  = Ok (clamp xdim (single_half_width xdim dx wavelen d),
        clamp ydim (single_half_width ydim dy wavelen d)).
Proof.
  intros Hx Hy Hdx Hdy Hw. unfold support, half_widths, single_half_width.
  rewrite scale_d_0, !support_size_single by assumption.
  destruct (Qeq_bool d 0); reflexivity.
Qed.

Lemma clamp_le_half (dim : Z) (a : Q) : clamp dim a <= inject_Z dim / 2.
Proof.
  unfold clamp, Qdiv. apply Qmult_le_compat_r; [apply Q.le_min_l | discriminate].
Qed.

Lemma clamp_half (dim : Z) : clamp dim (inject_Z dim / 2) == inject_Z dim / 2.
Proof.
  unfold clamp.
  assert (Hm : Qmin (inject_Z dim) (inject_Z dim / 2 * 2) == inject_Z dim).
  { apply Q.min_l. apply Qle_lteq. right. field. }
  rewrite Hm. reflexivity.
Qed.

Lemma clamp_mono (dim : Z) (a b : Q) : a <= b -> clamp dim a <= clamp dim b.
Proof.
  intros H. unfold clamp, Qdiv.
  apply Qmult_le_compat_r; [|discriminate].
  apply Q.min_le_compat_l. apply Qmult_le_compat_r; [exact H | discriminate].
Qed.

Lemma py_int_mono (p q : Q) : 0 <= p -> p <= q -> (py_int p <= py_int q)%Z.
Proof.
  intros Hp Hpq. unfold py_int.
  assert (E1 : Qle_bool 0 p = true) by (apply Qle_bool_iff, Hp).
  assert (E2 : Qle_bool 0 q = true)
    by (apply Qle_bool_iff; eapply Qle_trans; eassumption).
  rewrite E1, E2. apply Qfloor_resp_le, Hpq.
Qed.

(** The quantity handed to [int] decreases when [|d|] grows. *)
Lemma entry_mono (num wavelen a1 a2 : Q) :
  0 < num -> 0 < wavelen -> 0 < a1 -> a1 <= a2 ->
  0 <= num / a2 / wavelen / 2 /\
  num / a2 / wavelen / 2 <= num / a1 / wavelen / 2.
Proof.
  intros Hn Hw H1 H12.
  assert (H2 : 0 < a2) by (eapply Qlt_le_trans; eassumption).
  split.
  - apply Qdiv_nonneg; [|reflexivity]. apply Qdiv_nonneg; [|exact Hw].
    apply Qdiv_nonneg; [apply Qlt_le_weak, Hn | exact H2].
  - apply Rle_Qle.
    assert (N1 : ~ a1 == 0) by (intros E; rewrite E in H1; discriminate).
    assert (N2 : ~ a2 == 0) by (intros E; rewrite E in H2; discriminate).
    assert (Nw : ~ wavelen == 0)
      by (intros E; rewrite E in Hw; discriminate).
    rewrite !Q2R_div by (assumption || discriminate).
    apply Qlt_Rlt in Hn, Hw, H1, H2. apply Qle_Rle in H12.
    rewrite Q2R_zero in Hn, Hw, H1, H2.
    set (N := Q2R num) in *. set (L := Q2R wavelen) in *.
    set (A1 := Q2R a1) in *. set (A2 := Q2R a2) in *.
    assert (Hi : (/ A2 <= / A1)%R) by (apply Rinv_le_contravar; assumption).
    assert (HL : (0 < / L)%R) by (apply Rinv_0_lt_compat, Hw).
    assert (H2' : (0 < / Q2R 2)%R).
    { apply Rinv_0_lt_compat. unfold Q2R. simpl. lra. }
    unfold Rdiv.
    apply Rmult_le_compat_r; [lra|].
    apply Rmult_le_compat_r; [lra|].
    apply Rmult_le_compat_l; [lra | exact Hi].
Qed.

Lemma single_half_width_mono (dim : Z) (dx wavelen d1 d2 : Q) :
  (0 < dim)%Z -> 0 < dx -> 0 < wavelen -> Qabs d1 <= Qabs d2 ->
  clamp dim (single_half_width dim dx wavelen d2)
  <= clamp dim (single_half_width dim dx wavelen d1).
Proof.
  intros Hd Hx Hw H12. unfold single_half_width.
  destruct (Qeq_bool d2 0) eqn:E2.
  - apply Qeq_bool_iff in E2.
    assert (E1 : Qeq_bool d1 0 = true).
    { apply Qeq_bool_iff.
      destruct (Qeq_dec d1 0) as [E|E]; [exact E|exfalso].
      pose proof (Qabs_pos d1 E) as P. rewrite E2 in H12.
      exact (Qlt_not_le _ _ P H12). }
    rewrite E1. apply Qle_refl.
  - destruct (Qeq_bool d1 0) eqn:E1.
    + rewrite clamp_half. apply clamp_le_half.
    + assert (N1 : ~ d1 == 0)
        by (intros H; apply Qeq_bool_iff in H; congruence).
      destruct (entry_mono (inject_Z (dim ^ 2) * dx ^ 2) wavelen
                  (Qabs d1) (Qabs d2)) as [P0 P1];
        [apply numerator_pos; assumption | exact Hw
        | apply Qabs_pos, N1 | exact H12 |].
      apply clamp_mono. rewrite <- Zle_Qle.
      pose proof (py_int_mono _ _ P0 P1). lia.
Qed.

End SupportMonotone.

(** X6: the support shrinks as the distance grows.  For one image (positive
    shape, spacing and wavelength) and two single distances with
    [|d1| <= |d2|], the clamped half-widths [trans_func] computes for [d2]
    are at most those for [d1], and those never exceed half the image. *)
Theorem support_shrinks_with_distance (xdim ydim : Z) (dx dy wavelen : Q)
    (d1 d2 : Q) (m1 n1 m2 n2 : Q) :
  (0 < xdim)%Z -> (0 < ydim)%Z ->
  (0 < dx)%Q -> (0 < dy)%Q -> (0 < wavelen)%Q ->
  (Qabs d1 <= Qabs d2)%Q ->
  support (xdim, ydim) (dx, dy) wavelen [d1] 0 = Ok (m1, n1) ->
  support (xdim, ydim) (dx, dy) wavelen [d2] 0 = Ok (m2, n2) ->
  (m2 <= m1 /\ n2 <= n1 /\
   m1 <= inject_Z xdim / 2 /\ n1 <= inject_Z ydim / 2)%Q.
Proof.
  intros Hx Hy Hdx Hdy Hw H12 S1 S2.
  rewrite support_single in S1, S2 by assumption.
  injection S1 as <- <-. injection S2 as <- <-.
  repeat split.
  - apply single_half_width_mono; assumption.
  - apply single_half_width_mono; assumption.
  - apply clamp_le_half.
  - apply clamp_le_half.
Qed.

Lemma support_shrinks_with_distance_witness :
  ((2 # 2) <= (6 # 2) /\ (2 # 2) <= (6 # 2) /\
   (6 # 2) <= inject_Z 8 / 2 /\ (6 # 2) <= inject_Z 8 / 2)%Q.
Proof.
  apply (support_shrinks_with_distance 8 8 1 1 1 (-15) 40
           (6 # 2) (6 # 2) (2 # 2) (2 # 2)); try reflexivity.
  discriminate.
Defined.

(** ** The rank of the returned kernel *)

Section SqueezedKernel.

Lemma squeeze_one_slice {A : Type} (d0 : A) (a : arr3 A) (m n : nat) :
  rect3 m n 1 a -> (2 <= m)%nat -> (2 <= n)%nat ->
  np_squeeze d0 a = Nd2 (map (map (the d0)) a) /\
  rect2 m n (map (map (the d0)) a).
Proof.
  intros Ha Hm Hn. split.
  - unfold np_squeeze.
    assert (S0 : shape0 a = m) by apply Ha.
    rewrite S0, (rect3_shape1 a m n 1) by (lia || exact Ha).
    rewrite (rect3_shape2 a m n 1) by (lia || exact Ha).
    destruct (Nat.eqb_spec m 1); [lia|]. destruct (Nat.eqb_spec n 1); [lia|].
    reflexivity.
  - destruct Ha as [L R]. split; [rewrite length_map; exact L|].
    apply Forall_map. eapply Forall_impl; [exact R|].
    intros r [Lr _]. rewrite length_map. exact Lr.
Qed.

End SqueezedKernel.

(** X7: the rank of what [trans_func] returns with [squeeze=True], on an
    image with at least two samples per axis and positive spacing and
    wavelength.  For a single distance it is a 2-d array, rectangular, with
    between 2 and the image's number of samples along each axis; for two
    or more distances squeezing removes nothing and the result is the 3-d
    kernel itself. *)
Theorem trans_func_squeeze_rank (m n : nat) (dx dy wavelen : Q)
    (d : list Q) (cfsp : Z) (gf : Q) :
  (2 <= m)%nat -> (2 <= n)%nat ->
  (0 < dx)%Q -> (0 < dy)%Q -> (0 < wavelen)%Q ->
  (length d = 1%nat ->
   exists a kx ky,
     trans_func (Z.of_nat m, Z.of_nat n) (dx, dy) wavelen d cfsp true gf
     = Ok (Nd2 a) /\
     rect2 kx ky a /\ (2 <= kx <= m)%nat /\ (2 <= ky <= n)%nat) /\
  ((2 <= length d)%nat ->
   exists g,
     trans_func (Z.of_nat m, Z.of_nat n) (dx, dy) wavelen d cfsp true gf
     = Ok (Nd3 g) /\
     trans_func (Z.of_nat m, Z.of_nat n) (dx, dy) wavelen d cfsp false gf
     = Ok (Nd3 g)).
Proof.
  intros Hm Hn Hdx Hdy Hw. split; intros Hd.
  - destruct (kernel_valid_cascade m n dx dy wavelen d cfsp gf)
      as [G [kx [ky [HG [RG [Bx By]]]]]]; try assumption; try lia.
    { intros ->. discriminate. }
    rewrite Hd in RG.
    destruct (squeeze_one_slice C0 G kx ky RG) as [Es Rs]; try lia.
    unfold trans_func. rewrite HG. simpl. rewrite Es.
    exists (map (map (the C0)) G), kx, ky.
    split; [reflexivity|]. split; [exact Rs|]. lia.
  - destruct (kernel_valid_cascade m n dx dy wavelen d cfsp gf)
      as [G [kx [ky [HG [RG [Bx By]]]]]]; try assumption; try lia.
    { intros ->. simpl in Hd. lia. }
    unfold trans_func. rewrite HG. simpl. exists G. split; [|reflexivity].
    rewrite (squeeze_3d C0 G kx ky (length d)); try assumption; try lia.
    reflexivity.
Qed.

Lemma trans_func_squeeze_rank_witness :
  (length [5%Q] = 1%nat ->
   exists a kx ky,
     trans_func (Z.of_nat 4, Z.of_nat 6) (1, 1)%Q 1 [5%Q] 0 true 0
     = Ok (Nd2 a) /\
     rect2 kx ky a /\ (2 <= kx <= 4)%nat /\ (2 <= ky <= 6)%nat) /\
  ((2 <= length [5%Q])%nat ->
   exists g,
     trans_func (Z.of_nat 4, Z.of_nat 6) (1, 1)%Q 1 [5%Q] 0 true 0
     = Ok (Nd3 g) /\
     trans_func (Z.of_nat 4, Z.of_nat 6) (1, 1)%Q 1 [5%Q] 0 false 0
     = Ok (Nd3 g)).
Proof.
  apply (trans_func_squeeze_rank 4 6 1 1 1 [5%Q] 0 0); (lia || reflexivity).
Defined.

(** ** apply_trans_func: success, shape and failure *)

(** X8: when the kernel fits in the spectrum (at least one row, no more
    rows and columns than the spectrum, the same number of distance
    slices) the call succeeds, returns its first argument, and the
    spectrum object keeps its shape. *)
Theorem apply_trans_func_keeps_shape {A : Type} (zero : A)
    (mul : A -> A -> A) (ft G : ref) (h : gmap positive (arr3 A))
    (m n d kx ky : nat) :
  rect3 m n d (content h ft) -> rect3 kx ky d (content h G) ->
  (1 <= kx)%nat -> (kx <= m)%nat -> (ky <= n)%nat ->
  exists h',
    apply_trans_func zero mul ft G h = Ok (ft, h') /\
    rect3 m n d (content h' ft).
Proof.
  intros Hf Hg Hk1 Hkm Hkn.
  destruct (filtered_pres zero mul _ _ m n d kx ky Hf Hg Hk1 Hkm Hkn)
    as [r [E Hr]].
  rewrite apply_trans_func_run, E. eexists. split; [reflexivity|].
  rewrite content_insert. exact Hr.
Qed.

Lemma apply_trans_func_keeps_shape_witness :
  exists h',
    apply_trans_func 0%Z Z.mul 1%positive 2%positive
      (two_arrays (ones 5 8 2) (ones 2 4 2)) = Ok (1%positive, h') /\
    rect3 5 8 2 (content h' 1%positive).
Proof.
  apply (apply_trans_func_keeps_shape 0%Z Z.mul 1%positive 2%positive
           (two_arrays (ones 5 8 2) (ones 2 4 2)) 5 8 2 2 4);
    try lia; split; try reflexivity; repeat constructor.
Defined.

Section TooLarge.

Context {A : Type} (zero : A) (mul : A -> A -> A).

Lemma bcast_mismatch {X Y : Type} (f : X -> Y -> result X)
    (xs : list X) (ys : list Y) :
  length ys <> length xs -> (2 <= length ys)%nat ->
  bcast f xs ys = Raise ValueError.
Proof.
  intros Hne H2. unfold bcast.
  destruct (Nat.eqb_spec (length ys) (length xs)); [contradiction|].
  destruct ys as [|y [|y' ys]]; simpl in H2; try lia; reflexivity.
Qed.

Lemma length_get_slice_le {X : Type} (i j : nat) (l : list X) :
  (length (get_slice i j l) <= length l)%nat.
Proof. unfold get_slice. rewrite length_firstn, length_skipn. lia. Qed.

Lemma filtered_too_many_rows (ft G : arr3 A) (m kx : nat) :
  length ft = m -> length G = kx -> (m < kx)%nat -> (2 <= kx)%nat ->
  filtered zero mul ft G = Raise ValueError.
Proof.
  intros Lf Lg Hlt H2. unfold filtered, imul_window.
  set (rows := get_slice _ _ ft).
  assert (Eg : slice_bound (shape0 G)
                 ((inject_Z (Z.of_nat (shape0 G)) / 2 * 2)%Q) = kx).
  { unfold shape0. rewrite Lg.
    rewrite (slice_bound_nat kx _ kx); [apply Nat.min_id | field]. }
  rewrite Eg, (get_slice_len kx G Lg).
  unfold imul_view. rewrite bcast_mismatch; [reflexivity | |].
  - rewrite !length_map, Lg. pose proof (length_get_slice_le
      (slice_bound (shape0 ft)
        (inject_Z (Z.of_nat (shape0 ft)) / 2
         - inject_Z (Z.of_nat (shape0 G)) / 2)%Q)
      (slice_bound (shape0 ft)
        (inject_Z (Z.of_nat (shape0 ft)) / 2
         + inject_Z (Z.of_nat (shape0 G)) / 2)%Q) ft) as Hle.
    fold rows in Hle. lia.
  - rewrite length_map, Lg. exact H2.
Qed.

End TooLarge.

(** X9: a kernel with more rows than the spectrum (and at least two rows)
    is rejected: the in-place product of the window and the kernel has
    mismatched shapes, the call raises [ValueError], and nothing has been
    written. *)
Theorem apply_trans_func_kernel_too_large {A : Type} (zero : A)
    (mul : A -> A -> A) (ft G : ref) (h : gmap positive (arr3 A))
    (m kx : nat) :
  length (content h ft) = m -> length (content h G) = kx ->
  (m < kx)%nat -> (2 <= kx)%nat ->
  apply_trans_func zero mul ft G h = Raise ValueError.
Proof.
  intros Lf Lg Hlt H2.
  rewrite apply_trans_func_run,
    (filtered_too_many_rows zero mul _ _ m kx Lf Lg Hlt H2).
  reflexivity.
Qed.

Lemma apply_trans_func_kernel_too_large_witness :
  apply_trans_func 0%Z Z.mul 1%positive 2%positive
    (two_arrays (ones 2 2 1) (ones 4 4 1)) = Raise ValueError.
Proof.
  apply (apply_trans_func_kernel_too_large 0%Z Z.mul 1%positive 2%positive
           (two_arrays (ones 2 2 1) (ones 4 4 1)) 2 4);
    (reflexivity || lia).
Defined.

(** ** apply_trans_func, cell by cell *)

Section CellSemantics.

Context {A : Type} (zero : A) (mul : A -> A -> A).

Lemma nth_error_set_slice {X : Type} (i0 i1 : nat) (new l : list X)
    (i : nat) :
  (i0 <= i1)%nat -> (i1 <= length l)%nat -> length new = (i1 - i0)%nat ->
  nth_error (set_slice i0 i1 new l) i
  = if (i <? i0)%nat then nth_error l i
    else if (i <? i1)%nat then nth_error new (i - i0)
    else nth_error l i.
Proof.
  intros H01 H1 Hn. unfold set_slice.
  assert (Lf : length (firstn i0 l) = i0) by (rewrite length_firstn; lia).
  destruct (Nat.ltb_spec i i0) as [Hlt|Hge].
  - rewrite nth_error_app1 by lia.
    rewrite nth_error_firstn.
    destruct (Nat.ltb_spec i i0); [reflexivity | lia].
  - rewrite nth_error_app2 by lia. rewrite Lf.
    destruct (Nat.ltb_spec i i1) as [Hlt1|Hge1].
    + rewrite nth_error_app1 by lia. reflexivity.
    + rewrite nth_error_app2 by lia. rewrite nth_error_skipn, Hn.
      f_equal. lia.
Qed.

Lemma nth_error_get_slice {X : Type} (i0 i1 : nat) (l : list X) (u : nat) :
  (u < i1 - i0)%nat ->
  nth_error (get_slice i0 i1 l) u = nth_error l (i0 + u).
Proof.
  intros Hu. unfold get_slice. rewrite nth_error_firstn.
  destruct (Nat.ltb_spec u (i1 - i0)); [|lia]. apply nth_error_skipn.
Qed.

(** Assigning zero to a slice that may be empty or reversed. *)
Lemma nth_error_zeroed {X : Type} (F : X -> X) (i0 i1 : nat) (l : list X)
    (i : nat) :
  (i0 <= length l)%nat -> (i1 <= length l)%nat ->
  nth_error (set_slice i0 i1 (map F (get_slice i0 i1 l)) l) i
  = if ((i0 <=? i) && (i <? i1))%nat then option_map F (nth_error l i)
    else nth_error l i.
Proof.
  intros H0 H1.
  destruct (Nat.le_gt_cases i0 i1) as [H01|H10].
  - rewrite nth_error_set_slice;
      [| exact H01 | exact H1
       | rewrite length_map; apply length_get_slice, H1].
    destruct (Nat.ltb_spec i i0), (Nat.leb_spec i0 i); try lia; simpl;
      [reflexivity|].
    destruct (Nat.ltb_spec i i1); [|reflexivity].
    rewrite nth_error_map, nth_error_get_slice by lia.
    do 2 f_equal. lia.
  - unfold set_slice, get_slice.
    replace (i1 - i0)%nat with 0%nat by lia. simpl.
    rewrite Nat.add_0_r, firstn_skipn.
    destruct (Nat.leb_spec i0 i), (Nat.ltb_spec i i1); try lia; reflexivity.
Qed.

Lemma cell_zero_rows (a : arr3 A) (q1 q2 : Q) (i j c : nat) :
  cell (zero_rows zero a q1 q2) i j c
  = if ((slice_bound (shape0 a) q1 <=? i)
        && (i <? slice_bound (shape0 a) q2))%nat
    then zeroed zero (cell a i j c) else cell a i j c.
Proof.
  unfold cell, zero_rows, zeroed.
  rewrite nth_error_zeroed by apply slice_bound_le.
  destruct ((slice_bound (shape0 a) q1 <=? i)
            && (i <? slice_bound (shape0 a) q2))%nat; [|reflexivity].
  destruct (nth_error a i) as [row|]; simpl; [|reflexivity].
  rewrite nth_error_map.
  destruct (nth_error row j) as [col|]; simpl; [|reflexivity].
  unfold zeros_like. apply nth_error_map.
Qed.

Lemma cell_zero_cols (a : arr3 A) (m n d : nat) (q1 q2 : Q) (i j c : nat) :
  rect3 m n d a ->
  cell (zero_cols zero a q1 q2) i j c
  = if ((slice_bound (shape1 a) q1 <=? j)
        && (j <? slice_bound (shape1 a) q2))%nat
    then zeroed zero (cell a i j c) else cell a i j c.
Proof.
  intros [L R]. unfold cell, zero_cols, zeroed.
  rewrite nth_error_map.
  destruct (nth_error a i) as [row|] eqn:Ei; simpl;
    [|destruct (_ && _)%bool; reflexivity].
  assert (Lr : length row = shape1 a).
  { assert (Hrow : rect2 n d row).
    { eapply (proj1 (List.Forall_forall _ _)); [exact R|].
      eapply nth_error_In, Ei. }
    destruct a as [|r0 a]; [destruct i; discriminate|].
    inversion R as [|? ? Hr0 _]; subst.
    unfold shape1. simpl. destruct Hrow as [-> _]. symmetry. apply Hr0. }
  rewrite nth_error_zeroed by (rewrite Lr; apply slice_bound_le).
  destruct ((slice_bound (shape1 a) q1 <=? j)
            && (j <? slice_bound (shape1 a) q2))%nat; [|reflexivity].
  destruct (nth_error row j) as [col|]; simpl; [|reflexivity].
  unfold zeros_like. apply nth_error_map.
Qed.

End CellSemantics.

Section WindowCells.

Context {A : Type} (zero : A) (mul : A -> A -> A).

Lemma nth_error_combine {X Y : Type} (l : list X) (l' : list Y) (u : nat) :
  nth_error (combine l l') u
  = match nth_error l u, nth_error l' u with
    | Some a, Some b => Some (a, b)
    | _, _ => None
    end.
Proof.
  revert l' u. induction l as [|x l IH]; intros [|y l'] [|u]; simpl;
    try reflexivity.
  - destruct (nth_error l u); reflexivity.
  - apply IH.
Qed.

Lemma zip_with_r_nth {X Y : Type} (f : X -> Y -> result X)
    (xs : list X) (ys : list Y) (r : list X) (u : nat) (x : X) :
  zip_with_r f xs ys = Ok r -> length xs = length ys ->
  nth_error xs u = Some x ->
  exists y x', nth_error ys u = Some y /\ nth_error r u = Some x' /\
               f x y = Ok x'.
Proof.
  revert ys r u. induction xs as [|x0 xs IH]; intros [|y0 ys] r u E L Hx;
    simpl in *; try discriminate.
  - destruct u; discriminate.
  - destruct (f x0 y0) as [x0'|e] eqn:E0; simpl in E; [|discriminate].
    destruct (zip_with_r f xs ys) as [tl|e] eqn:Et; simpl in E;
      [|discriminate].
    injection E as <-. destruct u as [|u]; simpl in *.
    + injection Hx as <-. exists y0, x0'. auto.
    + apply (IH ys tl u Et); [lia | exact Hx].
Qed.

Lemma bcast_nth {X Y : Type} (f : X -> Y -> result X)
    (xs : list X) (ys : list Y) (r : list X) (u : nat) (x : X) :
  bcast f xs ys = Ok r -> length xs = length ys ->
  nth_error xs u = Some x ->
  exists y x', nth_error ys u = Some y /\ nth_error r u = Some x' /\
               f x y = Ok x'.
Proof.
  intros E L. unfold bcast in E. rewrite <- L, Nat.eqb_refl in E.
  apply zip_with_r_nth; assumption.
Qed.

(** A cell of the product of two views of one shape. *)
Lemma imul_view_cell (lhs rhs new : arr3 A) (a b d : nat) (u v c : nat)
    (x : A) :
  rect3 a b d lhs -> rect3 a b d rhs ->
  imul_view mul lhs rhs = Ok new ->
  cell lhs u v c = Some x ->
  exists y, cell rhs u v c = Some y /\ cell new u v c = Some (mul x y).
Proof.
  intros [Ll Rl] [Lr Rr] E Hc. unfold cell in *.
  destruct (nth_error lhs u) as [row|] eqn:Eu; [|discriminate].
  destruct (nth_error row v) as [col|] eqn:Ev; [|discriminate].
  destruct (bcast_nth _ lhs rhs new u row E (eq_trans Ll (eq_sym Lr)) Eu)
    as [grow [nrow [Eg [En E2]]]].
  rewrite Eg, En.
  assert (Prow : rect2 b d row).
  { eapply (proj1 (List.Forall_forall _ _)); [exact Rl|].
    eapply nth_error_In, Eu. }
  assert (Pgrow : rect2 b d grow).
  { eapply (proj1 (List.Forall_forall _ _)); [exact Rr|].
    eapply nth_error_In, Eg. }
  destruct Prow as [Lrow Rrow]. destruct Pgrow as [Lgrow Rgrow].
  destruct (bcast_nth _ row grow nrow v col E2
              (eq_trans Lrow (eq_sym Lgrow)) Ev)
    as [gcol [ncol [Egc [Enc E3]]]].
  rewrite Egc, Enc.
  assert (Lcol : length col = d).
  { eapply (proj1 (List.Forall_forall _ _) Rrow). eapply nth_error_In, Ev. }
  assert (Lgcol : length gcol = d).
  { eapply (proj1 (List.Forall_forall _ _) Rgrow). eapply nth_error_In, Egc. }
  destruct (bcast_nth _ col gcol ncol c x E3
              (eq_trans Lcol (eq_sym Lgcol)) Hc)
    as [y [x' [Ey [Ex' E4]]]].
  injection E4 as <-. exists y. split; assumption.
Qed.

End WindowCells.

Section WindowSemantics.

Context {A : Type} (zero : A) (mul : A -> A -> A).

Local Open Scope Q_scope.

(** The two bounds of the centered window, as a sum. *)
Lemma window_bounds_sum (m K : nat) :
  (K <= m)%nat ->
  let qm := inject_Z (Z.of_nat m) in
  let qk := inject_Z (Z.of_nat K) in
  (slice_bound m (qm / 2 + qk / 2)
   = slice_bound m (qm / 2 - qk / 2) + K)%nat /\
  (slice_bound m (qm / 2 + qk / 2) <= m)%nat.
Proof.
  intros HK qm qk.
  assert (Elo : qm / 2 - qk / 2 == inject_Z (Z.of_nat m - Z.of_nat K) / 2).
  { unfold qm, qk. unfold Zminus. rewrite inject_Z_plus, inject_Z_opp. field. }
  assert (Ehi : qm / 2 + qk / 2 == inject_Z (Z.of_nat m + Z.of_nat K) / 2).
  { unfold qm, qk. rewrite inject_Z_plus. field. }
  unfold slice_bound.
  assert (Plo : (0 <= Z.of_nat m - Z.of_nat K)%Z) by lia.
  assert (Phi : (0 <= Z.of_nat m + Z.of_nat K)%Z) by lia.
  rewrite (py_int_half _ _ Plo Elo), (py_int_half _ _ Phi Ehi).
  set (a := ((Z.of_nat m - Z.of_nat K) / 2)%Z).
  assert (Ha : (0 <= a)%Z) by (apply Z.div_pos; lia).
  assert (Ha2 : (2 * a <= Z.of_nat m - Z.of_nat K)%Z)
    by (apply Z.mul_div_le; lia).
  assert (Hhi : ((Z.of_nat m + Z.of_nat K) / 2 = a + Z.of_nat K)%Z).
  { unfold a. rewrite <- Z.div_add by lia. f_equal. lia. }
  rewrite Hhi.
  destruct (a <? 0)%Z eqn:E1; [apply Z.ltb_lt in E1; lia|].
  destruct (a + Z.of_nat K <? 0)%Z eqn:E2; [apply Z.ltb_lt in E2; lia|].
  lia.
Qed.

(** After [ft[window] *= G]: inside the window a cell holds its product
    with the kernel cell at the same offset into the window, outside it is
    what it was. *)
Lemma imul_window_cell (ft G W : arr3 A) (m n d kx ky : nat)
    (i j c : nat) (x : A) :
  rect3 m n d ft -> rect3 kx ky d G ->
  (1 <= kx)%nat -> (kx <= m)%nat -> (ky <= n)%nat ->
  let qm := inject_Z (Z.of_nat m) in
  let qn := inject_Z (Z.of_nat n) in
  let mm := inject_Z (Z.of_nat kx) / 2 in
  let nn := inject_Z (Z.of_nat ky) / 2 in
  let i0 := slice_bound m (qm / 2 - mm) in
  let i1 := slice_bound m (qm / 2 + mm) in
  let j0 := slice_bound n (qn / 2 - nn) in
  let j1 := slice_bound n (qn / 2 + nn) in
  imul_window mul ft (qm / 2 - mm) (qm / 2 + mm) (qn / 2 - nn) (qn / 2 + nn)
              G (mm * 2) (nn * 2) = Ok W ->
  cell ft i j c = Some x ->
  if ((i0 <=? i) && (i <? i1) && (j0 <=? j) && (j <? j1))%nat
  then exists y, cell G (i - i0) (j - j0) c = Some y /\
                 cell W i j c = Some (mul x y)
  else cell W i j c = Some x.
Proof.
  intros Hf Hg Hk1 Hkm Hkn qm qn mm nn i0 i1 j0 j1 E Hc.
  pose proof (rect3_shape1 ft m n d ltac:(lia) Hf) as Sf1.
  pose proof (rect3_shape1 G kx ky d Hk1 Hg) as Sg1.
  destruct Hf as [Lf Rf]. destruct Hg as [Lg Rg].
  assert (Sf0 : shape0 ft = m) by exact Lf.
  assert (Sg0 : shape0 G = kx) by exact Lg.
  unfold imul_window in E. rewrite Sf0, Sf1, Sg0, Sg1 in E.
  destruct (window_bounds_sum m kx Hkm) as [Si Bi].
  destruct (window_bounds_sum n ky Hkn) as [Sj Bj].
  fold qm mm i0 i1 in Si, Bi. fold qn nn j0 j1 in Sj, Bj.
  fold i0 i1 j0 j1 in E.
  assert (Ea : slice_bound kx (mm * 2) = kx).
  { rewrite (slice_bound_nat kx _ kx); [apply Nat.min_id | unfold mm; field]. }
  assert (Eb : slice_bound ky (nn * 2) = ky).
  { rewrite (slice_bound_nat ky _ ky); [apply Nat.min_id | unfold nn; field]. }
  rewrite Ea, Eb in E.
  assert (EG : map (get_slice 0 ky) (get_slice 0 kx G) = G).
  { rewrite (get_slice_len kx G Lg). apply map_id_Forall.
    eapply Forall_impl; [exact Rg|]. intros r [Lr _].
    apply get_slice_len, Lr. }
  rewrite EG in E.
  set (rows := get_slice i0 i1 ft) in *.
  assert (Hl : rect3 kx ky d (map (get_slice j0 j1) rows)).
  { split.
    - unfold rows. rewrite length_map, length_get_slice by (rewrite Lf; exact Bi).
      lia.
    - apply Forall_map. eapply Forall_impl;
        [apply Forall_get_slice, Rf|].
      intros r [Lr Rr]. split.
      + rewrite length_get_slice by (rewrite Lr; exact Bj). lia.
      + apply Forall_get_slice, Rr. }
  destruct (imul_view_pres mul _ G kx ky d Hl (conj Lg Rg))
    as [new [En Rnew]].
  rewrite En in E. simpl in E. injection E as <-.
  unfold cell in Hc.
  destruct (nth_error ft i) as [row|] eqn:Ei; [|discriminate].
  destruct (nth_error row j) as [col|] eqn:Ej; [|discriminate].
  assert (Prow : rect2 n d row).
  { eapply (proj1 (List.Forall_forall _ _)); [exact Rf|].
    eapply nth_error_In, Ei. }
  destruct Prow as [Lrow Rrow].
  destruct Rnew as [Lnew Rnew'].
  unfold cell at 2 3.
  rewrite nth_error_set_slice;
    [| lia | rewrite Lf; exact Bi |].
  2:{ rewrite length_map, length_combine, Lnew. unfold rows.
      rewrite length_get_slice by (rewrite Lf; exact Bi). lia. }
  destruct (Nat.leb_spec i0 i) as [Hi0|Hi0];
    destruct (Nat.ltb_spec i i0) as [Hi0'|Hi0']; try lia; simpl.
  2:{ rewrite Ei, Ej. exact Hc. }
  destruct (Nat.ltb_spec i i1) as [Hi1|Hi1]; simpl.
  2:{ rewrite Ei, Ej. exact Hc. }
  (* the row lies in the window *)
  assert (Erow : nth_error rows (i - i0) = Some row).
  { unfold rows. rewrite nth_error_get_slice by lia.
    replace (i0 + (i - i0))%nat with i by lia. exact Ei. }
  destruct (nth_error new (i - i0)) as [nrow|] eqn:Enr.
  2:{ apply nth_error_None in Enr. lia. }
  assert (Pn : rect2 ky d nrow).
  { eapply (proj1 (List.Forall_forall _ _)); [exact Rnew'|].
    eapply nth_error_In, Enr. }
  destruct Pn as [Lnrow Rnrow].
  rewrite nth_error_map, nth_error_combine, Enr, Erow. simpl.
  rewrite nth_error_set_slice; [| lia | rewrite Lrow; exact Bj | lia].
  destruct (Nat.leb_spec j0 j) as [Hj0|Hj0];
    destruct (Nat.ltb_spec j j0) as [Hj0'|Hj0']; try lia; simpl.
  2:{ rewrite Ej. exact Hc. }
  destruct (Nat.ltb_spec j j1) as [Hj1|Hj1]; simpl.
  2:{ rewrite Ej. exact Hc. }
  (* the column lies in the window *)
  assert (Hlc : cell (map (get_slice j0 j1) rows) (i - i0) (j - j0) c
                = Some x).
  { unfold cell. rewrite nth_error_map, Erow. simpl.
    rewrite nth_error_get_slice by lia.
    replace (j0 + (j - j0))%nat with j by lia. rewrite Ej. exact Hc. }
  destruct (imul_view_cell mul _ G new kx ky d _ _ _ x Hl (conj Lg Rg) En Hlc)
    as [y [Ey Enew]].
  exists y. split; [exact Ey|].
  unfold cell in Enew. rewrite Enr in Enew. exact Enew.
Qed.

End WindowSemantics.

Section SquareFilter.

Context {A : Type} (zero : A) (mul : A -> A -> A).

Local Open Scope Q_scope.

Lemma cell_bounds (a : arr3 A) (m n d : nat) (i j c : nat) (x : A) :
  rect3 m n d a -> cell a i j c = Some x -> (i < m /\ j < n /\ c < d)%nat.
Proof.
  intros [L R] Hc. unfold cell in Hc.
  destruct (nth_error a i) as [row|] eqn:Ei; [|discriminate].
  destruct (nth_error row j) as [col|] eqn:Ej; [|discriminate].
  assert (Prow : rect2 n d row).
  { eapply (proj1 (List.Forall_forall _ _)); [exact R|].
    eapply nth_error_In, Ei. }
  destruct Prow as [Lrow Rrow].
  assert (Lcol : length col = d).
  { eapply (proj1 (List.Forall_forall _ _) Rrow). eapply nth_error_In, Ej. }
  assert (Hi : (i < length a)%nat) by (apply nth_error_Some; congruence).
  assert (Hj : (j < length row)%nat) by (apply nth_error_Some; congruence).
  assert (Hk : (c < length col)%nat) by (apply nth_error_Some; congruence).
  lia.
Qed.

(** The contents of a square spectrum after the filter with a square
    kernel. *)
Lemma filtered_square_cell (ft G : arr3 A) (m k d : nat) (i j c : nat)
    (x : A) :
  rect3 m m d ft -> rect3 k k d G -> (1 <= k)%nat -> (k <= m)%nat ->
  cell ft i j c = Some x ->
  let i0 := slice_bound m (inject_Z (Z.of_nat m) / 2
                           - inject_Z (Z.of_nat k) / 2) in
  exists r, filtered zero mul ft G = Ok r /\ rect3 m m d r /\
    cell r i j c
    = if in_support m m k k i j
      then cell_mul mul (Some x) (cell G (i - i0) (j - i0) c)
      else Some zero.
Proof.
  intros Hf Hg Hk1 Hkm Hc i0.
  destruct (cell_bounds ft m m d i j c x Hf Hc) as [Bi [Bj Bc]].
  unfold filtered.
  rewrite (rect3_shape1 ft m m d ltac:(lia) Hf),
    (rect3_shape1 G k k d Hk1 Hg).
  replace (shape0 ft) with m by (symmetry; apply Hf).
  replace (shape0 G) with k by (symmetry; apply Hg).
  destruct (imul_window_pres mul ft G m m d k k Hf Hg Hk1 Hkm Hkm)
    as [W [EW RW]].
  pose proof (imul_window_cell mul ft G W m m d k k i j c x
                Hf Hg Hk1 Hkm Hkm EW Hc) as HW.
  cbv zeta in HW. fold i0 in HW.
  rewrite EW. simpl.
  set (qm := inject_Z (Z.of_nat m)) in *.
  set (mm := inject_Z (Z.of_nat k) / 2) in *.
  set (a1 := zero_rows zero W 0 (qm / 2 - mm)).
  set (a2 := zero_rows zero a1 (qm / 2 + mm) qm).
  set (a3 := zero_cols zero a2 0 (qm / 2 - mm)).
  assert (R1 : rect3 m m d a1) by apply zero_rows_pres, RW.
  assert (R2 : rect3 m m d a2) by apply zero_rows_pres, R1.
  assert (R3 : rect3 m m d a3) by apply zero_cols_pres, R2.
  eexists. split; [reflexivity|]. split; [apply zero_cols_pres, R3|].
  destruct (window_bounds_sum m k Hkm) as [Si Bhi].
  fold qm mm i0 in Si, Bhi.
  set (i1 := slice_bound m (qm / 2 + mm)) in *.
  assert (Z0 : slice_bound m 0 = 0%nat)
    by (rewrite (slice_bound_nat m 0 0); [reflexivity | reflexivity]).
  assert (Zm : slice_bound m qm = m)
    by (rewrite (slice_bound_nat m qm m); [apply Nat.min_id | reflexivity]).
  assert (S1 : shape1 a3 = m) by apply (rect3_shape1 a3 m m d ltac:(lia) R3).
  assert (S2 : shape1 a2 = m) by apply (rect3_shape1 a2 m m d ltac:(lia) R2).
  assert (S3 : shape0 a1 = m) by apply R1.
  assert (S4 : shape0 W = m) by apply RW.
  rewrite (cell_zero_cols zero a3 m m d _ _ i j c R3), S1.
  assert (C3 : cell a3 i j c
               = if ((slice_bound m 0 <=? j) && (j <? i0))%nat
                 then zeroed zero (cell a2 i j c) else cell a2 i j c).
  { unfold a3. rewrite (cell_zero_cols zero a2 m m d _ _ i j c R2), S2.
    reflexivity. }
  assert (C2 : cell a2 i j c
               = if ((i1 <=? i) && (i <? slice_bound m qm))%nat
                 then zeroed zero (cell a1 i j c) else cell a1 i j c).
  { unfold a2. rewrite (cell_zero_rows zero a1), S3. reflexivity. }
  assert (C1 : cell a1 i j c
               = if ((slice_bound m 0 <=? i) && (i <? i0))%nat
                 then zeroed zero (cell W i j c) else cell W i j c).
  { unfold a1. rewrite (cell_zero_rows zero W), S4. reflexivity. }
  fold i1. rewrite C3, C2, C1, Z0, Zm. clear C1 C2 C3.
  unfold in_support. fold qm mm i0 i1. fold i0 i1 in HW.
  destruct (Nat.leb_spec i0 i), (Nat.ltb_spec i i1),
    (Nat.leb_spec i0 j), (Nat.ltb_spec j i1);
    simpl in HW |- *;
    repeat match goal with
      | |- context [(?a <=? ?b)%nat] => destruct (Nat.leb_spec a b); try lia
      | |- context [(?a <? ?b)%nat] => destruct (Nat.ltb_spec a b); try lia
      end; simpl;
    lazymatch type of HW with
    | ex _ => destruct HW as [y [Ey Ew]]; rewrite Ey, Ew; reflexivity
    | _ => rewrite HW; reflexivity
    end.
Qed.

End SquareFilter.

(** X10: on a square spectrum and a square kernel that fits, the call does
    what its comment says.  After it, a cell inside the centered support
    window holds its old value times the kernel's cell at the same offset
    into the window, and every cell outside the window holds zero, along
    every distance slice. *)
Theorem apply_trans_func_square {A : Type} (zero : A) (mul : A -> A -> A)
    (ft G : ref) (h : gmap positive (arr3 A)) (m k d : nat)
    (i j c : nat) (x : A) :
  rect3 m m d (content h ft) -> rect3 k k d (content h G) ->
  (1 <= k)%nat -> (k <= m)%nat ->
  cell (content h ft) i j c = Some x ->
  exists h',
    apply_trans_func zero mul ft G h = Ok (ft, h') /\
    cell (content h' ft) i j c
    = if in_support m m k k i j
      then cell_mul mul (Some x)
             (cell (content h G)
                (i - slice_bound m (inject_Z (Z.of_nat m) / 2
                                    - inject_Z (Z.of_nat k) / 2))
                (j - slice_bound m (inject_Z (Z.of_nat m) / 2
                                    - inject_Z (Z.of_nat k) / 2)) c)
      else Some zero.
Proof.
  intros Hf Hg Hk1 Hkm Hc.
  destruct (filtered_square_cell zero mul _ _ m k d i j c x Hf Hg Hk1 Hkm Hc)
    as [r [E [_ Hr]]].
  rewrite apply_trans_func_run, E. eexists. split; [reflexivity|].
  rewrite content_insert. exact Hr.
Qed.

Lemma apply_trans_func_square_witness :
  exists h',
    apply_trans_func 0%Z Z.mul 1%positive 2%positive
      (two_arrays (ones 6 6 2) (map3 (Z.mul 3) (ones 4 4 2)))
    = Ok (1%positive, h') /\
    cell (content h' 1%positive) 0 3 1 = Some 0%Z /\
    cell (content h' 1%positive) 4 1 0 = Some 3%Z.
Proof.
  pose (h := two_arrays (ones 6 6 2) (map3 (Z.mul 3) (ones 4 4 2))).
  destruct (apply_trans_func_square 0%Z Z.mul 1%positive 2%positive h
              6 4 2 0 3 1 1%Z) as [h1 [E1 C1]];
    try lia; try reflexivity;
    try (split; try reflexivity; repeat constructor).
  destruct (apply_trans_func_square 0%Z Z.mul 1%positive 2%positive h
              6 4 2 4 1 0 1%Z) as [h2 [E2 C2]];
    try lia; try reflexivity;
    try (split; try reflexivity; repeat constructor).
  exists h1. split; [exact E1|]. split; [exact C1|].
  fold h in E1, E2. rewrite E1 in E2. injection E2 as <-. exact C2.
Defined.

(** ** apply_trans_func on any spectrum, cell by cell *)

Section GeneralFilter.

Context {A : Type} (zero : A) (mul : A -> A -> A).

Local Open Scope Q_scope.

(** Every cell of the spectrum after the filter, from the cells of the
    spectrum and the kernel before it. *)
Lemma filtered_cell (ft G : arr3 A) (m n d kx ky : nat) (i j c : nat)
    (x : A) :
  rect3 m n d ft -> rect3 kx ky d G ->
  (1 <= kx)%nat -> (kx <= m)%nat -> (ky <= n)%nat ->
  cell ft i j c = Some x ->
  let i0 := slice_bound m (inject_Z (Z.of_nat m) / 2
                           - inject_Z (Z.of_nat kx) / 2) in
  let j0 := slice_bound n (inject_Z (Z.of_nat n) / 2
                           - inject_Z (Z.of_nat ky) / 2) in
  exists r, filtered zero mul ft G = Ok r /\
    cell r i j c
    = if cleared m n kx ky i j then Some zero
      else if in_support m n kx ky i j
           then cell_mul mul (Some x) (cell G (i - i0) (j - j0) c)
           else Some x.
Proof.
  intros Hf Hg Hk1 Hkm Hkn Hc i0 j0.
  destruct (cell_bounds ft m n d i j c x Hf Hc) as [Bi [Bj Bc]].
  unfold filtered.
  rewrite (rect3_shape1 ft m n d ltac:(lia) Hf),
    (rect3_shape1 G kx ky d Hk1 Hg).
  replace (shape0 ft) with m by (symmetry; apply Hf).
  replace (shape0 G) with kx by (symmetry; apply Hg).
  destruct (imul_window_pres mul ft G m n d kx ky Hf Hg Hk1 Hkm Hkn)
    as [W [EW RW]].
  pose proof (imul_window_cell mul ft G W m n d kx ky i j c x
                Hf Hg Hk1 Hkm Hkn EW Hc) as HW.
  cbv zeta in HW. fold i0 j0 in HW.
  rewrite EW. simpl.
  set (qm := inject_Z (Z.of_nat m)) in *.
  set (qn := inject_Z (Z.of_nat n)) in *.
  set (mm := inject_Z (Z.of_nat kx) / 2) in *.
  set (nn := inject_Z (Z.of_nat ky) / 2) in *.
  set (a1 := zero_rows zero W 0 (qn / 2 - nn)).
  set (a2 := zero_rows zero a1 (qn / 2 + nn) qn).
  set (a3 := zero_cols zero a2 0 (qm / 2 - mm)).
  assert (R1 : rect3 m n d a1) by apply zero_rows_pres, RW.
  assert (R2 : rect3 m n d a2) by apply zero_rows_pres, R1.
  assert (R3 : rect3 m n d a3) by apply zero_cols_pres, R2.
  eexists. split; [reflexivity|].
  assert (S1 : shape1 a3 = n) by apply (rect3_shape1 a3 m n d ltac:(lia) R3).
  assert (S2 : shape1 a2 = n) by apply (rect3_shape1 a2 m n d ltac:(lia) R2).
  assert (S3 : shape0 a1 = m) by apply R1.
  assert (S4 : shape0 W = m) by apply RW.
  set (B1 := ((slice_bound m 0 <=? i)
              && (i <? slice_bound m (qn / 2 - nn)))%nat).
  set (B2 := ((slice_bound m (qn / 2 + nn) <=? i)
              && (i <? slice_bound m qn))%nat).
  set (B3 := ((slice_bound n 0 <=? j)
              && (j <? slice_bound n (qm / 2 - mm)))%nat).
  set (B4 := ((slice_bound n (qm / 2 + mm) <=? j)
              && (j <? slice_bound n qm))%nat).
  assert (C4 : cell (zero_cols zero a3 (qm / 2 + mm) qm) i j c
               = if B4 then zeroed zero (cell a3 i j c) else cell a3 i j c).
  { rewrite (cell_zero_cols zero a3 m n d _ _ i j c R3), S1. reflexivity. }
  assert (C3 : cell a3 i j c
               = if B3 then zeroed zero (cell a2 i j c) else cell a2 i j c).
  { unfold a3. rewrite (cell_zero_cols zero a2 m n d _ _ i j c R2), S2.
    reflexivity. }
  assert (C2 : cell a2 i j c
               = if B2 then zeroed zero (cell a1 i j c) else cell a1 i j c).
  { unfold a2. rewrite (cell_zero_rows zero a1), S3. reflexivity. }
  assert (C1 : cell a1 i j c
               = if B1 then zeroed zero (cell W i j c) else cell W i j c).
  { unfold a1. rewrite (cell_zero_rows zero W), S4. reflexivity. }
  rewrite C4, C3, C2, C1. clear C1 C2 C3 C4.
  change (cleared m n kx ky i j) with (B1 || B2 || B3 || B4)%bool.
  change (in_support m n kx ky i j)
    with ((slice_bound m (qm / 2 - mm) <=? i)
          && (i <? slice_bound m (qm / 2 + mm))
          && (slice_bound n (qn / 2 - nn) <=? j)
          && (j <? slice_bound n (qn / 2 + nn)))%nat.
  fold i0 j0.
  destruct ((i0 <=? i) && (i <? slice_bound m (qm / 2 + mm))
            && (j0 <=? j) && (j <? slice_bound n (qn / 2 + nn)))%nat.
  - destruct HW as [y [Ey Ew]]. rewrite Ey, Ew.
    destruct B1, B2, B3, B4; reflexivity.
  - rewrite HW. destruct B1, B2, B3, B4; reflexivity.
Qed.

End GeneralFilter.

(** C10: [apply_trans_func] works in place.  On a spectrum of shape
    [(m, n, d)] and a kernel of shape [(kx, ky, d)] that fits
    ([1 <= kx <= m], [ky <= n]) the call returns its first argument, the
    very reference it was given, and no other object has changed.  The
    object itself has been updated cell by cell: a cell in one of the four
    zeroed slices holds zero, any other cell of the overlap region holds
    its old value times the kernel's cell at the same offset into the
    region, and the remaining cells hold their old value.  What the caller
    passed is gone. *)
Theorem apply_trans_func_in_place {A : Type} (zero : A) (mul : A -> A -> A)
    (ft G : ref) (h : gmap positive (arr3 A)) (m n d kx ky : nat)
    (i j c : nat) (x : A) :
  rect3 m n d (content h ft) -> rect3 kx ky d (content h G) ->
  (1 <= kx)%nat -> (kx <= m)%nat -> (ky <= n)%nat ->
  cell (content h ft) i j c = Some x ->
  exists h',
    apply_trans_func zero mul ft G h = Ok (ft, h') /\
    (forall l : ref, l <> ft -> h' !! l = h !! l) /\
    cell (content h' ft) i j c
    = if cleared m n kx ky i j then Some zero
      else if in_support m n kx ky i j
           then cell_mul mul (Some x)
                  (cell (content h G)
                     (i - slice_bound m (inject_Z (Z.of_nat m) / 2
                                         - inject_Z (Z.of_nat kx) / 2))
                     (j - slice_bound n (inject_Z (Z.of_nat n) / 2
                                         - inject_Z (Z.of_nat ky) / 2)) c)
           else Some x.
Proof.
  intros Hf Hg Hk1 Hkm Hkn Hc.
  destruct (filtered_cell zero mul _ _ m n d kx ky i j c x
              Hf Hg Hk1 Hkm Hkn Hc) as [r [E Hr]].
  rewrite apply_trans_func_run, E. eexists. split; [reflexivity|]. split.
  - intros l Hl. apply lookup_insert_ne. congruence.
  - rewrite content_insert. exact Hr.
Qed.

(** A 4x8 spectrum of ones under a 2x4 kernel of threes: cell [(2, 4)] of
    the overlap region now holds 3, cell [(0, 5)] of a zeroed slice holds
    0, the kernel is untouched, and the object the caller passed no longer
    holds what it held. *)
Lemma apply_trans_func_in_place_witness :
  let h := two_arrays (ones 4 8 1) (map3 (Z.mul 3) (ones 2 4 1)) in
  exists h',
    apply_trans_func 0%Z Z.mul 1%positive 2%positive h = Ok (1%positive, h') /\
    h' !! 2%positive = h !! 2%positive /\
    cell (content h' 1%positive) 2 4 0 = Some 3%Z /\
    cell (content h' 1%positive) 0 5 0 = Some 0%Z /\
    content h' 1%positive <> content h 1%positive.
Proof.
  intros h.
  destruct (apply_trans_func_in_place 0%Z Z.mul 1%positive 2%positive h
              4 8 1 2 4 2 4 0 1%Z) as [h1 [E1 [F1 C1]]];
    try lia; try reflexivity;
    try (split; try reflexivity; repeat constructor).
  destruct (apply_trans_func_in_place 0%Z Z.mul 1%positive 2%positive h
              4 8 1 2 4 0 5 0 1%Z) as [h2 [E2 [_ C2]]];
    try lia; try reflexivity;
    try (split; try reflexivity; repeat constructor).
  rewrite E1 in E2. injection E2 as <-.
  exists h1. split; [exact E1|]. split; [apply F1; discriminate|].
  split; [exact C1|]. split; [exact C2|].
  intros Heq. rewrite Heq in C2. discriminate C2.
Defined.

(** ** propagate on one distance and on a stack *)

Section PropagateKinds.

Local Open Scope Q_scope.

Variable fft : arr2 C -> arr2 C.
Variable ifft : arr3 C -> arr3 C.
Hypothesis fft_shape : forall m n a, rect2 m n a -> rect2 m n (fft a).
Hypothesis ifft_shape : forall m n k a, rect3 m n k a -> rect3 m n k (ifft a).

(** Up to the packaging of the result: the array handed to [np.squeeze]. *)
Lemma propagate_run (data : Image) (d : list Q) (gf : Q) (m n : nat) :
  rect2 m n (samples data) -> (2 <= m)%nat -> (2 <= n)%nat ->
  0 < fst (spacing data) -> 0 < snd (spacing data) ->
  0 < med_wavelen (optics data) -> d <> [] ->
  exists G r,
    kernel (Z.of_nat (shape0 (samples data)),
            Z.of_nat (shape1 (samples data)))
           (spacing data) (med_wavelen (optics data)) d 0 gf = Ok G /\
    apply_trans_func C0 Cmul ref_ft ref_G
      (fresh_store (np_repeat_axis2 (fft (samples data)) (shape2 G)) G)
    = Ok (ref_ft,
          <[ref_ft := r]>
            (fresh_store (np_repeat_axis2 (fft (samples data)) (shape2 G)) G))
    /\ rect3 m n (length d) (ifft r).
Proof.
  intros Hrect Hm Hn Hdx Hdy Hw Hne.
  destruct data as [a [dx dy] op]. simpl in *.
  assert (S0 : shape0 a = m) by apply Hrect.
  assert (S1 : shape1 a = n).
  { destruct Hrect as [L R]. destruct a as [|r a]; simpl in *; [lia|].
    inversion R; subst. reflexivity. }
  destruct (kernel_valid m n dx dy (med_wavelen op) d gf)
    as [G [kx [ky [HG [RG [Bx By]]]]]]; try assumption; try lia.
  destruct (filtered_pres C0 Cmul (np_repeat_axis2 (fft a) (length d)) G
              m n (length d) kx ky)
    as [r [Er Rr]];
    [apply rect3_repeat, fft_shape, Hrect | exact RG | lia | lia | lia |].
  exists G, r. rewrite S0, S1. split; [exact HG|].
  rewrite (rect3_shape2 G kx ky (length d)) by (lia || exact RG).
  split; [|apply ifft_shape, Rr].
  rewrite apply_trans_func_run.
  destruct (content_fresh_store (np_repeat_axis2 (fft a) (length d)) G)
    as [-> ->].
  rewrite Er. reflexivity.
Qed.

Lemma allclose_equal (a : Q) (l : list Q) :
  Forall (fun x => x == a) l -> np_allclose a l = true.
Proof.
  intros H. unfold np_allclose. apply forallb_forall. intros x Hx.
  apply Qle_bool_iff.
  assert (E : x == a) by (eapply (proj1 (List.Forall_forall _ _) H); exact Hx).
  assert (Z0 : a - x == 0) by (rewrite E; ring).
  rewrite Z0. simpl Qabs.
  apply Qle_trans with ((1 # 100000000) + 0); [discriminate|].
  apply Qplus_le_r. apply Qmult_le_0_compat; [discriminate | apply Qabs_nonneg].
Qed.

End PropagateKinds.

(** X11: one distance gives an [Image].  On a field with at least two
    samples per axis, positive spacing and wavelength, [propagate] to a
    single distance, whatever its value and sign and whatever the gradient
    filter, returns an [Image] that carries the spacing and the optics of
    the input, with samples of the input's shape. *)
Theorem propagate_single_distance (fft : arr2 C -> arr2 C)
    (ifft : arr3 C -> arr3 C)
    (fft_shape : forall m n a, rect2 m n a -> rect2 m n (fft a))
    (ifft_shape : forall m n k a, rect3 m n k a -> rect3 m n k (ifft a))
    (data : Image) (d0 gf : Q) (m n : nat) :
  rect2 m n (samples data) -> (2 <= m)%nat -> (2 <= n)%nat ->
  (0 < fst (spacing data))%Q -> (0 < snd (spacing data))%Q ->
  (0 < med_wavelen (optics data))%Q ->
  exists a,
    rect2 m n a /\
    propagate fft ifft data [d0] gf
    = Ok (RImage (mkImage a (spacing data) (optics data))).
Proof.
  intros Hrect Hm Hn Hdx Hdy Hw.
  destruct (propagate_run fft ifft fft_shape ifft_shape data [d0] gf m n)
    as [G [r [HG [Er Rr]]]]; try assumption; [discriminate|].
  destruct (squeeze_one_slice C0 (ifft r) m n Rr Hm Hn) as [Es Rs].
  exists (map (map (the C0)) (ifft r)). split; [exact Rs|].
  unfold propagate. rewrite HG. cbn [rbind]. rewrite Er. cbn [rbind fst snd].
  rewrite content_insert, Es. reflexivity.
Qed.

Lemma propagate_single_distance_witness :
  let img := mkImage [[C1; C0; C0]; [C0; C1; C0]] (1, 1)%Q
                     (mkOptics 1 (1, 1)%Q (2 * PI)%R) in
  exists a,
    rect2 2 3 a /\
    propagate (fun a => a) (fun a => a) img [(-7 # 2)%Q] (1 # 4)%Q
    = Ok (RImage (mkImage a (1, 1)%Q (mkOptics 1 (1, 1)%Q (2 * PI)%R))).
Proof.
  intros img.
  apply (propagate_single_distance (fun a => a) (fun a => a)
           (fun m n a H => H) (fun m n k a H => H) img (-7 # 2)%Q (1 # 4)%Q
           2 3).
  - split; [reflexivity | repeat constructor].
  - lia.
  - lia.
  - reflexivity.
  - reflexivity.
  - reflexivity.
Defined.

(** X12: an evenly spaced stack gives a [Grid].  When all consecutive
    differences of two or more distances are equal to one step (ascending
    or descending), [propagate] returns a [Volume] on a [Grid] whose third
    spacing is the first difference [d[1] - d[0]], and whose shape is the
    image's shape by the number of distances. *)
Theorem propagate_even_stack (fft : arr2 C -> arr2 C)
    (ifft : arr3 C -> arr3 C)
    (fft_shape : forall m n a, rect2 m n a -> rect2 m n (fft a))
    (ifft_shape : forall m n k a, rect3 m n k a -> rect3 m n k (ifft a))
    (data : Image) (d : list Q) (gf step : Q) (m n : nat) :
  rect2 m n (samples data) -> (2 <= m)%nat -> (2 <= n)%nat ->
  (0 < fst (spacing data))%Q -> (0 < snd (spacing data))%Q ->
  (0 < med_wavelen (optics data))%Q -> (2 <= length d)%nat ->
  Forall (fun x => x == step)%Q (np_diff d) ->
  exists arr dd0,
    rect3 m n (length d) arr /\ (dd0 == step)%Q /\
    nth_error (np_diff d) 0 = Some dd0 /\
    propagate fft ifft data d gf
    = Ok (RVolume arr
            (Grid [fst (spacing data); snd (spacing data); dd0]
                  (m, n, length d))).
Proof.
  intros Hrect Hm Hn Hdx Hdy Hw Hd Hstep.
  assert (Hne : d <> []) by (destruct d; simpl in Hd; [lia | discriminate]).
  destruct (propagate_run fft ifft fft_shape ifft_shape data d gf m n)
    as [G [r [HG [Er Rr]]]]; try assumption.
  destruct (np_diff_two d Hd) as [dd0 [rest Edd]].
  assert (E0 : (dd0 == step)%Q).
  { rewrite Edd in Hstep. inversion Hstep; subst. assumption. }
  assert (Hall : np_allclose dd0 (np_diff d) = true).
  { apply allclose_equal. eapply Forall_impl; [exact Hstep|].
    intros x Hx. simpl in Hx. rewrite Hx, E0. reflexivity. }
  exists (ifft r), dd0. split; [exact Rr|]. split; [exact E0|].
  split; [rewrite Edd; reflexivity|].
  unfold propagate. rewrite HG. cbn [rbind]. rewrite Er. cbn [rbind fst snd].
  rewrite content_insert.
  rewrite (squeeze_3d C0 (ifft r) m n (length d)) by (lia || exact Rr).
  rewrite (shape3_rect (ifft r) m n (length d)) by (lia || exact Rr).
  rewrite Edd. rewrite <- Edd. rewrite Hall. reflexivity.
Qed.

Lemma propagate_even_stack_witness :
  let img := mkImage [[C1; C0]; [C0; C1]] (1, 1)%Q
                     (mkOptics 1 (1, 1)%Q (2 * PI)%R) in
  exists arr dd0,
    rect3 2 2 4 arr /\ (dd0 == - (5 # 2))%Q /\
    nth_error (np_diff [4; (3 # 2); -1; - (7 # 2)]%Q) 0 = Some dd0 /\
    propagate (fun a => a) (fun a => a) img [4; (3 # 2); -1; - (7 # 2)]%Q 0
    = Ok (RVolume arr (Grid [1; 1; dd0]%Q (2, 2, 4)%nat)).
Proof.
  intros img.
  apply (propagate_even_stack (fun a => a) (fun a => a)
           (fun m n a H => H) (fun m n k a H => H) img
           [4; (3 # 2); -1; - (7 # 2)]%Q 0 (- (5 # 2))%Q 2 2).
  - split; [reflexivity | repeat constructor].
  - lia.
  - lia.
  - reflexivity.
  - reflexivity.
  - reflexivity.
  - simpl. lia.
  - simpl. repeat constructor.
Defined.

(** ** impulse_response on any shape *)

Section ImpulseMore.

Local Open Scope Q_scope.

Lemma length_centered_ogrid (dim : Z) :
  length (np_ogrid (- (inject_Z dim / 2)) (inject_Z dim / 2)) = Z.to_nat dim.
Proof. rewrite length_np_ogrid, centered_width. reflexivity. Qed.

Lemma ir_root_opp (dx dy m n d : Q) :
  ir_root dx dy m n (- d) = ir_root dx dy m n d.
Proof.
  unfold ir_root. f_equal. apply Qeq_eqR. simpl. ring.
Qed.

Lemma Q2R_centered (dim : Z) (i : nat) :
  Q2R (inject_Z (Z.of_nat i) + - (inject_Z dim / 2))
  = (INR i - IZR dim / 2)%R.
Proof.
  rewrite Q2R_plus, Q2R_opp, Q2R_div by discriminate.
  rewrite !Q2R_inject_Z, INR_IZR_INZ.
  replace (Q2R 2) with 2%R by (unfold Q2R; simpl; field).
  reflexivity.
Qed.

Lemma ir_root_real (dx dy mi nj dk : Q) :
  ir_root dx dy mi nj dk
  = sqrt (Q2R dk * Q2R dk + (Q2R mi * Q2R dx) * (Q2R mi * Q2R dx)
          + (Q2R nj * Q2R dy) * (Q2R nj * Q2R dy))%R.
Proof.
  unfold ir_root. f_equal.
  assert (E : dk ^ 2 + (mi * dx) ^ 2 + (nj * dy) ^ 2
              == dk * dk + (mi * dx) * (mi * dx) + (nj * dy) * (nj * dy))
    by (simpl; reflexivity).
  rewrite (Qeq_eqR _ _ E).
  rewrite !Q2R_plus, !Q2R_mult. reflexivity.
Qed.

End ImpulseMore.

(** X13: for a non-zero wavelength (a zero one makes [1.0j/wavelen]
    raise) [impulse_response] returns an array of shape
    [(xdim, ydim, number of distances)] for every shape, odd dimensions
    included: with true division the bounds [-xdim/2] and [xdim/2] of the
    grid are half-integers for an odd [xdim], and the grid still has
    [xdim] points.  A negative dimension gives an empty axis. *)
Theorem impulse_response_shape (xdim ydim : Z) (optics : Optics)
    (d : list Q) :
  ~ (med_wavelen optics == 0)%Q ->
  rect3 (Z.to_nat xdim) (Z.to_nat ydim) (length d)
        (impulse_response (xdim, ydim) optics d).
Proof.
  intros _.
  destruct optics as [wavelen [dx dy] wv]. unfold impulse_response.
  cbn [pixel med_wavelen wavevec]. split.
  - rewrite length_map. apply length_centered_ogrid.
  - apply Forall_map, List.Forall_forall. intros mi _. split.
    + rewrite length_map. apply length_centered_ogrid.
    + apply Forall_map, List.Forall_forall. intros nj _.
      apply length_map.
Qed.

Lemma impulse_response_shape_witness :
  rect3 (Z.to_nat 3) (Z.to_nat 5) (length [2; - (1 # 2)]%Q)
        (impulse_response (3, 5) (mkOptics (1 # 2) (1, 1)%Q (4 * PI)%R)
                          [2; - (1 # 2)]%Q).
Proof.
  apply (impulse_response_shape 3 5 (mkOptics (1 # 2) (1, 1)%Q (4 * PI)%R)
           [2; - (1 # 2)]%Q).
  discriminate.
Defined.

(** X14: [impulse_response] does not see the sign of the distances: the
    distance enters only through [d**2], so the response for [-d] is the
    response for [d], cell by cell. *)
Theorem impulse_response_sign (shape : Z * Z) (optics : Optics)
    (d : list Q) :
  impulse_response shape optics (map Qopp d)
  = impulse_response shape optics d.
Proof.
  destruct optics as [wavelen [dx dy] wv]. destruct shape as [xdim ydim].
  unfold impulse_response. cbn [pixel med_wavelen wavevec].
  apply map_ext. intros mi. apply map_ext. intros nj.
  rewrite map_map. apply map_ext. intros dk.
  rewrite ir_root_opp. reflexivity.
Qed.

(** X15: the sample points of [impulse_response] on any shape.  The cell
    of index [(i, j, k)] holds the spherical wave at the pixel offset
    [(i - xdim/2, j - ydim/2)] from the center, at distance [d_k]
    (non-zero, with positive wavelength and pixel size, so that nothing is
    divided by zero).  For an odd dimension the offsets are half-integers:
    the function returns, and no sample lies on the axis. *)
Theorem impulse_response_any_shape (xdim ydim : Z) (optics : Optics)
    (d : list Q) (i j k : nat) (dk : Q) :
  (0 < med_wavelen optics)%Q ->
  (0 < fst (pixel optics))%Q -> (0 < snd (pixel optics))%Q ->
  (Z.of_nat i < xdim)%Z -> (Z.of_nat j < ydim)%Z ->
  nth_error d k = Some dk -> ~ (dk == 0)%Q ->
  cell (impulse_response (xdim, ydim) optics d) i j k
  = Some (spherical_wave (Q2R (med_wavelen optics)) (wavevec optics)
            (Q2R (fst (pixel optics))) (Q2R (snd (pixel optics)))
            (Q2R dk) (INR i - IZR xdim / 2)%R (INR j - IZR ydim / 2)%R).
Proof.
  intros Hw Hdx Hdy Hi Hj Hk Hd.
  destruct optics as [wavelen [dx dy] wv]. simpl in *.
  unfold impulse_response. cbn [pixel med_wavelen wavevec].
  rewrite (cell_map3
    (fun mi nj dk => ir_cell wavelen wv (ir_root dx dy mi nj dk))
    _ _ _ _ _ _
    (inject_Z (Z.of_nat i) + - (inject_Z xdim / 2))%Q
    (inject_Z (Z.of_nat j) + - (inject_Z ydim / 2))%Q
    dk).
  - f_equal. rewrite ir_cell_spherical. unfold spherical_wave.
    rewrite ir_root_real, !Q2R_centered. reflexivity.
  - apply nth_error_np_ogrid. rewrite centered_width. lia.
  - apply nth_error_np_ogrid. rewrite centered_width. lia.
  - exact Hk.
Qed.

Lemma impulse_response_any_shape_witness :
  let optics := mkOptics 1 (1, 1)%Q (2 * PI)%R in
  cell (impulse_response (3, 5) optics [(-2)%Q]) 1 4 0
  = Some (spherical_wave (Q2R 1) (2 * PI)%R (Q2R 1) (Q2R 1) (Q2R (-2))
            (INR 1 - IZR 3 / 2)%R (INR 4 - IZR 5 / 2)%R).
Proof.
  intros optics.
  apply (impulse_response_any_shape 3 5 optics [(-2)%Q] 1 4 0 (-2)%Q).
  - reflexivity.
  - reflexivity.
  - reflexivity.
  - reflexivity.
  - reflexivity.
  - reflexivity.
  - discriminate.
Defined.
